(** * Order controller: priority queue, cooking bots and the scheduler

    A shallow embedding of the order-management core:
    - [src/models/order.js]      (class Order),
    - [src/models/bot.js]        (class Bot),
    - [src/services/orderQueue.js] (class OrderQueue),
    - [src/orderController.js]   (class OrderController),
    - [src/constants.js].

    JavaScript objects are shared by reference: the same Order object sits in
    [controller.orders] and in exactly one of the pending queue, a bot's
    [currentOrder] slot or [completedOrders], and its [status] field is
    mutated in place.  The embedding therefore keeps an explicit heap of
    Order objects and of Bot objects, and every container holds references
    into it.  [setTimeout]/[clearTimeout] are modelled by a table of pending
    timers; a timer that fires is an event of its own. *)

From Stdlib Require Import ZArith Lia List Bool Arith Sorted.
From stdpp Require Import base tactics option list numbers.
Import ListNotations.

Local Open Scope nat_scope.

(** ** Constants ([src/constants.js]) *)

Inductive ORDER_TYPES := NORMAL | VIP.

Module ORDER_STATUS.
Inductive t := PENDING | PROCESSING | COMPLETE.
End ORDER_STATUS.

Module BOT_STATUS.
Inductive t := IDLE | PROCESSING.
End BOT_STATUS.

Definition STARTING_ORDER_NUMBER : nat := 1001.
Definition STARTING_BOT_ID : nat := 1.

#[global] Instance ORDER_TYPES_eq_dec : EqDecision ORDER_TYPES.
Proof. solve_decision. Defined.
#[global] Instance ORDER_STATUS_eq_dec : EqDecision ORDER_STATUS.t.
Proof. solve_decision. Defined.
#[global] Instance BOT_STATUS_eq_dec : EqDecision BOT_STATUS.t.
Proof. solve_decision. Defined.

(** ** class Order ([src/models/order.js])

    [createdAt] (a wall-clock [Date]) is never read by the core and is left
    out.  Order numbers are JavaScript numbers; they stay far below 2^53
    (every order is also kept in an array, whose length is below 2^32), so
    [n++] is exact and [nat] models it. *)
Module Order.
Record t := mk {
  orderNumber : nat;
  type : ORDER_TYPES;
  status : ORDER_STATUS.t
}.

(* constructor(orderNumber, type) *)
Definition new (orderNumber : nat) (type : ORDER_TYPES) : t :=
  mk orderNumber type ORDER_STATUS.PENDING.

Definition startProcessing (o : t) : t :=
  mk (orderNumber o) (type o) ORDER_STATUS.PROCESSING.

Definition complete (o : t) : t :=
  mk (orderNumber o) (type o) ORDER_STATUS.COMPLETE.

Definition returnToPending (o : t) : t :=
  mk (orderNumber o) (type o) ORDER_STATUS.PENDING.

(* this.type === ORDER_TYPES.VIP *)
Definition isVIP (o : t) : bool :=
  match type o with VIP => true | NORMAL => false end.
End Order.

(** ** class OrderQueue ([src/services/orderQueue.js])

    The queue is generic in what it stores; [isVIP] is the method it calls
    on its elements.  [vipOrderCount] is a JavaScript number that is
    decremented, so it is an integer here, and [splice] is given with the
    clamping of its start index that [Array.prototype.splice] performs. *)
Module OrderQueue.
Section Queue.
Context {A : Type}.
Variable isVIP : A -> bool.

Record t := mk {
  orders : list A;
  vipOrderCount : Z
}.

(* constructor() *)
Definition new : t := mk [] 0%Z.

(* arr.splice(start, 0, x): a negative start counts from the end, and
   the result is clamped to [0, length]. *)
Definition splice_insert (start : Z) (x : A) (l : list A) : list A :=
  let len := Z.of_nat (length l) in
  let k := if (start <? 0)%Z then Z.max (len + start) 0 else Z.min start len in
  take (Z.to_nat k) l ++ x :: drop (Z.to_nat k) l.

Definition enqueue (order : A) (q : t) : t :=
  if isVIP order then
    let insertIndex := vipOrderCount q in
    mk (splice_insert insertIndex order (orders q)) (vipOrderCount q + 1)%Z
  else
    mk (orders q ++ [order]) (vipOrderCount q).

(* returns (null | order, queue after the call) *)
Definition dequeue (q : t) : option A * t :=
  match orders q with
  | [] => (None, q)
  | order :: rest =>
      (Some order,
       mk rest (if isVIP order then (vipOrderCount q - 1)%Z else vipOrderCount q))
  end.

Definition size (q : t) : nat := length (orders q).

Definition isEmpty (q : t) : bool :=
  match orders q with [] => true | _ :: _ => false end.

(* [...this.orders] *)
Definition getAll (q : t) : list A := orders q.

Definition clear (q : t) : t := mk [] 0%Z.
End Queue.
Arguments t : clear implicits.
End OrderQueue.

(** *** Driving a queue by a sequence of mutator calls *)

Inductive QueueCall (A : Type) :=
  | CallEnqueue (order : A)
  | CallDequeue
  | CallClear.
Arguments CallEnqueue {A} order.
Arguments CallDequeue {A}.
Arguments CallClear {A}.

Definition queue_call {A} (isVIP : A -> bool) (c : QueueCall A)
    (q : OrderQueue.t A) : OrderQueue.t A :=
  match c with
  | CallEnqueue order => OrderQueue.enqueue isVIP order q
  | CallDequeue => snd (OrderQueue.dequeue isVIP q)
  | CallClear => OrderQueue.clear q
  end.

(* the calls are made left to right *)
Definition queue_run {A} (isVIP : A -> bool) (cs : list (QueueCall A))
    (q : OrderQueue.t A) : OrderQueue.t A :=
  fold_left (fun q c => queue_call isVIP c q) cs q.

(* Number the calls: an order enqueued by the i-th call is stamped with i,
   so that the order of enqueueing can be read off a snapshot. *)
Fixpoint stamp_calls {A} (i : nat) (cs : list (QueueCall A))
    : list (QueueCall (nat * A)) :=
  match cs with
  | [] => []
  | CallEnqueue x :: cs => CallEnqueue (i, x) :: stamp_calls (S i) cs
  | CallDequeue :: cs => CallDequeue :: stamp_calls (S i) cs
  | CallClear :: cs => CallClear :: stamp_calls (S i) cs
  end.

Definition stamped {A} (isVIP : A -> bool) (x : nat * A) : bool := isVIP (snd x).

(* Call dequeue up to [n] times, stopping at the first null: the orders
   returned, in the order of the calls, and the queue that is left. *)
Fixpoint dequeue_n {A} (isVIP : A -> bool) (n : nat) (q : OrderQueue.t A)
    : list A * OrderQueue.t A :=
  match n with
  | 0 => ([], q)
  | S n =>
      match OrderQueue.dequeue isVIP q with
      | (Some x, q') =>
          let '(l, q'') := dequeue_n isVIP n q' in (x :: l, q'')
      | (None, q') => ([], q')
      end
  end.

(** *** The two-sequence reading of the specification

    The specification describes the logical content of the queue as two
    sequences, the HIGH orders and the NORMAL orders, each in insertion
    order, read as their concatenation.  This definition follows those
    words; it is compared with [OrderQueue] below. *)
Module TwoSeq.
Section TwoSeq.
Context {A : Type}.
Variable isVIP : A -> bool.

Record t := mk { high : list A; normal : list A }.

Definition new : t := mk [] [].

Definition enqueue (x : A) (s : t) : t :=
  if isVIP x then mk (high s ++ [x]) (normal s)
  else mk (high s) (normal s ++ [x]).

(* the front element: the earliest HIGH one, else the earliest NORMAL one *)
Definition dequeue (s : t) : option A * t :=
  match high s, normal s with
  | x :: h, n => (Some x, mk h n)
  | [], x :: n => (Some x, mk [] n)
  | [], [] => (None, s)
  end.

Definition snapshot (s : t) : list A := high s ++ normal s.

Definition call (c : QueueCall A) (s : t) : t :=
  match c with
  | CallEnqueue x => enqueue x s
  | CallDequeue => snd (dequeue s)
  | CallClear => new
  end.

Definition run (cs : list (QueueCall A)) (s : t) : t :=
  fold_left (fun s c => call c s) cs s.
End TwoSeq.
Arguments t : clear implicits.
End TwoSeq.

(** *** Predicates on queues used in the statements *)

Definition notVIP {A} (isVIP : A -> bool) (x : A) : bool := negb (isVIP x).

(* the cached counter is the number of queued VIP orders, and these form a
   prefix of the array *)
Definition queue_ok {A} (isVIP : A -> bool) (q : OrderQueue.t A) : Prop :=
  OrderQueue.vipOrderCount q
    = Z.of_nat (length (List.filter isVIP (OrderQueue.orders q)))
  /\ OrderQueue.orders q
    = List.filter isVIP (OrderQueue.orders q)
        ++ List.filter (notVIP isVIP) (OrderQueue.orders q).

(* forget the stamps *)
Definition erase {A} (q : OrderQueue.t (nat * A)) : OrderQueue.t A :=
  OrderQueue.mk (map snd (OrderQueue.orders q)) (OrderQueue.vipOrderCount q).

(* within each class the stamps increase along the array, and all are below
   the next stamp *)
Definition stamps_ok {A} (isVIP : A -> bool) (next : nat)
    (q : OrderQueue.t (nat * A)) : Prop :=
  StronglySorted lt
    (map fst (List.filter (stamped isVIP) (OrderQueue.orders q)))
  /\ StronglySorted lt
    (map fst (List.filter (notVIP (stamped isVIP)) (OrderQueue.orders q)))
  /\ Forall (fun y => fst y < next) (OrderQueue.orders q).

(** ** class Bot ([src/models/bot.js]): the object *)

Definition oref := nat.   (* reference to an Order object *)
Definition bref := nat.   (* reference to a Bot object *)
Definition timer := nat.  (* handle returned by setTimeout *)

Module Bot.
Record t := mk {
  botId : nat;
  status : BOT_STATUS.t;
  currentOrder : option oref;
  processingTimeout : option timer
}.

(* constructor(botId) *)
Definition new (botId : nat) : t := mk botId BOT_STATUS.IDLE None None.

(* this.status === BOT_STATUS.IDLE *)
Definition isIdle (b : t) : bool :=
  match status b with BOT_STATUS.IDLE => true | BOT_STATUS.PROCESSING => false end.

Definition set_status (s : BOT_STATUS.t) (b : t) : t :=
  mk (botId b) s (currentOrder b) (processingTimeout b).
Definition set_currentOrder (o : option oref) (b : t) : t :=
  mk (botId b) (status b) o (processingTimeout b).
Definition set_processingTimeout (h : option timer) (b : t) : t :=
  mk (botId b) (status b) (currentOrder b) h.
End Bot.

(** ** Messages handed to the injected logger

    The logger receives one formatted string; the value of each
    interpolated expression is kept, the wall-clock prefix is not. *)
Inductive Msg :=
  | MsgCreated (type : ORDER_TYPES) (orderNumber : nat) (status : ORDER_STATUS.t)
  | MsgBotCreated (botId : nat)
  | MsgDestroyedProcessing (botId orderNumber : nat)
  | MsgDestroyedIdle (botId : nat)
  | MsgPickedUp (botId : nat) (type : ORDER_TYPES) (orderNumber : nat)
                (status : ORDER_STATUS.t)
  | MsgCompleted (botId : nat) (type : ORDER_TYPES) (orderNumber : nat)
                 (status : ORDER_STATUS.t)
  | MsgNowIdle (botId : nat).

(** ** The world: heap, pending timers, and the fields of one controller *)

Record World := mkWorld {
  (* heap of Order objects; references below [orderAlloc] are allocated *)
  orderHeap : oref -> Order.t;
  orderAlloc : nat;
  (* heap of Bot objects *)
  botHeap : bref -> Bot.t;
  botAlloc : nat;
  (* pending timers: handle |-> the bot whose completeOrder it will call *)
  timers : timer -> option bref;
  timerAlloc : nat;
  (* the calls made to the logger so far, oldest first *)
  logged : list Msg;
  (* fields of the OrderController *)
  orders : list oref;
  orderQueue : OrderQueue.t oref;
  completedOrders : list oref;
  bots : list bref;
  nextOrderNumber : nat;
  nextBotId : nat
}.

Definition upd {B} (f : nat -> B) (k : nat) (v : B) : nat -> B :=
  fun k' => if Nat.eqb k' k then v else f k'.

Definition set_orderHeap (f : (oref -> Order.t) -> (oref -> Order.t)) (w : World) : World :=
  mkWorld (f (orderHeap w)) (orderAlloc w) (botHeap w) (botAlloc w) (timers w)
    (timerAlloc w) (logged w) (orders w) (orderQueue w) (completedOrders w)
    (bots w) (nextOrderNumber w) (nextBotId w).
Definition set_orderAlloc (n : nat) (w : World) : World :=
  mkWorld (orderHeap w) n (botHeap w) (botAlloc w) (timers w)
    (timerAlloc w) (logged w) (orders w) (orderQueue w) (completedOrders w)
    (bots w) (nextOrderNumber w) (nextBotId w).
Definition set_botHeap (f : (bref -> Bot.t) -> (bref -> Bot.t)) (w : World) : World :=
  mkWorld (orderHeap w) (orderAlloc w) (f (botHeap w)) (botAlloc w) (timers w)
    (timerAlloc w) (logged w) (orders w) (orderQueue w) (completedOrders w)
    (bots w) (nextOrderNumber w) (nextBotId w).
Definition set_botAlloc (n : nat) (w : World) : World :=
  mkWorld (orderHeap w) (orderAlloc w) (botHeap w) n (timers w)
    (timerAlloc w) (logged w) (orders w) (orderQueue w) (completedOrders w)
    (bots w) (nextOrderNumber w) (nextBotId w).
Definition set_timers (f : (timer -> option bref) -> (timer -> option bref)) (w : World) : World :=
  mkWorld (orderHeap w) (orderAlloc w) (botHeap w) (botAlloc w) (f (timers w))
    (timerAlloc w) (logged w) (orders w) (orderQueue w) (completedOrders w)
    (bots w) (nextOrderNumber w) (nextBotId w).
Definition set_timerAlloc (n : nat) (w : World) : World :=
  mkWorld (orderHeap w) (orderAlloc w) (botHeap w) (botAlloc w) (timers w)
    n (logged w) (orders w) (orderQueue w) (completedOrders w)
    (bots w) (nextOrderNumber w) (nextBotId w).
Definition set_logged (f : list Msg -> list Msg) (w : World) : World :=
  mkWorld (orderHeap w) (orderAlloc w) (botHeap w) (botAlloc w) (timers w)
    (timerAlloc w) (f (logged w)) (orders w) (orderQueue w) (completedOrders w)
    (bots w) (nextOrderNumber w) (nextBotId w).
Definition set_orders (f : list oref -> list oref) (w : World) : World :=
  mkWorld (orderHeap w) (orderAlloc w) (botHeap w) (botAlloc w) (timers w)
    (timerAlloc w) (logged w) (f (orders w)) (orderQueue w) (completedOrders w)
    (bots w) (nextOrderNumber w) (nextBotId w).
Definition set_orderQueue (q : OrderQueue.t oref) (w : World) : World :=
  mkWorld (orderHeap w) (orderAlloc w) (botHeap w) (botAlloc w) (timers w)
    (timerAlloc w) (logged w) (orders w) q (completedOrders w)
    (bots w) (nextOrderNumber w) (nextBotId w).
Definition set_completedOrders (f : list oref -> list oref) (w : World) : World :=
  mkWorld (orderHeap w) (orderAlloc w) (botHeap w) (botAlloc w) (timers w)
    (timerAlloc w) (logged w) (orders w) (orderQueue w) (f (completedOrders w))
    (bots w) (nextOrderNumber w) (nextBotId w).
Definition set_bots (f : list bref -> list bref) (w : World) : World :=
  mkWorld (orderHeap w) (orderAlloc w) (botHeap w) (botAlloc w) (timers w)
    (timerAlloc w) (logged w) (orders w) (orderQueue w) (completedOrders w)
    (f (bots w)) (nextOrderNumber w) (nextBotId w).
Definition set_nextOrderNumber (n : nat) (w : World) : World :=
  mkWorld (orderHeap w) (orderAlloc w) (botHeap w) (botAlloc w) (timers w)
    (timerAlloc w) (logged w) (orders w) (orderQueue w) (completedOrders w)
    (bots w) n (nextBotId w).
Definition set_nextBotId (n : nat) (w : World) : World :=
  mkWorld (orderHeap w) (orderAlloc w) (botHeap w) (botAlloc w) (timers w)
    (timerAlloc w) (logged w) (orders w) (orderQueue w) (completedOrders w)
    (bots w) (nextOrderNumber w) n.

(** ** Computations: a state monad with exceptions

    A thrown exception keeps the world as it is at the throw: mutations made
    before it are not undone, as in JavaScript. *)

Inductive Err :=
  | BotBusy      (* new Error('Bot is already processing an order') *)
  | TypeErr      (* a method called on null *)
  | LoggerErr.   (* whatever the injected logger threw *)

Inductive Res (A : Type) :=
  | Ok (a : A) (w : World)
  | Throw (e : Err) (w : World).
Arguments Ok {A} a w.
Arguments Throw {A} e w.

Definition M (A : Type) := World -> Res A.

Definition ret {A} (a : A) : M A := fun w => Ok a w.
Definition bind {A B} (m : M A) (k : A -> M B) : M B :=
  fun w => match m w with
           | Ok a w' => k a w'
           | Throw e w' => Throw e w'
           end.
Definition throw {A} (e : Err) : M A := fun w => Throw e w.
Definition get : M World := fun w => Ok w w.
Definition modify (f : World -> World) : M unit := fun w => Ok tt (f w).

Declare Scope m_scope.
Delimit Scope m_scope with M.
Notation "x <- m ;; k" := (bind m (fun x => k))
  (at level 100, m at next level, right associativity) : m_scope.
Notation "m ;; k" := (bind m (fun _ => k))
  (at level 100, right associativity) : m_scope.
Local Open Scope m_scope.

Definition world_of {A} (r : Res A) : World :=
  match r with Ok _ w => w | Throw _ w => w end.

(** ** Primitive effects *)

(* new Order(orderNumber, type) *)
Definition new_Order (orderNumber : nat) (type : ORDER_TYPES) : M oref :=
  fun w =>
    let r := orderAlloc w in
    Ok r (set_orderAlloc (S r)
            (set_orderHeap (fun h => upd h r (Order.new orderNumber type)) w)).

(* new Bot(botId) *)
Definition new_Bot (botId : nat) : M bref :=
  fun w =>
    let b := botAlloc w in
    Ok b (set_botAlloc (S b)
            (set_botHeap (fun h => upd h b (Bot.new botId)) w)).

Definition update_order (r : oref) (f : Order.t -> Order.t) : M unit :=
  modify (set_orderHeap (fun h => upd h r (f (h r)))).

Definition update_bot (b : bref) (f : Bot.t -> Bot.t) : M unit :=
  modify (set_botHeap (fun h => upd h b (f (h b)))).

(* setTimeout(() => bot.completeOrder(onComplete), PROCESSING_TIME_MS):
   registers a pending timer for the bot and returns its handle. *)
Definition setTimeout (b : bref) : M timer :=
  fun w =>
    let h := timerAlloc w in
    Ok h (set_timerAlloc (S h) (set_timers (fun t => upd t h (Some b)) w)).

(* clearTimeout(h): the timer, if still pending, will not fire. *)
Definition clearTimeout (h : timer) : M unit :=
  modify (set_timers (fun t => upd t h None)).

(** ** class Bot: the methods

    [onComplete] is the callback handed to [startProcessing].  The only one
    the controller ever passes is [(o) => this._onOrderCompleted(bot, o)],
    so a pending timer needs to remember only its bot. *)

Definition Bot_startProcessing (b : bref) (order : option oref) : M unit :=
  w <- get ;;
  match Bot.status (botHeap w b) with
  | BOT_STATUS.PROCESSING => throw BotBusy
  | BOT_STATUS.IDLE =>
      update_bot b (Bot.set_currentOrder order) ;;
      update_bot b (Bot.set_status BOT_STATUS.PROCESSING) ;;
      match order with
      | None => throw TypeErr
      | Some r => update_order r Order.startProcessing
      end ;;
      h <- setTimeout b ;;
      update_bot b (Bot.set_processingTimeout (Some h))
  end.

Definition Bot_completeOrder (b : bref) (onComplete : option (oref -> M unit)) : M unit :=
  w <- get ;;
  match Bot.processingTimeout (botHeap w b) with
  | Some h =>
      clearTimeout h ;;
      update_bot b (Bot.set_processingTimeout None)
  | None => ret tt
  end ;;
  w <- get ;;
  match Bot.currentOrder (botHeap w b) with
  | Some completedOrder =>
      update_order completedOrder Order.complete ;;
      update_bot b (Bot.set_currentOrder None) ;;
      update_bot b (Bot.set_status BOT_STATUS.IDLE) ;;
      match onComplete with
      | Some k => k completedOrder
      | None => ret tt
      end
  | None => update_bot b (Bot.set_status BOT_STATUS.IDLE)
  end.

Definition Bot_stopProcessing (b : bref) : M (option oref) :=
  w <- get ;;
  match Bot.processingTimeout (botHeap w b) with
  | Some h =>
      clearTimeout h ;;
      update_bot b (Bot.set_processingTimeout None)
  | None => ret tt
  end ;;
  w <- get ;;
  match Bot.currentOrder (botHeap w b) with
  | Some order =>
      update_order order Order.returnToPending ;;
      update_bot b (Bot.set_currentOrder None) ;;
      update_bot b (Bot.set_status BOT_STATUS.IDLE) ;;
      ret (Some order)
  | None => ret None
  end.

(** ** class OrderController ([src/orderController.js]) *)

(* order.isVIP() for the order a reference points to *)
Definition isVIP_at (w : World) (r : oref) : bool := Order.isVIP (orderHeap w r).

(* bot.isIdle() *)
Definition isIdle_at (w : World) (b : bref) : bool := Bot.isIdle (botHeap w b).

(* this.orderQueue.enqueue(order) *)
Definition queue_enqueue (r : oref) : M unit :=
  modify (fun w => set_orderQueue (OrderQueue.enqueue (isVIP_at w) r (orderQueue w)) w).

(* this.orderQueue.dequeue() *)
Definition queue_dequeue : M (option oref) :=
  fun w =>
    let '(o, q) := OrderQueue.dequeue (isVIP_at w) (orderQueue w) in
    Ok o (set_orderQueue q w).

(* new OrderController(logger): a fresh world holding the one controller *)
Definition new_OrderController : World :=
  mkWorld (fun _ => Order.new 0 NORMAL) 0 (fun _ => Bot.new 0) 0
    (fun _ => None) 0 []
    [] OrderQueue.new [] [] STARTING_ORDER_NUMBER STARTING_BOT_ID.

Section Controller.
(** The injected logger.  It is called synchronously and does not call
    back into the controller; whether it throws may depend on the message
    and on the calls it has already received: [logger history msg = true]
    means that the call throws. *)
Variable logger : list Msg -> Msg -> bool.

(* this.logger(msg) *)
Definition log (m : Msg) : M unit :=
  fun w =>
    let w' := set_logged (fun l => l ++ [m]) w in
    if logger (logged w) m then Throw LoggerErr w' else Ok tt w'.

(* the body of the for-of loop over idleBots *)
Fixpoint assign_loop (idleBots : list bref) : M unit :=
  match idleBots with
  | [] => ret tt
  | bot :: rest =>
      w <- get ;;
      if OrderQueue.isEmpty (orderQueue w) then ret tt (* break *)
      else
        order <- queue_dequeue ;;
        Bot_startProcessing bot order ;;
        match order with
        | None => throw TypeErr
        | Some r =>
            w <- get ;;
            log (MsgPickedUp (Bot.botId (botHeap w bot))
                   (Order.type (orderHeap w r))
                   (Order.orderNumber (orderHeap w r))
                   (Order.status (orderHeap w r)))
        end ;;
        assign_loop rest
  end.

Definition _assignOrdersToIdleBots : M unit :=
  w <- get ;;
  let idleBots := List.filter (isIdle_at w) (bots w) in
  if (length idleBots =? 0) || OrderQueue.isEmpty (orderQueue w) then ret tt
  else assign_loop idleBots.

Definition _createOrder (type : ORDER_TYPES) : M oref :=
  w <- get ;;
  order <- new_Order (nextOrderNumber w) type ;;
  modify (set_nextOrderNumber (S (nextOrderNumber w))) ;;
  modify (set_orders (fun l => l ++ [order])) ;;
  queue_enqueue order ;;
  w <- get ;;
  log (MsgCreated type (Order.orderNumber (orderHeap w order))
         (Order.status (orderHeap w order))) ;;
  _assignOrdersToIdleBots ;;
  ret order.

Definition createNormalOrder : M oref := _createOrder NORMAL.
Definition createVIPOrder : M oref := _createOrder VIP.

Definition addBot : M bref :=
  w <- get ;;
  bot <- new_Bot (nextBotId w) ;;
  modify (set_nextBotId (S (nextBotId w))) ;;
  modify (set_bots (fun l => l ++ [bot])) ;;
  w <- get ;;
  log (MsgBotCreated (Bot.botId (botHeap w bot))) ;;
  _assignOrdersToIdleBots ;;
  ret bot.

Definition removeBot : M (option bref) :=
  w <- get ;;
  match list.last (bots w) with
  | None => ret None
  | Some bot =>
      modify (set_bots (@removelast bref)) ;;
      order <- Bot_stopProcessing bot ;;
      match order with
      | Some r =>
          queue_enqueue r ;;
          w <- get ;;
          log (MsgDestroyedProcessing (Bot.botId (botHeap w bot))
                 (Order.orderNumber (orderHeap w r)))
      | None =>
          w <- get ;;
          log (MsgDestroyedIdle (Bot.botId (botHeap w bot)))
      end ;;
      match order with
      | Some _ => _assignOrdersToIdleBots
      | None => ret tt
      end ;;
      ret (Some bot)
  end.

Definition _onOrderCompleted (bot : bref) (order : oref) : M unit :=
  modify (set_completedOrders (fun l => l ++ [order])) ;;
  w <- get ;;
  log (MsgCompleted (Bot.botId (botHeap w bot)) (Order.type (orderHeap w order))
         (Order.orderNumber (orderHeap w order))
         (Order.status (orderHeap w order))) ;;
  _assignOrdersToIdleBots ;;
  w <- get ;;
  if OrderQueue.isEmpty (orderQueue w) && isIdle_at w bot
  then log (MsgNowIdle (Bot.botId (botHeap w bot)))
  else ret tt.

(** The timer with handle [h] fires: the event loop drops it from the
    pending timers and runs the closure registered by [startProcessing],
    [() => bot.completeOrder((o) => controller._onOrderCompleted(bot, o))].
    A handle that is not pending cannot fire. *)
Definition timerFires (h : timer) : M unit :=
  w <- get ;;
  match timers w h with
  | None => ret tt
  | Some bot =>
      clearTimeout h ;;
      Bot_completeOrder bot (Some (_onOrderCompleted bot))
  end.

(** *** Events and reachable worlds *)

Inductive Event :=
  | EvCreateNormalOrder
  | EvCreateVIPOrder
  | EvAddBot
  | EvRemoveBot
  | EvTimer (h : timer).

Definition enabled (ev : Event) (w : World) : Prop :=
  match ev with
  | EvTimer h => timers w h <> None
  | _ => True
  end.

Definition run_event (ev : Event) : M unit :=
  match ev with
  | EvCreateNormalOrder => createNormalOrder ;; ret tt
  | EvCreateVIPOrder => createVIPOrder ;; ret tt
  | EvAddBot => addBot ;; ret tt
  | EvRemoveBot => removeBot ;; ret tt
  | EvTimer h => timerFires h
  end.

(* one completed operation *)
Definition step (w : World) (ev : Event) (w' : World) : Prop :=
  enabled ev w /\ run_event ev w = Ok tt w'.

(* [w'] is reached from [w] by completed operations *)
Inductive steps : World -> World -> Prop :=
  | steps_refl w : steps w w
  | steps_snoc w w1 ev w2 : steps w w1 -> step w1 ev w2 -> steps w w2.

Definition reachable (w : World) : Prop := steps new_OrderController w.

(* run a list of events, stopping at the first exception *)
Fixpoint run_events (evs : list Event) : M unit :=
  match evs with
  | [] => ret tt
  | ev :: rest => run_event ev ;; run_events rest
  end.

(* the same, checking that every event is enabled and completes *)
Definition enabledb (ev : Event) (w : World) : bool :=
  match ev with
  | EvTimer h => match timers w h with Some _ => true | None => false end
  | _ => true
  end.

Fixpoint exec (evs : list Event) (w : World) : option World :=
  match evs with
  | [] => Some w
  | ev :: rest =>
      if enabledb ev w then
        match run_event ev w with
        | Ok _ w' => exec rest w'
        | Throw _ _ => None
        end
      else None
  end.
End Controller.

(** ** Observations *)

(* getStatus().pendingOrders *)
Definition pendingOrders (w : World) : nat := OrderQueue.size (orderQueue w).
(* getPendingOrders() *)
Definition getPendingOrders (w : World) : list oref := OrderQueue.getAll (orderQueue w).
(* getStatus().activeBots *)
Definition activeBots (w : World) : nat := length (bots w).
(* the orders held by the bots of the pool, in pool order *)
Definition heldOrders (w : World) : list oref :=
  omap (fun b => Bot.currentOrder (botHeap w b)) (bots w).
Definition idleBots (w : World) : list bref := List.filter (isIdle_at w) (bots w).

(* getCompletedOrders(): [...this.completedOrders] *)
Definition getCompletedOrders (w : World) : list oref := completedOrders w.
(* getBots(): [...this.bots] *)
Definition getBots (w : World) : list bref := bots w.

(* the object returned by getStatus() *)
Module Status.
Record t := mk {
totalOrders : nat;
vipOrders : nat;
normalOrders : nat;
completedOrders : nat;
pendingOrders : nat;
activeBots : nat;
idleBots : nat;
processingBots : nat
}.
End Status.

Definition getStatus (w : World) : Status.t :=
  let vipOrders := length (List.filter (fun order => isVIP_at w order) (orders w)) in
  let normalOrders :=
    length (List.filter (fun order => negb (isVIP_at w order)) (orders w)) in
  let idleBots := length (List.filter (fun bot => isIdle_at w bot) (bots w)) in
  let processingBots :=
    length (List.filter (fun bot => negb (isIdle_at w bot)) (bots w)) in
  Status.mk (length (orders w)) vipOrders normalOrders
    (length (completedOrders w)) (OrderQueue.size (orderQueue w))
    (length (bots w)) idleBots processingBots.

(* a logger that never throws *)
Definition quiet (logger : list Msg -> Msg -> bool) : Prop :=
  forall history m, logger history m = false.

(* the logger of the tests: [() => {}] *)
Definition silent : list Msg -> Msg -> bool := fun _ _ => false.

(** ** Sample worlds, used to instantiate the theorems *)

(* two bots, four orders: order 1001 completed by bot 1, order 1002 held by
   bot 2, the VIP order 1003 taken over by bot 1, order 1004 pending *)
Definition demo_events : list Event :=
  [EvAddBot; EvCreateNormalOrder; EvAddBot; EvCreateNormalOrder;
   EvCreateVIPOrder; EvTimer 0; EvCreateNormalOrder].

Definition demo_world : World :=
  world_of (run_events silent demo_events new_OrderController).

(* bot 1 has completed order 1001 and is idle; bot 2, added last, is still
   processing order 1002 *)
Definition idle_first_events : list Event :=
  [EvAddBot; EvCreateNormalOrder; EvAddBot; EvCreateNormalOrder; EvTimer 0].

Definition idle_first_world : World :=
  world_of (run_events silent idle_first_events new_OrderController).

(* a logger that throws when told that a bot was created *)
Definition grumpy : list Msg -> Msg -> bool :=
  fun _ m => match m with MsgBotCreated _ => true | _ => false end.

(* a logger that throws when told that an order was created *)
Definition picky : list Msg -> Msg -> bool :=
  fun _ m => match m with MsgCreated _ _ _ => true | _ => false end.

(* one idle bot, nothing pending *)
Definition one_bot_world : World := world_of (addBot silent new_OrderController).

(* bot 1 is processing order 1001, its timer 0 is pending, nothing waits *)
Definition busy_events : list Event := [EvAddBot; EvCreateNormalOrder].

Definition busy_world : World :=
  world_of (run_events silent busy_events new_OrderController).

(* from [idle_first_world]: a VIP order arrives and goes to the idle bot 1,
   then bot 2 completes order 1002 *)
Definition later_events : list Event := [EvCreateVIPOrder; EvTimer 1].

Definition later_world : World :=
  world_of (run_events silent later_events idle_first_world).

(* the world left when [addBot] is cut short by the logger's exception: the
   orders 1001 (normal) and 1002 (VIP) are pending and bot 1 sits idle *)
Definition stalled_world : World :=
  world_of (run_events grumpy
              [EvCreateNormalOrder; EvCreateVIPOrder; EvAddBot]
              new_OrderController).

(* a logger that throws when told that order 1003 was created *)
Definition fussy : list Msg -> Msg -> bool :=
  fun _ m => match m with MsgCreated _ 1003 _ => true | _ => false end.

(* the world left when the creation of order 1003 is cut short by the
   logger's exception: bot 1 has completed order 1001 and is idle, bot 2 is
   processing order 1002, and order 1003 is pending *)
Definition abandoned_events : list Event :=
  [EvAddBot; EvCreateNormalOrder; EvAddBot; EvCreateNormalOrder; EvTimer 0;
   EvCreateNormalOrder].

Definition abandoned_world : World :=
  world_of (run_events fussy abandoned_events new_OrderController).

(* a logger that throws when told that a bot picked up an order *)
Definition touchy : list Msg -> Msg -> bool :=
  fun _ m => match m with MsgPickedUp _ _ _ _ => true | _ => false end.

(** ** The worlds between the logger calls

    Each method mutates the world in a few places and then calls the logger.
    These are the worlds at those calls, written as the sequence of
    mutations the code performs; the lemmas [*_eq] below check them against
    the code. *)

(* _createOrder, up to the logger call *)
Definition after_create (type : ORDER_TYPES) (w : World) : World :=
  let w1 :=
    set_orders (fun l => l ++ [orderAlloc w])
      (set_nextOrderNumber (S (nextOrderNumber w))
         (set_orderAlloc (S (orderAlloc w))
            (set_orderHeap
               (fun h => upd h (orderAlloc w) (Order.new (nextOrderNumber w) type))
               w))) in
  set_orderQueue (OrderQueue.enqueue (isVIP_at w1) (orderAlloc w) (orderQueue w)) w1.

(* addBot, up to the logger call *)
Definition after_addBot (w : World) : World :=
  set_bots (fun l => l ++ [botAlloc w])
    (set_nextBotId (S (nextBotId w))
       (set_botAlloc (S (botAlloc w))
          (set_botHeap (fun h => upd h (botAlloc w) (Bot.new (nextBotId w))) w))).

(* one turn of the assignment loop, up to the logger call: the front order
   [r] is dequeued and bot [b] starts processing it *)
Definition after_bind (b : bref) (r : oref) (w : World) : World :=
  set_botHeap
    (fun h => upd h b (Bot.set_processingTimeout (Some (timerAlloc w)) (h b)))
    (set_timerAlloc (S (timerAlloc w))
       (set_timers (fun t => upd t (timerAlloc w) (Some b))
          (set_orderHeap (fun h => upd h r (Order.startProcessing (h r)))
             (set_botHeap
                (fun h => upd h b (Bot.set_status BOT_STATUS.PROCESSING (h b)))
                (set_botHeap
                   (fun h => upd h b (Bot.set_currentOrder (Some r) (h b)))
                   (set_orderQueue
                      (snd (OrderQueue.dequeue (isVIP_at w) (orderQueue w)))
                      w)))))).

(* stopProcessing of a bot that holds order [r] and timer [h] *)
Definition after_stop (b : bref) (r : oref) (h : timer) (w : World) : World :=
  set_botHeap (fun h0 => upd h0 b (Bot.set_status BOT_STATUS.IDLE (h0 b)))
    (set_botHeap (fun h0 => upd h0 b (Bot.set_currentOrder None (h0 b)))
       (set_orderHeap (fun h0 => upd h0 r (Order.returnToPending (h0 r)))
          (set_botHeap
             (fun h0 => upd h0 b (Bot.set_processingTimeout None (h0 b)))
             (set_timers (fun t => upd t h None) w)))).

(* removeBot of a processing bot, up to the logger call *)
Definition after_preempt (b : bref) (r : oref) (h : timer) (w : World) : World :=
  let w1 := after_stop b r h (set_bots (@removelast bref) w) in
  set_orderQueue (OrderQueue.enqueue (isVIP_at w1) r (orderQueue w)) w1.

(* the timer [h] of bot [b] fires while it holds order [r]: the world at the
   logger call of _onOrderCompleted *)
Definition after_complete (b : bref) (r : oref) (h : timer) (w : World) : World :=
  set_completedOrders (fun l => l ++ [r])
    (set_botHeap (fun h0 => upd h0 b (Bot.set_status BOT_STATUS.IDLE (h0 b)))
       (set_botHeap (fun h0 => upd h0 b (Bot.set_currentOrder None (h0 b)))
          (set_orderHeap (fun h0 => upd h0 r (Order.complete (h0 r)))
             (set_botHeap
                (fun h0 => upd h0 b (Bot.set_processingTimeout None (h0 b)))
                (set_timers (fun t => upd t h None)
                   (set_timers (fun t => upd t h None) w)))))).

(** ** Well-formed worlds

    What holds of the heap, the timers and the controller's fields whenever
    the controller is not in the middle of one of its methods. *)

(* PROCESSING <-> current order set <-> timer handle set *)
Definition bot_consistent (b : Bot.t) : Prop :=
  (Bot.status b = BOT_STATUS.PROCESSING <-> is_Some (Bot.currentOrder b))
  /\ (is_Some (Bot.currentOrder b) <-> is_Some (Bot.processingTimeout b)).

Record WF (w : World) : Prop := mkWF {
  (* the queue's cached counter and VIP prefix *)
  wf_queue : queue_ok (isVIP_at w) (orderQueue w);
  (* controller.orders holds every order ever created, in creation order *)
  wf_orders : orders w = seq 0 (orderAlloc w);
  (* every order is in exactly one of: queue, a pool bot's slot, completed *)
  wf_places :
    getPendingOrders w ++ heldOrders w ++ completedOrders w
      ≡ₚ seq 0 (orderAlloc w);
  wf_pending : forall r, r ∈ getPendingOrders w ->
    Order.status (orderHeap w r) = ORDER_STATUS.PENDING;
  wf_held : forall r, r ∈ heldOrders w ->
    Order.status (orderHeap w r) = ORDER_STATUS.PROCESSING;
  wf_completed : forall r, r ∈ completedOrders w ->
    Order.status (orderHeap w r) = ORDER_STATUS.COMPLETE;
  (* the pool lists allocated bots, oldest first *)
  wf_pool_sorted : StronglySorted lt (bots w);
  wf_pool_alloc : forall b, b ∈ bots w -> b < botAlloc w;
  wf_bot : forall b, bot_consistent (botHeap w b);
  (* a bot outside the pool (removed, or not yet created) is idle *)
  wf_retired : forall b, b ∉ bots w ->
    Bot.status (botHeap w b) = BOT_STATUS.IDLE;
  (* the pending timers are exactly the handles the bots hold *)
  wf_timers : forall h b,
    timers w h = Some b <-> Bot.processingTimeout (botHeap w b) = Some h;
  wf_timer_alloc : forall h, timers w h <> None -> h < timerAlloc w;
  (* identifiers *)
  wf_order_ids : forall r, r < orderAlloc w ->
    Order.orderNumber (orderHeap w r) = STARTING_ORDER_NUMBER + r;
  wf_next_order : nextOrderNumber w = STARTING_ORDER_NUMBER + orderAlloc w;
  wf_bot_ids : forall b, b < botAlloc w ->
    Bot.botId (botHeap w b) = STARTING_BOT_ID + b;
  wf_next_bot : nextBotId w = STARTING_BOT_ID + botAlloc w
}.

(* after an assignment pass: nothing is pending, or no pool bot is idle *)
Definition Saturated (w : World) : Prop :=
  getPendingOrders w = [] \/ idleBots w = [].

(* what never comes back: a bot that left the pool, a timer that is gone *)
Definition mono (w w' : World) : Prop :=
  botAlloc w <= botAlloc w'
  /\ (forall b, b < botAlloc w -> b ∉ bots w -> b ∉ bots w')
  /\ timerAlloc w <= timerAlloc w'
  /\ (forall h, h < timerAlloc w -> timers w h = None -> timers w' h = None).

(** *** What an assignment pass does

    [bs] lists the bindings (bot, order) made by the pass, in the order in
    which they are made. *)

(* the message logged when [p.1] picks up [p.2] *)
Definition picked_up (w : World) (p : bref * oref) : Msg :=
  MsgPickedUp (Bot.botId (botHeap w p.1)) (Order.type (orderHeap w p.2))
    (Order.orderNumber (orderHeap w p.2)) ORDER_STATUS.PROCESSING.

Record Assigned (bs : list (bref * oref)) (w w' : World) : Prop := mkAssigned {
  (* the bound orders have left the front of the queue *)
  as_pending : getPendingOrders w' = drop (length bs) (getPendingOrders w);
  (* each bound bot is PROCESSING and holds its order *)
  as_bot : forall b r, (b, r) ∈ bs ->
    Bot.status (botHeap w' b) = BOT_STATUS.PROCESSING
    /\ Bot.currentOrder (botHeap w' b) = Some r;
  (* each bound order is PROCESSING *)
  as_order : forall b r, (b, r) ∈ bs ->
    orderHeap w' r = Order.startProcessing (orderHeap w r);
  (* nothing else changes *)
  as_bots : forall b, b ∉ bs.*1 -> botHeap w' b = botHeap w b;
  as_orders : forall r, r ∉ bs.*2 -> orderHeap w' r = orderHeap w r;
  as_botId : forall b, Bot.botId (botHeap w' b) = Bot.botId (botHeap w b);
  as_type : forall r, Order.type (orderHeap w' r) = Order.type (orderHeap w r);
  as_number : forall r,
    Order.orderNumber (orderHeap w' r) = Order.orderNumber (orderHeap w r);
  as_old_timers : forall h, h < timerAlloc w -> timers w' h = timers w h;
  as_pool : bots w' = bots w;
  as_created : orders w' = orders w;
  as_completed : completedOrders w' = completedOrders w;
  as_orderAlloc : orderAlloc w' = orderAlloc w;
  as_botAlloc : botAlloc w' = botAlloc w;
  as_nextOrderNumber : nextOrderNumber w' = nextOrderNumber w;
  as_nextBotId : nextBotId w' = nextBotId w;
  (* one message per binding, in order *)
  as_logged : logged w' = logged w ++ map (picked_up w) bs
}.

(* the bindings an assignment pass makes from [w]: the idle bots of the pool,
   in pool order, paired with the queued orders, front first *)
Definition bindings (w : World) : list (bref * oref) :=
  zip (idleBots w) (getPendingOrders w).

(* The index of the first call at which the logger throws, when it is
   called with the messages [ms] in turn after the calls [l]. *)
Fixpoint first_throw (logger : list Msg -> Msg -> bool) (l ms : list Msg)
    : option nat :=
  match ms with
  | [] => None
  | m :: ms' =>
      if logger l m then Some 0
      else option_map S (first_throw logger (l ++ [m]) ms')
  end.

(* The outcome [r] of code that, in world [w0], calls the logger with [m0],
   then runs an assignment pass, then goes on as [k].  The calls it makes
   are [m0] and one 'picked up' message per binding.  If none throws, all
   bindings are made and [k] is run.  If the call with [m0] throws, the
   logger's exception comes out at once, in the world of that call.  If
   the first call to throw is that for binding [j] (counted from 1), the
   exception comes out, the first [j] bindings are made (the one whose
   message threw included) and the others are not. *)
Definition logs_then_assigns {A} (logger : list Msg -> Msg -> bool)
    (m0 : Msg) (w0 : World) (k : M A) (r : Res A) : Prop :=
  let w1 := set_logged (fun l => l ++ [m0]) w0 in
  match first_throw logger (logged w0) (m0 :: map (picked_up w1) (bindings w1)) with
  | None => exists w2, Assigned (bindings w1) w1 w2 /\ r = k w2
  | Some 0 => r = Throw LoggerErr w1
  | Some j =>
      exists w2, Assigned (take j (bindings w1)) w1 w2 /\ r = Throw LoggerErr w2
  end.

(* what the past fixes: the orders created and the orders completed stay
   where they are in their lists, and the identity of an order or of a bot
   (number, class, id) does not change *)
Definition history (w w' : World) : Prop :=
  orders w `prefix_of` orders w'
  /\ completedOrders w `prefix_of` completedOrders w'
  /\ orderAlloc w <= orderAlloc w'
  /\ botAlloc w <= botAlloc w'
  /\ (forall r, r < orderAlloc w ->
        Order.orderNumber (orderHeap w' r) = Order.orderNumber (orderHeap w r)
        /\ Order.type (orderHeap w' r) = Order.type (orderHeap w r))
  /\ (forall b, b < botAlloc w ->
        Bot.botId (botHeap w' b) = Bot.botId (botHeap w b)).

(** The outcome of a computation: a normal return satisfying [Q], or the
    logger's exception leaving a world satisfying [E]. *)
Definition post {A} (logger : list Msg -> Msg -> bool) (r : Res A)
    (Q : A -> World -> Prop) (E : World -> Prop) : Prop :=
  match r with
  | Ok a w => Q a w
  | Throw e w => e = LoggerErr /\ ~ quiet logger /\ E w
  end.

(** * Properties *)

(** ** The priority queue *)

Section QueueFacts.
Context {A : Type}.
Variable isVIP : A -> bool.

Lemma filter_notVIP_VIP (l : list A) :
  List.filter (notVIP isVIP) (List.filter isVIP l) = [].
Proof.
  induction l as [|x l IH]; simpl; [done|].
  destruct (isVIP x) eqn:E; simpl; [|done].
  unfold notVIP at 1. by rewrite E.
Qed.

Lemma filter_VIP_notVIP (l : list A) :
  List.filter isVIP (List.filter (notVIP isVIP) l) = [].
Proof.
  induction l as [|x l IH]; simpl; [done|].
  unfold notVIP at 1. destruct (isVIP x) eqn:E; simpl; [done|].
  by rewrite E.
Qed.

Lemma filter_idem (f : A -> bool) (l : list A) :
  List.filter f (List.filter f l) = List.filter f l.
Proof.
  induction l as [|x l IH]; simpl; [done|].
  destruct (f x) eqn:E; simpl; [rewrite E|]; by rewrite ?IH.
Qed.

Lemma splice_insert_at (l1 l2 : list A) (x : A) :
  OrderQueue.splice_insert (Z.of_nat (length l1)) x (l1 ++ l2) = l1 ++ x :: l2.
Proof.
  unfold OrderQueue.splice_insert.
  assert (Hlt : (Z.of_nat (length l1) <? 0)%Z = false) by (apply Z.ltb_ge; lia).
  rewrite Hlt, length_app, Z.min_l, Nat2Z.id by lia.
  by rewrite take_app_length, drop_app_length.
Qed.

Lemma queue_ok_new : queue_ok isVIP OrderQueue.new.
Proof. by split. Qed.

Lemma queue_ok_clear q : queue_ok isVIP (OrderQueue.clear q).
Proof. by split. Qed.

Lemma enqueue_orders q x :
  queue_ok isVIP q ->
  OrderQueue.orders (OrderQueue.enqueue isVIP x q)
    = if isVIP x
      then List.filter isVIP (OrderQueue.orders q) ++ x
             :: List.filter (notVIP isVIP) (OrderQueue.orders q)
      else OrderQueue.orders q ++ [x].
Proof.
  intros [Hc Hp]. unfold OrderQueue.enqueue.
  destruct (isVIP x); simpl; [|done].
  rewrite Hc. rewrite Hp at 2. apply splice_insert_at.
Qed.

Lemma queue_ok_enqueue q x : queue_ok isVIP q -> queue_ok isVIP (OrderQueue.enqueue isVIP x q).
Proof.
  intros Hq. pose proof (enqueue_orders q x Hq) as Ho.
  destruct Hq as [Hc Hp]. split.
  - rewrite Ho. unfold OrderQueue.enqueue.
    destruct (isVIP x) eqn:E; simpl.
    + rewrite filter_app. simpl. rewrite E, filter_idem, filter_VIP_notVIP.
      rewrite length_app. simpl. lia.
    + rewrite filter_app. simpl. rewrite E, app_nil_r. done.
  - rewrite Ho. destruct (isVIP x) eqn:E.
    + assert (En : (notVIP isVIP) x = false) by (unfold notVIP; by rewrite E).
      rewrite !filter_app. simpl. rewrite E, En.
      rewrite filter_idem, filter_VIP_notVIP, filter_notVIP_VIP, filter_idem.
      simpl. by rewrite <- app_assoc.
    + assert (En : (notVIP isVIP) x = true) by (unfold notVIP; by rewrite E).
      rewrite !filter_app. simpl. rewrite E, En.
      rewrite app_nil_r, app_assoc. by rewrite <- Hp.
Qed.

Lemma queue_ok_dequeue q : queue_ok isVIP q -> queue_ok isVIP (snd (OrderQueue.dequeue isVIP q)).
Proof.
  intros [Hc Hp]. unfold OrderQueue.dequeue.
  destruct (OrderQueue.orders q) as [|x l] eqn:El; simpl.
  - split; rewrite ?El; done.
  - simpl in Hc, Hp.
    assert (En : (notVIP isVIP) x = negb (isVIP x)) by done. rewrite En in Hp.
    destruct (isVIP x) eqn:E; simpl in *.
    + split; simpl; [lia | congruence].
    + split; simpl; [done|].
      destruct (List.filter isVIP l) as [|y l'] eqn:Ef;
        [simpl in *; by injection Hp|].
      exfalso. inversion Hp; subst y.
      assert (Hin : In x (List.filter isVIP l)) by (rewrite Ef; by left).
      apply filter_In in Hin. destruct Hin as [_ Hin]. congruence.
Qed.

Lemma queue_ok_call c q : queue_ok isVIP q -> queue_ok isVIP (queue_call isVIP c q).
Proof.
  destruct c; simpl; auto using queue_ok_enqueue, queue_ok_dequeue, queue_ok_clear.
Qed.

Lemma queue_run_snoc cs c q :
  queue_run isVIP (cs ++ [c]) q = queue_call isVIP c (queue_run isVIP cs q).
Proof. unfold queue_run. by rewrite fold_left_app. Qed.

Lemma queue_ok_run cs : queue_ok isVIP (queue_run isVIP cs OrderQueue.new).
Proof.
  induction cs as [|c cs IH] using rev_ind; [apply queue_ok_new|].
  rewrite queue_run_snoc. by apply queue_ok_call.
Qed.

(* dequeue takes the first VIP order if there is one, else the first
   normal order *)
Lemma dequeue_orders q :
  queue_ok isVIP q ->
  List.filter isVIP (OrderQueue.orders (snd (OrderQueue.dequeue isVIP q)))
    = tail (List.filter isVIP (OrderQueue.orders q))
  /\ List.filter (notVIP isVIP) (OrderQueue.orders (snd (OrderQueue.dequeue isVIP q)))
    = match List.filter isVIP (OrderQueue.orders q) with
      | [] => tail (List.filter (notVIP isVIP) (OrderQueue.orders q))
      | _ :: _ => List.filter (notVIP isVIP) (OrderQueue.orders q)
      end.
Proof.
  intros [Hc Hp]. unfold OrderQueue.dequeue.
  destruct (OrderQueue.orders q) as [|x l] eqn:El; simpl; [by rewrite El|].
  assert (En : (notVIP isVIP) x = negb (isVIP x)) by done. rewrite !En.
  destruct (isVIP x) eqn:E; simpl; [done|].
  simpl in Hp. rewrite En, E in Hp. simpl in Hp.
  destruct (List.filter isVIP l) as [|y l'] eqn:Ef; [done|].
  exfalso. inversion Hp; subst y.
  assert (Hin : In x (List.filter isVIP l)) by (rewrite Ef; by left).
  apply filter_In in Hin. destruct Hin as [_ Hin]. congruence.
Qed.

(** The queue refines the two-sequence reading: after any calls, the two
    sequences are the VIP part and the normal part of the array. *)
Lemma queue_refines_TwoSeq cs :
  let q := queue_run isVIP cs OrderQueue.new in
  let s := TwoSeq.run isVIP cs TwoSeq.new in
  TwoSeq.high s = List.filter isVIP (OrderQueue.orders q)
  /\ TwoSeq.normal s = List.filter (notVIP isVIP) (OrderQueue.orders q).
Proof.
  induction cs as [|c cs IH] using rev_ind; [done|].
  simpl in *. rewrite queue_run_snoc. unfold TwoSeq.run in *.
  rewrite fold_left_app. simpl.
  pose proof (queue_ok_run cs) as Hok.
  set (q := queue_run isVIP cs OrderQueue.new) in *.
  set (s := fold_left _ cs TwoSeq.new) in *.
  destruct IH as [Hh Hn]. destruct c as [x| |]; simpl.
  - rewrite (enqueue_orders q x Hok). unfold TwoSeq.enqueue.
    assert (En : (notVIP isVIP) x = negb (isVIP x)) by done.
    destruct (isVIP x) eqn:E; simpl; rewrite !filter_app; simpl;
      rewrite En, E; simpl.
    + rewrite filter_idem, filter_VIP_notVIP, filter_notVIP_VIP, filter_idem.
      rewrite ?app_nil_r. simpl. by rewrite Hh, Hn.
    + rewrite ?app_nil_r. simpl. by rewrite Hh, Hn.
  - destruct (dequeue_orders q Hok) as [-> ->].
    unfold TwoSeq.dequeue. rewrite <- Hh, <- Hn.
    clearbody s. destruct s as [h n]; simpl. by destruct h, n.
  - done.
Qed.
End QueueFacts.

Section QueueStamps.
Context {A : Type}.
Variable isVIP : A -> bool.

Lemma erase_enqueue i x q :
  erase (OrderQueue.enqueue (stamped isVIP) (i, x) q)
    = OrderQueue.enqueue isVIP x (erase q).
Proof.
  unfold OrderQueue.enqueue, erase, stamped. simpl.
  destruct (isVIP x); simpl; f_equal.
  - unfold OrderQueue.splice_insert.
    rewrite map_app. simpl. by rewrite length_map, firstn_map, skipn_map.
  - by rewrite map_app.
Qed.

Lemma erase_dequeue q :
  erase (snd (OrderQueue.dequeue (stamped isVIP) q))
    = snd (OrderQueue.dequeue isVIP (erase q)).
Proof.
  unfold OrderQueue.dequeue, erase, stamped.
  destruct q as [[|[i x] l] n]; simpl; done.
Qed.

Lemma erase_run cs : forall i q,
  erase (queue_run (stamped isVIP) (stamp_calls i cs) q)
    = queue_run isVIP cs (erase q).
Proof.
  induction cs as [|c cs IH]; intros i q; [done|].
  destruct c as [x| |]; simpl; rewrite IH; f_equal.
  - apply erase_enqueue.
  - apply erase_dequeue.
Qed.

Lemma StronglySorted_snoc (l : list nat) (i : nat) :
  StronglySorted lt l -> Forall (fun j => j < i) l -> StronglySorted lt (l ++ [i]).
Proof.
  induction 1 as [|j l Hs IH Hj]; intros Hl; simpl.
  - repeat constructor.
  - inversion Hl; subst. constructor; [auto|].
    apply Forall_app. split; [done|]. by repeat constructor.
Qed.

Lemma StronglySorted_map_tail {B} (f : B -> nat) (l : list B) :
  StronglySorted lt (map f l) -> StronglySorted lt (map f (tail l)).
Proof. destruct l; simpl; [constructor | by inversion 1]. Qed.

Lemma Forall_filter_bool {B} (P : B -> Prop) (f : B -> bool) (l : list B) :
  Forall P l -> Forall P (List.filter f l).
Proof.
  induction 1 as [|y l Hy Hl IH]; simpl; [constructor|].
  destruct (f y); [by constructor | done].
Qed.

Lemma stamps_ok_call c i q :
  queue_ok (stamped isVIP) q -> stamps_ok isVIP i q ->
  match c with
  | CallEnqueue x =>
      stamps_ok isVIP (S i) (OrderQueue.enqueue (stamped isVIP) (i, x) q)
  | CallDequeue => stamps_ok isVIP (S i) (snd (OrderQueue.dequeue (stamped isVIP) q))
  | CallClear => stamps_ok isVIP (S i) (OrderQueue.clear q)
  end.
Proof.
  intros Hok (Hv & Hn & Hlt).
  assert (Hlt' : Forall (fun y : nat * A => y.1 < S i) (OrderQueue.orders q)).
  { eapply Forall_impl; [|exact Hlt]. simpl. lia. }
  assert (Hfst : forall f, Forall (fun j => j < i)
            (map fst (List.filter f (OrderQueue.orders q)))).
  { intros f. apply Forall_map. by apply Forall_filter_bool. }
  destruct c as [x| |].
  - unfold stamps_ok. rewrite (enqueue_orders (stamped isVIP) q (i, x) Hok).
    assert (En : notVIP (stamped isVIP) (i, x) = negb (stamped isVIP (i, x))) by done.
    destruct (stamped isVIP (i, x)) eqn:E.
    + rewrite !filter_app. simpl. rewrite En, E. simpl.
      rewrite filter_idem, filter_VIP_notVIP, filter_notVIP_VIP, filter_idem.
      rewrite ?app_nil_r. simpl. rewrite map_app. simpl.
      split_and!; [by apply StronglySorted_snoc | done |].
      destruct Hok as [_ Hp]. rewrite Hp in Hlt'.
      apply Forall_app in Hlt' as [H1 H2].
      apply Forall_app. split; [done|]. constructor; [simpl; lia | done].
    + rewrite !filter_app. simpl. rewrite En, E. simpl.
      rewrite ?app_nil_r. simpl. rewrite map_app. simpl.
      split_and!; [done | by apply StronglySorted_snoc |].
      apply Forall_app. split; [done|]. constructor; [simpl; lia | constructor].
  - unfold stamps_ok. destruct (dequeue_orders (stamped isVIP) q Hok) as [-> ->].
    split_and!.
    + by apply StronglySorted_map_tail.
    + destruct (List.filter (stamped isVIP) (OrderQueue.orders q)); [|done].
      by apply StronglySorted_map_tail.
    + unfold OrderQueue.dequeue.
      destruct (OrderQueue.orders q) as [|y l] eqn:El; simpl; [by rewrite El|].
      by inversion Hlt'.
  - repeat split; simpl; constructor.
Qed.

Lemma stamps_ok_run cs : forall i q,
  queue_ok (stamped isVIP) q -> stamps_ok isVIP i q ->
  stamps_ok isVIP (i + length cs) (queue_run (stamped isVIP) (stamp_calls i cs) q).
Proof.
  induction cs as [|c cs IH]; intros i q Hok Hs.
  - simpl. by rewrite Nat.add_0_r.
  - pose proof (stamps_ok_call c i q Hok Hs) as Hc.
    replace (i + length (c :: cs)) with (S i + length cs) by (simpl; lia).
    destruct c as [x| |]; simpl; apply IH; try done;
      auto using queue_ok_enqueue, queue_ok_dequeue, queue_ok_clear.
Qed.
End QueueStamps.

(** C1. Starting from a fresh queue and after any sequence of enqueue,
    dequeue and clear calls, the snapshot [getAll] is the queued VIP orders
    followed by the queued normal orders, each class in the order in which
    its orders were enqueued: it is the concatenation of the two sequences
    of the two-sequence reading, and, with every enqueue stamped by the
    position of its call, the stamps increase along the VIP part and along
    the normal part.  A further VIP enqueue inserts right after the last
    queued VIP order, a further normal enqueue appends at the end. *)
Theorem queue_snapshot_ordering {A} (isVIP : A -> bool) (cs : list (QueueCall A)) :
  let q := queue_run isVIP cs OrderQueue.new in
  let s := TwoSeq.run isVIP cs TwoSeq.new in
  let qs := queue_run (stamped isVIP) (stamp_calls 0 cs) OrderQueue.new in
  OrderQueue.getAll q
    = List.filter isVIP (OrderQueue.getAll q)
        ++ List.filter (notVIP isVIP) (OrderQueue.getAll q)
  /\ OrderQueue.getAll q = TwoSeq.snapshot s
  /\ TwoSeq.high s = List.filter isVIP (OrderQueue.getAll q)
  /\ TwoSeq.normal s = List.filter (notVIP isVIP) (OrderQueue.getAll q)
  /\ map snd (OrderQueue.getAll qs) = OrderQueue.getAll q
  /\ StronglySorted lt
       (map fst (List.filter (stamped isVIP) (OrderQueue.getAll qs)))
  /\ StronglySorted lt
       (map fst (List.filter (notVIP (stamped isVIP)) (OrderQueue.getAll qs)))
  /\ forall x,
       OrderQueue.getAll (OrderQueue.enqueue isVIP x q)
         = if isVIP x
           then List.filter isVIP (OrderQueue.getAll q) ++ x
                  :: List.filter (notVIP isVIP) (OrderQueue.getAll q)
           else OrderQueue.getAll q ++ [x].
Proof.
  intros q s qs. unfold OrderQueue.getAll, TwoSeq.snapshot.
  pose proof (queue_ok_run isVIP cs) as Hok. fold q in Hok.
  destruct (queue_refines_TwoSeq isVIP cs) as [Hh Hn]. fold q s in Hh, Hn.
  pose proof (erase_run isVIP cs 0 OrderQueue.new) as He. fold qs in He.
  assert (Hs : stamps_ok isVIP (0 + length cs) qs).
  { apply stamps_ok_run; [apply queue_ok_new|]. repeat split; constructor. }
  destruct Hs as (Hsv & Hsn & _).
  split_and!; try done.
  - apply Hok.
  - rewrite Hh, Hn. apply Hok.
  - change (OrderQueue.orders (erase qs) = OrderQueue.orders q). by rewrite He.
  - intros x. by apply enqueue_orders.
Qed.

(* Scenario 1: NORMAL 1001, HIGH 1002, NORMAL 1003 *)
Example queue_scenario_1 :
  OrderQueue.getAll
    (queue_run Order.isVIP
       [CallEnqueue (Order.new 1001 NORMAL); CallEnqueue (Order.new 1002 VIP);
        CallEnqueue (Order.new 1003 NORMAL)] OrderQueue.new)
  = [Order.new 1002 VIP; Order.new 1001 NORMAL; Order.new 1003 NORMAL].
Proof. reflexivity. Qed.

(* Scenario 2: HIGH 1001, HIGH 1002 *)
Example queue_scenario_2 :
  OrderQueue.getAll
    (queue_run Order.isVIP
       [CallEnqueue (Order.new 1001 VIP); CallEnqueue (Order.new 1002 VIP)]
       OrderQueue.new)
  = [Order.new 1001 VIP; Order.new 1002 VIP].
Proof. reflexivity. Qed.

(** ** Heap updates and outcomes *)

Lemma upd_eq {B} (f : nat -> B) k v : upd f k v k = v.
Proof. unfold upd. by rewrite Nat.eqb_refl. Qed.

Lemma upd_ne {B} (f : nat -> B) k k' v : k' <> k -> upd f k v k' = f k'.
Proof. intros H. unfold upd. by apply Nat.eqb_neq in H as ->. Qed.

Ltac upd_cases k k' :=
  destruct (Nat.eq_dec k' k) as [->|?];
  [rewrite ?upd_eq in * | rewrite ?upd_ne in * by done].

Section Outcomes.
Variable logger : list Msg -> Msg -> bool.

Lemma post_bind {A B} (m : M A) (k : A -> M B) w Q E :
  post logger (m w) (fun a w' => post logger (k a w') Q E) E ->
  post logger (bind m k w) Q E.
Proof. unfold bind, post. by destruct (m w). Qed.

Lemma post_impl {A} (r : Res A) (Q Q' : A -> World -> Prop) (E E' : World -> Prop) :
  post logger r Q E ->
  (forall a w, Q a w -> Q' a w) -> (forall w, E w -> E' w) ->
  post logger r Q' E'.
Proof.
  destruct r; simpl; intros H HQ HE; [by apply HQ|].
  destruct H as (? & ? & ?). split_and!; [done | done | by apply HE].
Qed.

Lemma post_log m w (Q : unit -> World -> Prop) (E : World -> Prop) :
  Q tt (set_logged (fun l => l ++ [m]) w) ->
  E (set_logged (fun l => l ++ [m]) w) ->
  post logger (log logger m w) Q E.
Proof.
  intros HQ HE. unfold log. destruct (logger (logged w) m) eqn:El; simpl; [|done].
  split_and!; [done | | done]. intros Hq. by rewrite Hq in El.
Qed.

Lemma post_quiet {A} (r : Res A) Q E :
  quiet logger -> post logger r Q E -> exists a w, r = Ok a w /\ Q a w.
Proof. intros Hq. destruct r; simpl; [eauto | by intros (_ & Hn & _)]. Qed.

Lemma post_Ok {A} (r : Res A) Q E a w :
  post logger r Q E -> r = Ok a w -> Q a w.
Proof. by intros H ->. Qed.
End Outcomes.

(** ** Well-formedness is insensitive to the log *)

Lemma WF_set_logged f w : WF w -> WF (set_logged f w).
Proof. intros []; by constructor. Qed.

Lemma mono_refl w : mono w w.
Proof. by repeat split. Qed.

Lemma mono_trans w1 w2 w3 :
  (forall b, b ∈ bots w2 -> b < botAlloc w2) ->
  mono w1 w2 -> mono w2 w3 -> mono w1 w3.
Proof.
  intros Hp (Ha & Hb & Hc & Hd) (Ha' & Hb' & Hc' & Hd'). repeat split; [lia | | lia |].
  - intros b Hlt Hn. apply Hb'; [lia | by apply Hb].
  - intros h Hlt Hn. apply Hd'; [lia | by apply Hd].
Qed.

Lemma WF_new : WF new_OrderController.
Proof.
  constructor; simpl; try done; try (intros r Hr; by apply elem_of_nil in Hr);
    try (intros; lia).
  - constructor.
  - intros b. split; split; simpl; try done; by intros [? ?].
Qed.

(** ** Lists of references *)

Lemma queue_ok_ext {A} (f g : A -> bool) (q : OrderQueue.t A) :
  (forall x, x ∈ OrderQueue.orders q -> f x = g x) ->
  queue_ok f q -> queue_ok g q.
Proof.
  intros Hfg [Hc Hp].
  assert (Hf : forall h h' : A -> bool,
             (forall x, x ∈ OrderQueue.orders q -> h x = h' x) ->
             List.filter h (OrderQueue.orders q) = List.filter h' (OrderQueue.orders q)).
  { intros h h' Hh. apply filter_ext_in. intros x Hx. apply Hh.
    by apply list_elem_of_In. }
  split.
  - by rewrite <- (Hf f g).
  - rewrite <- (Hf f g), <- (Hf (notVIP f) (notVIP g)); [done | | done].
    intros x Hx. unfold notVIP. by rewrite Hfg.
Qed.

Lemma sorted_NoDup (l : list nat) : StronglySorted lt l -> NoDup l.
Proof.
  induction 1 as [|x l Hs IH Hx]; constructor; [|done].
  intros Hin. rewrite Forall_forall in Hx. apply list_elem_of_In in Hin.
  specialize (Hx _ Hin). lia.
Qed.

Lemma sorted_snoc (l : list nat) (n : nat) :
  StronglySorted lt l -> (forall x, x ∈ l -> x < n) -> StronglySorted lt (l ++ [n]).
Proof.
  intros Hs Hl. apply StronglySorted_snoc; [done|].
  apply Forall_forall. intros x Hx. apply Hl. by apply list_elem_of_In.
Qed.

Lemma sorted_removelast (l : list nat) :
  StronglySorted lt l -> StronglySorted lt (removelast l).
Proof.
  destruct l as [|x l _] using rev_ind; [done|].
  rewrite removelast_last. intros Hs.
  induction l as [|y l IH]; [constructor|].
  simpl in Hs. inversion Hs as [|? ? Hs' Hy]; subst. constructor; [by apply IH|].
  apply Forall_app in Hy. apply Hy.
Qed.

Lemma omap_ext_in {B C} (f g : B -> option C) (l : list B) :
  (forall x, x ∈ l -> f x = g x) -> omap f l = omap g l.
Proof.
  induction l as [|x l IH]; intros H; [done|].
  assert (IH' : omap f l = omap g l).
  { apply IH. intros y Hy. apply H. by right. }
  cbn. rewrite (H x) by left. by rewrite IH'.
Qed.

(* setting the slot of one bot of a duplicate-free pool *)
Lemma omap_set_slot (f g : bref -> option oref) (l : list bref) b r :
  NoDup l -> b ∈ l -> f b = None -> g b = Some r ->
  (forall b', b' <> b -> g b' = f b') ->
  omap g l ≡ₚ r :: omap f l.
Proof.
  intros Hnd Hin Hf Hg Hother.
  induction l as [|x l IH]; [by apply elem_of_nil in Hin|].
  apply list.NoDup_cons in Hnd as [Hx Hnd].
  destruct (decide (x = b)) as [->|Hne].
  - simpl. rewrite Hf, Hg. f_equiv.
    rewrite (omap_ext_in g f); [done|].
    intros y Hy. apply Hother. by intros ->.
  - apply elem_of_cons in Hin as [->|Hin]; [done|].
    simpl. rewrite (Hother x Hne). destruct (f x) as [r'|].
    + rewrite (IH Hnd Hin). apply perm_swap.
    + by apply IH.
Qed.

Lemma filter_ext_elem {B} (f g : B -> bool) (l : list B) :
  (forall x, x ∈ l -> f x = g x) -> List.filter f l = List.filter g l.
Proof.
  intros H. apply filter_ext_in. intros x Hx. apply H. by apply list_elem_of_In.
Qed.

Lemma elem_of_filter_bool {B} (f : B -> bool) (l : list B) x :
  x ∈ List.filter f l <-> x ∈ l /\ f x = true.
Proof. rewrite !list_elem_of_In. apply filter_In. Qed.

Lemma filter_nil_iff {B} (f : B -> bool) (l : list B) :
  List.filter f l = [] <-> forall x, x ∈ l -> f x = false.
Proof.
  split.
  - intros H x Hx. destruct (f x) eqn:E; [|done].
    assert (Hin : x ∈ List.filter f l) by by apply elem_of_filter_bool.
    rewrite H in Hin. by apply elem_of_nil in Hin.
  - intros H. induction l as [|x l IH]; [done|]. simpl.
    rewrite (H x) by left. apply IH. intros y Hy. apply H. by right.
Qed.

Lemma omap_singleton_None {B C} (f : B -> option C) (x : B) :
  f x = None -> omap f [x] = [].
Proof. intros H. cbn. by rewrite H. Qed.

Lemma omap_singleton_Some {B C} (f : B -> option C) (x : B) (y : C) :
  f x = Some y -> omap f [x] = [y].
Proof. intros H. cbn. by rewrite H. Qed.

(* moving one order between the three places *)
Lemma perm_complete (P H H1 C S : list oref) (r : oref) :
  P ++ H ++ C ≡ₚ S -> H ≡ₚ r :: H1 -> P ++ H1 ++ (C ++ [r]) ≡ₚ S.
Proof.
  intros HS HH. rewrite <- HS, HH.
  rewrite <- (Permutation_cons_append C r). f_equiv. symmetry. apply Permutation_middle.
Qed.

Lemma perm_preempt (P P1 H H1 C S : list oref) (r : oref) :
  P ++ H ++ C ≡ₚ S -> P1 ≡ₚ r :: P -> H = H1 ++ [r] -> P1 ++ H1 ++ C ≡ₚ S.
Proof.
  intros HS HP ->. rewrite <- HS, HP.
  rewrite <- (Permutation_cons_append H1 r). simpl. apply Permutation_middle.
Qed.

(** ** The worlds at the logger calls are those the code produces *)

Lemma create_eq ty w :
  (w <- get ;;
   order <- new_Order (nextOrderNumber w) ty ;;
   modify (set_nextOrderNumber (S (nextOrderNumber w))) ;;
   modify (set_orders (fun l => l ++ [order])) ;;
   queue_enqueue order ;; ret order) w
  = Ok (orderAlloc w) (after_create ty w).
Proof. reflexivity. Qed.

Lemma addBot_eq w :
  (w <- get ;;
   bot <- new_Bot (nextBotId w) ;;
   modify (set_nextBotId (S (nextBotId w))) ;;
   modify (set_bots (fun l => l ++ [bot])) ;; ret bot) w
  = Ok (botAlloc w) (after_addBot w).
Proof. reflexivity. Qed.

Lemma bind_eq b r q' w :
  OrderQueue.orders (orderQueue w) = r :: q' ->
  Bot.status (botHeap w b) = BOT_STATUS.IDLE ->
  (order <- queue_dequeue ;; Bot_startProcessing b order ;; ret order) w
  = Ok (Some r) (after_bind b r w).
Proof.
  intros Hq Hidle.
  unfold after_bind, bind, queue_dequeue, OrderQueue.dequeue. rewrite Hq.
  unfold Bot_startProcessing, bind, get. simpl. by rewrite Hidle.
Qed.

Lemma stop_eq b r h w :
  Bot.processingTimeout (botHeap w b) = Some h ->
  Bot.currentOrder (botHeap w b) = Some r ->
  Bot_stopProcessing b w = Ok (Some r) (after_stop b r h w).
Proof.
  intros Ht Hc. unfold Bot_stopProcessing, bind, get. rewrite Ht. simpl.
  rewrite upd_eq. simpl. by rewrite Hc.
Qed.

Lemma stop_idle_eq b w :
  Bot.processingTimeout (botHeap w b) = None ->
  Bot.currentOrder (botHeap w b) = None ->
  Bot_stopProcessing b w = Ok None w.
Proof.
  intros Ht Hc. unfold Bot_stopProcessing, bind, get. rewrite Ht. simpl.
  by rewrite Hc.
Qed.

Lemma complete_eq logger b r h w :
  timers w h = Some b ->
  Bot.processingTimeout (botHeap w b) = Some h ->
  Bot.currentOrder (botHeap w b) = Some r ->
  timerFires logger h w
  = (w0 <- get ;;
     log logger
       (MsgCompleted (Bot.botId (botHeap w0 b)) (Order.type (orderHeap w0 r))
          (Order.orderNumber (orderHeap w0 r)) (Order.status (orderHeap w0 r))) ;;
     _assignOrdersToIdleBots logger ;;
     w1 <- get ;;
     (if OrderQueue.isEmpty (orderQueue w1) && isIdle_at w1 b
      then log logger (MsgNowIdle (Bot.botId (botHeap w1 b)))
      else ret tt)) (after_complete b r h w).
Proof.
  intros Hh Ht Hc.
  match goal with |- _ = ?R => set (rhs := R) end.
  unfold timerFires, bind, get. rewrite Hh. unfold Bot_completeOrder, bind, get. simpl.
  rewrite Ht. simpl. rewrite upd_eq. simpl. by rewrite Hc.
Qed.

(** ** Consequences of well-formedness *)

Lemma bot_consistent_cases (b : Bot.t) :
  bot_consistent b ->
  (Bot.status b = BOT_STATUS.IDLE /\ Bot.currentOrder b = None
     /\ Bot.processingTimeout b = None)
  \/ (Bot.status b = BOT_STATUS.PROCESSING
      /\ exists r h, Bot.currentOrder b = Some r /\ Bot.processingTimeout b = Some h).
Proof.
  intros [[H1 H2] [H3 H4]].
  destruct (Bot.status b) eqn:Es.
  - left. split; [done|].
    destruct (Bot.currentOrder b) eqn:Ec.
    + assert (Hs : BOT_STATUS.IDLE = BOT_STATUS.PROCESSING) by (apply H2; eauto).
      discriminate.
    + split; [done|]. destruct (Bot.processingTimeout b) eqn:Et; [|done].
      assert (Hs : is_Some (@None oref)) by (apply H4; eauto). by destruct Hs.
  - right. split; [done|].
    destruct (H1 eq_refl) as [r Hr]. rewrite Hr in *.
    destruct H3 as [h Hh]; eauto.
Qed.

Lemma bot_consistent_idle id : bot_consistent (Bot.mk id BOT_STATUS.IDLE None None).
Proof. split; split; simpl; try done; by intros [? ?]. Qed.

Lemma bot_consistent_processing id r h :
  bot_consistent (Bot.mk id BOT_STATUS.PROCESSING (Some r) (Some h)).
Proof. split; split; simpl; eauto. Qed.

Section WFFacts.
Variable w : World.
Hypothesis Hwf : WF w.

Lemma WF_idle b :
  Bot.status (botHeap w b) = BOT_STATUS.IDLE ->
  Bot.currentOrder (botHeap w b) = None
  /\ Bot.processingTimeout (botHeap w b) = None.
Proof.
  intros Hs. destruct (bot_consistent_cases _ (wf_bot w Hwf b)) as [(_ & ? & ?)|[Hp _]];
    [done | congruence].
Qed.

Lemma WF_processing b :
  Bot.status (botHeap w b) = BOT_STATUS.PROCESSING ->
  exists r h, Bot.currentOrder (botHeap w b) = Some r
              /\ Bot.processingTimeout (botHeap w b) = Some h
              /\ timers w h = Some b /\ b ∈ bots w.
Proof.
  intros Hs. destruct (bot_consistent_cases _ (wf_bot w Hwf b)) as [(Hi & _)|[_ (r & h & Hr & Hh)]];
    [congruence|].
  exists r, h. split_and!; [done | done | by apply (wf_timers w Hwf) |].
  destruct (decide (b ∈ bots w)) as [|Hn]; [done|].
  apply (wf_retired w Hwf) in Hn. congruence.
Qed.

Lemma WF_timer h b :
  timers w h = Some b ->
  b ∈ bots w /\ Bot.status (botHeap w b) = BOT_STATUS.PROCESSING
  /\ Bot.processingTimeout (botHeap w b) = Some h
  /\ exists r, Bot.currentOrder (botHeap w b) = Some r.
Proof.
  intros Ht. apply (wf_timers w Hwf) in Ht.
  destruct (bot_consistent_cases _ (wf_bot w Hwf b)) as [(_ & _ & Hn)|[Hp (r & h' & Hr & Hh)]];
    [congruence|].
  destruct (WF_processing b Hp) as (r' & h'' & ? & ? & ? & ?).
  split_and!; eauto.
Qed.

Lemma elem_of_held r :
  r ∈ heldOrders w <->
  exists b, b ∈ bots w /\ Bot.currentOrder (botHeap w b) = Some r.
Proof. unfold heldOrders. apply list_elem_of_omap. Qed.

Lemma WF_NoDup_places :
  NoDup (getPendingOrders w ++ heldOrders w ++ completedOrders w).
Proof. rewrite (wf_places w Hwf). apply NoDup_seq. Qed.

Lemma WF_NoDup_bots : NoDup (bots w).
Proof. apply sorted_NoDup, (wf_pool_sorted w Hwf). Qed.

Lemma WF_place_alloc r :
  r ∈ getPendingOrders w ++ heldOrders w ++ completedOrders w <-> r < orderAlloc w.
Proof. rewrite (wf_places w Hwf), elem_of_seq. lia. Qed.

Lemma WF_pending_alloc r : r ∈ getPendingOrders w -> r < orderAlloc w.
Proof. intros H. apply WF_place_alloc. apply elem_of_app. by left. Qed.

Lemma WF_pending_not_held r : r ∈ getPendingOrders w -> r ∉ heldOrders w.
Proof.
  intros Hp Hh. apply (wf_pending w Hwf) in Hp. apply (wf_held w Hwf) in Hh.
  congruence.
Qed.

Lemma WF_pending_not_completed r : r ∈ getPendingOrders w -> r ∉ completedOrders w.
Proof.
  intros Hp Hh. apply (wf_pending w Hwf) in Hp. apply (wf_completed w Hwf) in Hh.
  congruence.
Qed.

Lemma WF_held_not_completed r : r ∈ heldOrders w -> r ∉ completedOrders w.
Proof.
  intros Hp Hh. apply (wf_held w Hwf) in Hp. apply (wf_completed w Hwf) in Hh.
  congruence.
Qed.

Lemma WF_NoDup_pending : NoDup (getPendingOrders w).
Proof. pose proof WF_NoDup_places as H. by apply list.NoDup_app in H as [? _]. Qed.

Lemma WF_NoDup_held : NoDup (heldOrders w).
Proof.
  pose proof WF_NoDup_places as H. apply list.NoDup_app in H as (_ & _ & H).
  by apply list.NoDup_app in H as [? _].
Qed.

Lemma WF_current_order b r :
  Bot.currentOrder (botHeap w b) = Some r -> b ∈ bots w /\ r ∈ heldOrders w.
Proof.
  intros Hc.
  assert (Hp : Bot.status (botHeap w b) = BOT_STATUS.PROCESSING).
  { apply (wf_bot w Hwf b). by rewrite Hc. }
  destruct (WF_processing b Hp) as (_ & _ & _ & _ & _ & Hin).
  split; [done|]. apply elem_of_held. eauto.
Qed.

(* two bots never hold the same order *)
Lemma WF_held_inj b1 b2 r :
  Bot.currentOrder (botHeap w b1) = Some r ->
  Bot.currentOrder (botHeap w b2) = Some r -> b1 = b2.
Proof.
  intros H1 H2.
  destruct (WF_current_order _ _ H1) as [Hb1 _].
  destruct (WF_current_order _ _ H2) as [Hb2 _].
  pose proof WF_NoDup_held as Hnd. pose proof WF_NoDup_bots as Hndb.
  unfold heldOrders in Hnd. clear Hwf.
  induction (bots w) as [|x l IH]; [by apply elem_of_nil in Hb1|].
  apply list.NoDup_cons in Hndb as [Hx Hndb]. cbn in Hnd.
  destruct (decide (x = b1)) as [E1|Hn1]; destruct (decide (x = b2)) as [E2|Hn2];
    [congruence | subst x | subst x |].
  - rewrite H1 in Hnd. apply list.NoDup_cons in Hnd as [Hr _]. exfalso. apply Hr.
    apply list_elem_of_omap. exists b2. split; [|done].
    apply elem_of_cons in Hb2 as [|]; done.
  - rewrite H2 in Hnd. apply list.NoDup_cons in Hnd as [Hr _]. exfalso. apply Hr.
    apply list_elem_of_omap. exists b1. split; [|done].
    apply elem_of_cons in Hb1 as [|]; done.
  - apply elem_of_cons in Hb1 as [|Hb1]; [done|].
    apply elem_of_cons in Hb2 as [|Hb2]; [done|].
    apply IH; try done. destruct (Bot.currentOrder (botHeap w x)); [|done].
    by apply list.NoDup_cons in Hnd as [_ ?].
Qed.
End WFFacts.

(** ** One turn of the assignment loop preserves well-formedness *)

Lemma isVIP_at_ext w w' :
  (forall r, Order.type (orderHeap w' r) = Order.type (orderHeap w r)) ->
  forall r, isVIP_at w' r = isVIP_at w r.
Proof. intros H r. unfold isVIP_at, Order.isVIP. by rewrite H. Qed.

Section AfterBind.
Variables (b : bref) (r : oref) (q' : list oref) (w : World).
Hypothesis Hwf : WF w.
Hypothesis Hq : OrderQueue.orders (orderQueue w) = r :: q'.
Hypothesis Hb : b ∈ bots w.
Hypothesis Hidle : Bot.status (botHeap w b) = BOT_STATUS.IDLE.

Local Abbreviation w1 := (after_bind b r w).

Lemma after_bind_pending : getPendingOrders w1 = q'.
Proof.
  unfold after_bind, getPendingOrders, OrderQueue.getAll, OrderQueue.dequeue.
  simpl. by rewrite Hq.
Qed.

Lemma after_bind_bot :
  botHeap w1 b
  = Bot.mk (Bot.botId (botHeap w b)) BOT_STATUS.PROCESSING (Some r)
      (Some (timerAlloc w)).
Proof. unfold after_bind. simpl. by rewrite !upd_eq. Qed.

Lemma after_bind_bots b' : b' <> b -> botHeap w1 b' = botHeap w b'.
Proof. intros Hn. unfold after_bind. simpl. by rewrite !upd_ne. Qed.

Lemma after_bind_order :
  orderHeap w1 r = Order.startProcessing (orderHeap w r).
Proof. unfold after_bind. simpl. by rewrite !upd_eq. Qed.

Lemma after_bind_orders r' : r' <> r -> orderHeap w1 r' = orderHeap w r'.
Proof. intros Hn. unfold after_bind. simpl. by rewrite !upd_ne. Qed.

Lemma after_bind_type r' : Order.type (orderHeap w1 r') = Order.type (orderHeap w r').
Proof.
  destruct (decide (r' = r)) as [->|Hn];
    [by rewrite after_bind_order | by rewrite after_bind_orders].
Qed.

Lemma after_bind_number r' :
  Order.orderNumber (orderHeap w1 r') = Order.orderNumber (orderHeap w r').
Proof.
  destruct (decide (r' = r)) as [->|Hn];
    [by rewrite after_bind_order | by rewrite after_bind_orders].
Qed.

Lemma after_bind_botId b' :
  Bot.botId (botHeap w1 b') = Bot.botId (botHeap w b').
Proof.
  destruct (decide (b' = b)) as [->|Hn];
    [by rewrite after_bind_bot | by rewrite after_bind_bots].
Qed.

Lemma after_bind_timer : timers w1 (timerAlloc w) = Some b.
Proof. unfold after_bind. simpl. by rewrite upd_eq. Qed.

Lemma after_bind_timers h : h <> timerAlloc w -> timers w1 h = timers w h.
Proof. intros Hn. unfold after_bind. simpl. by rewrite upd_ne. Qed.

Lemma after_bind_r_pending : r ∈ getPendingOrders w.
Proof. unfold getPendingOrders, OrderQueue.getAll. rewrite Hq. by left. Qed.

Lemma after_bind_pool : bots w1 = bots w.
Proof. reflexivity. Qed.

Lemma after_bind_completed : completedOrders w1 = completedOrders w.
Proof. reflexivity. Qed.

Lemma after_bind_orderAlloc : orderAlloc w1 = orderAlloc w.
Proof. reflexivity. Qed.

Lemma after_bind_timerAlloc : timerAlloc w1 = S (timerAlloc w).
Proof. reflexivity. Qed.

Lemma after_bind_held : heldOrders w1 ≡ₚ r :: heldOrders w.
Proof.
  unfold heldOrders. rewrite after_bind_pool.
  apply (omap_set_slot (fun b' => Bot.currentOrder (botHeap w b'))
           (fun b' => Bot.currentOrder (botHeap w1 b')) (bots w) b r).
  - by apply WF_NoDup_bots.
  - done.
  - by apply WF_idle.
  - by rewrite after_bind_bot.
  - intros b' Hn. by rewrite after_bind_bots.
Qed.

Lemma after_bind_r_fresh : r ∉ q'.
Proof.
  pose proof (WF_NoDup_pending w Hwf) as Hnd.
  unfold getPendingOrders, OrderQueue.getAll in Hnd. rewrite Hq in Hnd.
  by apply list.NoDup_cons in Hnd as [? _].
Qed.

Lemma WF_after_bind : WF w1.
Proof.
  pose proof after_bind_r_pending as Hrp.
  assert (Hq'p : forall r', r' ∈ q' -> r' ∈ getPendingOrders w).
  { intros r' Hr'. unfold getPendingOrders, OrderQueue.getAll. rewrite Hq. by right. }
  constructor.
  - (* queue *)
    apply (queue_ok_ext (isVIP_at w)).
    { intros x _. symmetry. apply isVIP_at_ext, after_bind_type. }
    apply queue_ok_dequeue, Hwf.
  - apply (wf_orders w Hwf).
  - rewrite after_bind_pending, after_bind_held.
    rewrite after_bind_completed, after_bind_orderAlloc.
    rewrite <- (wf_places w Hwf). unfold getPendingOrders, OrderQueue.getAll.
    rewrite Hq. simpl. symmetry. apply Permutation_middle.
  - rewrite after_bind_pending. intros r' Hr'.
    rewrite after_bind_orders; [by apply (wf_pending w Hwf), Hq'p|].
    intros ->. by apply after_bind_r_fresh.
  - intros r' Hr'. rewrite after_bind_held in Hr'.
    apply elem_of_cons in Hr' as [->|Hr']; [by rewrite after_bind_order|].
    rewrite after_bind_orders; [by apply (wf_held w Hwf)|].
    intros ->. by apply (WF_pending_not_held w Hwf r).
  - intros r' Hr'. rewrite after_bind_completed in Hr'.
    rewrite after_bind_orders; [by apply (wf_completed w Hwf)|].
    intros ->. by apply (WF_pending_not_completed w Hwf r).
  - apply (wf_pool_sorted w Hwf).
  - apply (wf_pool_alloc w Hwf).
  - intros b'. destruct (decide (b' = b)) as [->|Hn].
    + rewrite after_bind_bot. apply bot_consistent_processing.
    + rewrite after_bind_bots by done. apply (wf_bot w Hwf).
  - intros b' Hb'. rewrite after_bind_pool in Hb'.
    rewrite after_bind_bots; [by apply (wf_retired w Hwf)|]. by intros ->.
  - intros h b'.
    destruct (WF_idle w Hwf b Hidle) as [_ Hto].
    destruct (decide (h = timerAlloc w)) as [->|Hh].
    + rewrite after_bind_timer. destruct (decide (b' = b)) as [->|Hn].
      * by rewrite after_bind_bot.
      * rewrite after_bind_bots by done. split; [congruence|].
        intros Ht. apply (wf_timers w Hwf) in Ht.
        assert (Hlt : timerAlloc w < timerAlloc w); [|lia].
        apply (wf_timer_alloc w Hwf). by rewrite Ht.
    + rewrite after_bind_timers by done. destruct (decide (b' = b)) as [->|Hn].
      * rewrite after_bind_bot. simpl. split; [|congruence].
        intros Ht. apply (wf_timers w Hwf) in Ht. congruence.
      * rewrite after_bind_bots by done. apply (wf_timers w Hwf).
  - intros h Hh. rewrite after_bind_timerAlloc.
    destruct (decide (h = timerAlloc w)) as [->|Hn]; [lia|].
    rewrite after_bind_timers in Hh by done.
    apply (wf_timer_alloc w Hwf) in Hh. lia.
  - intros r' Hr'. rewrite after_bind_number. by apply (wf_order_ids w Hwf).
  - apply (wf_next_order w Hwf).
  - intros b' Hb'. rewrite after_bind_botId. by apply (wf_bot_ids w Hwf).
  - apply (wf_next_bot w Hwf).
Qed.

Lemma mono_after_bind : mono w w1.
Proof.
  unfold mono. split_and!.
  - done.
  - by intros b' _ Hn.
  - simpl. lia.
  - intros h Hlt Hn. rewrite after_bind_timers; [done | lia].
Qed.
End AfterBind.

(** ** Creating an order preserves well-formedness *)

Lemma enqueue_perm {A} (f : A -> bool) (q : OrderQueue.t A) (x : A) :
  queue_ok f q ->
  OrderQueue.orders (OrderQueue.enqueue f x q) ≡ₚ x :: OrderQueue.orders q.
Proof.
  intros Hok. rewrite (enqueue_orders f q x Hok). destruct (f x).
  - destruct Hok as [_ Hp]. rewrite Hp at 3. symmetry. apply Permutation_middle.
  - symmetry. apply Permutation_cons_append.
Qed.

Section AfterCreate.
Variables (ty : ORDER_TYPES) (w : World).
Hypothesis Hwf : WF w.

Local Abbreviation w1 := (after_create ty w).
Local Abbreviation r := (orderAlloc w).

Lemma after_create_order : orderHeap w1 r = Order.new (nextOrderNumber w) ty.
Proof. unfold after_create. simpl. by rewrite upd_eq. Qed.

Lemma after_create_orders r' : r' <> r -> orderHeap w1 r' = orderHeap w r'.
Proof. intros Hn. unfold after_create. simpl. by rewrite upd_ne. Qed.

Lemma after_create_queue_ok : queue_ok (isVIP_at w1) (orderQueue w).
Proof.
  apply (queue_ok_ext (isVIP_at w)); [|apply Hwf].
  intros x Hx. unfold isVIP_at. rewrite after_create_orders; [done|].
  apply (WF_pending_alloc w Hwf) in Hx. lia.
Qed.

Lemma after_create_pending : getPendingOrders w1 ≡ₚ r :: getPendingOrders w.
Proof. apply (enqueue_perm (isVIP_at w1)), after_create_queue_ok. Qed.

Lemma WF_after_create : WF w1.
Proof.
  assert (Hold : forall r', r' < r -> orderHeap w1 r' = orderHeap w r').
  { intros r' Hr'. apply after_create_orders. lia. }
  constructor.
  - apply (queue_ok_enqueue (isVIP_at w1)), after_create_queue_ok.
  - change (orders w1) with (orders w ++ [r]).
    change (orderAlloc w1) with (S r).
    by rewrite seq_S, (wf_orders w Hwf).
  - rewrite after_create_pending.
    change (heldOrders w1) with (heldOrders w).
    change (completedOrders w1) with (completedOrders w).
    change (orderAlloc w1) with (S r).
    rewrite seq_S. simpl. rewrite <- Permutation_cons_append.
    f_equiv. apply (wf_places w Hwf).
  - intros r' Hr'. rewrite after_create_pending in Hr'.
    apply elem_of_cons in Hr' as [->|Hr']; [by rewrite after_create_order|].
    rewrite Hold; [by apply (wf_pending w Hwf)|].
    by apply (WF_pending_alloc w Hwf).
  - intros r' Hr'. change (heldOrders w1) with (heldOrders w) in Hr'.
    rewrite Hold; [by apply (wf_held w Hwf)|].
    apply (WF_place_alloc w Hwf). rewrite !elem_of_app. auto.
  - intros r' Hr'. change (completedOrders w1) with (completedOrders w) in Hr'.
    rewrite Hold; [by apply (wf_completed w Hwf)|].
    apply (WF_place_alloc w Hwf). rewrite !elem_of_app. auto.
  - apply (wf_pool_sorted w Hwf).
  - apply (wf_pool_alloc w Hwf).
  - apply (wf_bot w Hwf).
  - apply (wf_retired w Hwf).
  - apply (wf_timers w Hwf).
  - apply (wf_timer_alloc w Hwf).
  - intros r' Hr'. change (orderAlloc w1) with (S r) in Hr'.
    destruct (decide (r' = r)) as [->|Hn].
    + rewrite after_create_order. simpl. apply (wf_next_order w Hwf).
    + rewrite after_create_orders by done. apply (wf_order_ids w Hwf). lia.
  - change (nextOrderNumber w1) with (S (nextOrderNumber w)).
    change (orderAlloc w1) with (S r). rewrite (wf_next_order w Hwf). lia.
  - apply (wf_bot_ids w Hwf).
  - apply (wf_next_bot w Hwf).
Qed.

Lemma mono_after_create : mono w w1.
Proof. unfold mono. by split_and!. Qed.
End AfterCreate.

(** ** Adding a bot preserves well-formedness *)

Section AfterAddBot.
Variable w : World.
Hypothesis Hwf : WF w.

Local Abbreviation w1 := (after_addBot w).
Local Abbreviation b := (botAlloc w).

Lemma after_addBot_bot : botHeap w1 b = Bot.new (nextBotId w).
Proof. unfold after_addBot. simpl. by rewrite upd_eq. Qed.

Lemma after_addBot_bots b' : b' <> b -> botHeap w1 b' = botHeap w b'.
Proof. intros Hn. unfold after_addBot. simpl. by rewrite upd_ne. Qed.

Lemma after_addBot_pool b' : b' ∈ bots w -> botHeap w1 b' = botHeap w b'.
Proof.
  intros Hb'. apply after_addBot_bots. apply (wf_pool_alloc w Hwf) in Hb'. lia.
Qed.

Lemma after_addBot_held : heldOrders w1 = heldOrders w.
Proof.
  unfold heldOrders. change (bots w1) with (bots w ++ [b]).
  rewrite omap_app, (omap_singleton_None _ b), app_nil_r;
    [|by rewrite after_addBot_bot].
  apply omap_ext_in. intros b' Hb'. by rewrite after_addBot_pool.
Qed.

Lemma WF_after_addBot : WF w1.
Proof.
  constructor.
  - apply (wf_queue w Hwf).
  - apply (wf_orders w Hwf).
  - rewrite after_addBot_held. apply (wf_places w Hwf).
  - apply (wf_pending w Hwf).
  - rewrite after_addBot_held. apply (wf_held w Hwf).
  - apply (wf_completed w Hwf).
  - change (bots w1) with (bots w ++ [b]).
    apply sorted_snoc; [apply (wf_pool_sorted w Hwf) | apply (wf_pool_alloc w Hwf)].
  - intros b' Hb'. change (bots w1) with (bots w ++ [b]) in Hb'.
    change (botAlloc w1) with (S b).
    apply elem_of_app in Hb' as [Hb'|Hb'].
    + apply (wf_pool_alloc w Hwf) in Hb'. lia.
    + apply list_elem_of_singleton in Hb'. lia.
  - intros b'. destruct (decide (b' = b)) as [->|Hn].
    + rewrite after_addBot_bot. apply bot_consistent_idle.
    + rewrite after_addBot_bots by done. apply (wf_bot w Hwf).
  - intros b' Hb'. change (bots w1) with (bots w ++ [b]) in Hb'.
    destruct (decide (b' = b)) as [->|Hn].
    + by rewrite after_addBot_bot.
    + rewrite after_addBot_bots by done. apply (wf_retired w Hwf).
      intros Hin. apply Hb'. apply elem_of_app. by left.
  - intros h b'. change (timers w1 h) with (timers w h).
    destruct (decide (b' = b)) as [->|Hn].
    + rewrite after_addBot_bot. simpl. split; [|done].
      intros Ht. apply (WF_timer w Hwf) in Ht as [Hin _].
      apply (wf_pool_alloc w Hwf) in Hin. lia.
    + rewrite after_addBot_bots by done. apply (wf_timers w Hwf).
  - apply (wf_timer_alloc w Hwf).
  - apply (wf_order_ids w Hwf).
  - apply (wf_next_order w Hwf).
  - intros b' Hb'. change (botAlloc w1) with (S b) in Hb'.
    destruct (decide (b' = b)) as [->|Hn].
    + rewrite after_addBot_bot. simpl. apply (wf_next_bot w Hwf).
    + rewrite after_addBot_bots by done. apply (wf_bot_ids w Hwf). lia.
  - change (nextBotId w1) with (S (nextBotId w)).
    change (botAlloc w1) with (S b). rewrite (wf_next_bot w Hwf). lia.
Qed.

Lemma mono_after_addBot : mono w w1.
Proof.
  unfold mono. split_and!; [simpl; lia | | done | done].
  intros b' Hlt Hn. change (bots w1) with (bots w ++ [b]).
  intros Hin. apply elem_of_app in Hin as [Hin|Hin]; [done|].
  apply list_elem_of_singleton in Hin. lia.
Qed.
End AfterAddBot.

(** ** Removing the newest bot preserves well-formedness *)

Section AfterRemoveIdle.
Variables (b : bref) (init : list bref) (w : World).
Hypothesis Hwf : WF w.
Hypothesis Hpool : bots w = init ++ [b].
Hypothesis Hidle : Bot.status (botHeap w b) = BOT_STATUS.IDLE.

Local Abbreviation w1 := (set_bots (@removelast bref) w).

Lemma after_pop_bots : bots w1 = init.
Proof. simpl. by rewrite Hpool, removelast_last. Qed.

Lemma after_pop_held : heldOrders w = heldOrders w1.
Proof.
  unfold heldOrders. rewrite after_pop_bots, Hpool, omap_app.
  rewrite (omap_singleton_None _ b), app_nil_r; [done|]. by apply WF_idle.
Qed.

Lemma WF_after_pop : WF w1.
Proof.
  constructor; try apply Hwf.
  - rewrite <- after_pop_held. apply (wf_places w Hwf).
  - rewrite <- after_pop_held. apply (wf_held w Hwf).
  - apply sorted_removelast, Hwf.
  - intros b' Hb'. rewrite after_pop_bots in Hb'. apply (wf_pool_alloc w Hwf).
    rewrite Hpool. apply elem_of_app. by left.
  - intros b' Hb'. rewrite after_pop_bots in Hb'.
    destruct (decide (b' = b)) as [->|Hn]; [done|].
    apply (wf_retired w Hwf). rewrite Hpool. intros Hin.
    apply elem_of_app in Hin as [Hin|Hin]; [done|].
    by apply list_elem_of_singleton in Hin.
Qed.

Lemma mono_after_pop : mono w w1.
Proof.
  unfold mono. split_and!; [done | | done | done].
  intros b' _ Hn. rewrite after_pop_bots. intros Hin. apply Hn.
  rewrite Hpool. apply elem_of_app. by left.
Qed.
End AfterRemoveIdle.

Section AfterPreempt.
Variables (b : bref) (init : list bref) (r : oref) (h : timer) (w : World).
Hypothesis Hwf : WF w.
Hypothesis Hpool : bots w = init ++ [b].
Hypothesis Hto : Bot.processingTimeout (botHeap w b) = Some h.
Hypothesis Hco : Bot.currentOrder (botHeap w b) = Some r.

Local Abbreviation w1 := (after_preempt b r h w).

Lemma after_preempt_bot :
  botHeap w1 b = Bot.mk (Bot.botId (botHeap w b)) BOT_STATUS.IDLE None None.
Proof. unfold after_preempt, after_stop. simpl. by rewrite !upd_eq. Qed.

Lemma after_preempt_bots b' : b' <> b -> botHeap w1 b' = botHeap w b'.
Proof. intros Hn. unfold after_preempt, after_stop. simpl. by rewrite !upd_ne. Qed.

Lemma after_preempt_order :
  orderHeap w1 r = Order.returnToPending (orderHeap w r).
Proof. unfold after_preempt, after_stop. simpl. by rewrite !upd_eq. Qed.

Lemma after_preempt_orders r' : r' <> r -> orderHeap w1 r' = orderHeap w r'.
Proof. intros Hn. unfold after_preempt, after_stop. simpl. by rewrite !upd_ne. Qed.

Lemma after_preempt_type r' : Order.type (orderHeap w1 r') = Order.type (orderHeap w r').
Proof.
  destruct (decide (r' = r)) as [->|Hn];
    [by rewrite after_preempt_order | by rewrite after_preempt_orders].
Qed.

Lemma after_preempt_number r' :
  Order.orderNumber (orderHeap w1 r') = Order.orderNumber (orderHeap w r').
Proof.
  destruct (decide (r' = r)) as [->|Hn];
    [by rewrite after_preempt_order | by rewrite after_preempt_orders].
Qed.

Lemma after_preempt_botId b' :
  Bot.botId (botHeap w1 b') = Bot.botId (botHeap w b').
Proof.
  destruct (decide (b' = b)) as [->|Hn];
    [by rewrite after_preempt_bot | by rewrite after_preempt_bots].
Qed.

Lemma after_preempt_timer : timers w1 h = None.
Proof. unfold after_preempt, after_stop. simpl. by rewrite upd_eq. Qed.

Lemma after_preempt_timers h' : h' <> h -> timers w1 h' = timers w h'.
Proof. intros Hn. unfold after_preempt, after_stop. simpl. by rewrite upd_ne. Qed.

Lemma after_preempt_completed : completedOrders w1 = completedOrders w.
Proof. reflexivity. Qed.

Lemma after_preempt_orderAlloc : orderAlloc w1 = orderAlloc w.
Proof. reflexivity. Qed.

Lemma after_preempt_timerAlloc : timerAlloc w1 = timerAlloc w.
Proof. reflexivity. Qed.

Lemma after_preempt_queue :
  orderQueue w1 = OrderQueue.enqueue (isVIP_at w1) r (orderQueue w).
Proof. reflexivity. Qed.

Lemma after_preempt_pool : bots w1 = init.
Proof. unfold after_preempt, after_stop. simpl. by rewrite Hpool, removelast_last. Qed.

Lemma after_preempt_b_fresh : b ∉ init.
Proof.
  pose proof (WF_NoDup_bots w Hwf) as Hnd. rewrite Hpool in Hnd.
  apply list.NoDup_app in Hnd as (_ & Hnd & _). intros Hin.
  apply (Hnd b Hin). by left.
Qed.

Lemma after_preempt_queue_ok : queue_ok (isVIP_at w1) (orderQueue w).
Proof.
  apply (queue_ok_ext (isVIP_at w)); [|apply Hwf].
  intros x _. symmetry. apply isVIP_at_ext, after_preempt_type.
Qed.

Lemma after_preempt_pending_eq :
  getPendingOrders w1
  = OrderQueue.orders (OrderQueue.enqueue (isVIP_at w) r (orderQueue w)).
Proof.
  unfold getPendingOrders, OrderQueue.getAll.
  rewrite after_preempt_queue.
  unfold OrderQueue.enqueue.
  by rewrite (isVIP_at_ext w w1 after_preempt_type r).
Qed.

Lemma after_preempt_pending : getPendingOrders w1 ≡ₚ r :: getPendingOrders w.
Proof. rewrite after_preempt_pending_eq. apply enqueue_perm, Hwf. Qed.

Lemma after_preempt_held : heldOrders w = heldOrders w1 ++ [r].
Proof.
  unfold heldOrders. rewrite after_preempt_pool, Hpool, omap_app.
  rewrite (omap_singleton_Some _ b r) by done. f_equal.
  apply omap_ext_in. intros b' Hb'. rewrite after_preempt_bots; [done|].
  intros ->. by apply after_preempt_b_fresh.
Qed.

Lemma after_preempt_r_held : r ∈ heldOrders w.
Proof. rewrite after_preempt_held. apply elem_of_app. right. by left. Qed.

Lemma after_preempt_r_fresh : r ∉ heldOrders w1.
Proof.
  pose proof (WF_NoDup_held w Hwf) as Hnd. rewrite after_preempt_held in Hnd.
  apply list.NoDup_app in Hnd as (_ & Hnd & _). intros Hin.
  apply (Hnd r Hin). by left.
Qed.

Lemma WF_after_preempt : WF w1.
Proof.
  pose proof after_preempt_r_held as Hrh.
  constructor.
  - apply (queue_ok_enqueue (isVIP_at w1)), after_preempt_queue_ok.
  - apply (wf_orders w Hwf).
  - rewrite after_preempt_completed, after_preempt_orderAlloc.
    apply (perm_preempt (getPendingOrders w) (getPendingOrders w1)
             (heldOrders w) (heldOrders w1) (completedOrders w) _ r).
    + apply (wf_places w Hwf).
    + apply after_preempt_pending.
    + apply after_preempt_held.
  - intros r' Hr'. rewrite after_preempt_pending in Hr'.
    apply elem_of_cons in Hr' as [->|Hr']; [by rewrite after_preempt_order|].
    rewrite after_preempt_orders; [by apply (wf_pending w Hwf)|].
    intros ->. by apply (WF_pending_not_held w Hwf r).
  - intros r' Hr'. rewrite after_preempt_orders.
    + apply (wf_held w Hwf). rewrite after_preempt_held. apply elem_of_app. by left.
    + intros ->. by apply after_preempt_r_fresh.
  - intros r' Hr'. rewrite after_preempt_completed in Hr'.
    rewrite after_preempt_orders; [by apply (wf_completed w Hwf)|].
    intros ->. by apply (WF_held_not_completed w Hwf r).
  - rewrite after_preempt_pool.
    pose proof (sorted_removelast _ (wf_pool_sorted w Hwf)) as Hs.
    by rewrite Hpool, removelast_last in Hs.
  - intros b' Hb'. rewrite after_preempt_pool in Hb'. apply (wf_pool_alloc w Hwf).
    rewrite Hpool. apply elem_of_app. by left.
  - intros b'. destruct (decide (b' = b)) as [->|Hn].
    + rewrite after_preempt_bot. apply bot_consistent_idle.
    + rewrite after_preempt_bots by done. apply (wf_bot w Hwf).
  - intros b' Hb'. rewrite after_preempt_pool in Hb'.
    destruct (decide (b' = b)) as [->|Hn]; [by rewrite after_preempt_bot|].
    rewrite after_preempt_bots by done.
    apply (wf_retired w Hwf). rewrite Hpool. intros Hin.
    apply elem_of_app in Hin as [Hin|Hin]; [done|].
    by apply list_elem_of_singleton in Hin.
  - intros h' b'. destruct (decide (h' = h)) as [->|Hh].
    + rewrite after_preempt_timer. destruct (decide (b' = b)) as [->|Hn].
      * by rewrite after_preempt_bot.
      * rewrite after_preempt_bots by done. split; [done|].
        intros Ht. apply (wf_timers w Hwf) in Ht.
        apply (wf_timers w Hwf) in Hto. congruence.
    + rewrite after_preempt_timers by done. destruct (decide (b' = b)) as [->|Hn].
      * rewrite after_preempt_bot. simpl. split; [|done].
        intros Ht. apply (wf_timers w Hwf) in Ht. congruence.
      * rewrite after_preempt_bots by done. apply (wf_timers w Hwf).
  - intros h' Hh'. rewrite after_preempt_timerAlloc.
    destruct (decide (h' = h)) as [->|Hn]; [by rewrite after_preempt_timer in Hh'|].
    rewrite after_preempt_timers in Hh' by done. by apply (wf_timer_alloc w Hwf).
  - intros r' Hr'. rewrite after_preempt_number. by apply (wf_order_ids w Hwf).
  - apply (wf_next_order w Hwf).
  - intros b' Hb'. rewrite after_preempt_botId. by apply (wf_bot_ids w Hwf).
  - apply (wf_next_bot w Hwf).
Qed.

Lemma mono_after_preempt : mono w w1.
Proof.
  unfold mono. split_and!; [done | | done |].
  - intros b' _ Hn. rewrite after_preempt_pool. intros Hin. apply Hn.
    rewrite Hpool. apply elem_of_app. by left.
  - intros h' _ Hn. destruct (decide (h' = h)) as [->|Hne];
      [apply after_preempt_timer | by rewrite after_preempt_timers].
Qed.
End AfterPreempt.

(** ** A completion preserves well-formedness *)

Section AfterComplete.
Variables (b : bref) (r : oref) (h : timer) (w : World).
Hypothesis Hwf : WF w.
Hypothesis Hfire : timers w h = Some b.
Hypothesis Hco : Bot.currentOrder (botHeap w b) = Some r.

Local Abbreviation w1 := (after_complete b r h w).

Lemma after_complete_bot :
  botHeap w1 b = Bot.mk (Bot.botId (botHeap w b)) BOT_STATUS.IDLE None None.
Proof. unfold after_complete. simpl. by rewrite !upd_eq. Qed.

Lemma after_complete_bots b' : b' <> b -> botHeap w1 b' = botHeap w b'.
Proof. intros Hn. unfold after_complete. simpl. by rewrite !upd_ne. Qed.

Lemma after_complete_order : orderHeap w1 r = Order.complete (orderHeap w r).
Proof. unfold after_complete. simpl. by rewrite !upd_eq. Qed.

Lemma after_complete_orders r' : r' <> r -> orderHeap w1 r' = orderHeap w r'.
Proof. intros Hn. unfold after_complete. simpl. by rewrite !upd_ne. Qed.

Lemma after_complete_type r' : Order.type (orderHeap w1 r') = Order.type (orderHeap w r').
Proof.
  destruct (decide (r' = r)) as [->|Hn];
    [by rewrite after_complete_order | by rewrite after_complete_orders].
Qed.

Lemma after_complete_number r' :
  Order.orderNumber (orderHeap w1 r') = Order.orderNumber (orderHeap w r').
Proof.
  destruct (decide (r' = r)) as [->|Hn];
    [by rewrite after_complete_order | by rewrite after_complete_orders].
Qed.

Lemma after_complete_botId b' :
  Bot.botId (botHeap w1 b') = Bot.botId (botHeap w b').
Proof.
  destruct (decide (b' = b)) as [->|Hn];
    [by rewrite after_complete_bot | by rewrite after_complete_bots].
Qed.

Lemma after_complete_timer : timers w1 h = None.
Proof. unfold after_complete. simpl. by rewrite upd_eq. Qed.

Lemma after_complete_timers h' : h' <> h -> timers w1 h' = timers w h'.
Proof. intros Hn. unfold after_complete. simpl. by rewrite !upd_ne. Qed.

Lemma after_complete_pool : bots w1 = bots w.
Proof. reflexivity. Qed.

Lemma after_complete_pending : getPendingOrders w1 = getPendingOrders w.
Proof. reflexivity. Qed.

Lemma after_complete_completed : completedOrders w1 = completedOrders w ++ [r].
Proof. reflexivity. Qed.

Lemma after_complete_orderAlloc : orderAlloc w1 = orderAlloc w.
Proof. reflexivity. Qed.

Lemma after_complete_timerAlloc : timerAlloc w1 = timerAlloc w.
Proof. reflexivity. Qed.

Lemma after_complete_b_pool : b ∈ bots w.
Proof. by destruct (WF_timer w Hwf h b Hfire). Qed.

Lemma after_complete_held : heldOrders w ≡ₚ r :: heldOrders w1.
Proof.
  unfold heldOrders. rewrite after_complete_pool.
  apply (omap_set_slot (fun b' => Bot.currentOrder (botHeap w1 b'))
           (fun b' => Bot.currentOrder (botHeap w b')) (bots w) b r).
  - by apply WF_NoDup_bots.
  - apply after_complete_b_pool.
  - by rewrite after_complete_bot.
  - done.
  - intros b' Hn. by rewrite after_complete_bots.
Qed.

Lemma after_complete_r_held : r ∈ heldOrders w.
Proof. rewrite after_complete_held. by left. Qed.

Lemma after_complete_r_fresh : r ∉ heldOrders w1.
Proof.
  pose proof (WF_NoDup_held w Hwf) as Hnd. rewrite after_complete_held in Hnd.
  by apply list.NoDup_cons in Hnd as [? _].
Qed.

Lemma WF_after_complete : WF w1.
Proof.
  pose proof after_complete_r_held as Hrh.
  destruct (WF_timer w Hwf h b Hfire) as (Hb & Hst & Hto & _).
  constructor.
  - apply (queue_ok_ext (isVIP_at w)); [|apply Hwf].
    intros x _. symmetry. apply isVIP_at_ext, after_complete_type.
  - apply (wf_orders w Hwf).
  - rewrite after_complete_pending, after_complete_completed,
      after_complete_orderAlloc.
    apply (perm_complete (getPendingOrders w) (heldOrders w) (heldOrders w1)
             (completedOrders w) _ r).
    + apply (wf_places w Hwf).
    + apply after_complete_held.
  - intros r' Hr'. rewrite after_complete_pending in Hr'.
    rewrite after_complete_orders; [by apply (wf_pending w Hwf)|].
    intros ->. by apply (WF_pending_not_held w Hwf r).
  - intros r' Hr'. rewrite after_complete_orders.
    + apply (wf_held w Hwf). rewrite after_complete_held. by right.
    + intros ->. by apply after_complete_r_fresh.
  - intros r' Hr'. rewrite after_complete_completed in Hr'.
    apply elem_of_app in Hr' as [Hr'|Hr'].
    + rewrite after_complete_orders; [by apply (wf_completed w Hwf)|].
      intros ->. by apply (WF_held_not_completed w Hwf r).
    + apply list_elem_of_singleton in Hr' as ->. by rewrite after_complete_order.
  - apply (wf_pool_sorted w Hwf).
  - apply (wf_pool_alloc w Hwf).
  - intros b'. destruct (decide (b' = b)) as [->|Hn].
    + rewrite after_complete_bot. apply bot_consistent_idle.
    + rewrite after_complete_bots by done. apply (wf_bot w Hwf).
  - intros b' Hb'. rewrite after_complete_pool in Hb'.
    rewrite after_complete_bots; [by apply (wf_retired w Hwf)|]. by intros ->.
  - intros h' b'. destruct (decide (h' = h)) as [->|Hh].
    + rewrite after_complete_timer. destruct (decide (b' = b)) as [->|Hn].
      * by rewrite after_complete_bot.
      * rewrite after_complete_bots by done. split; [done|].
        intros Ht. apply (wf_timers w Hwf) in Ht. congruence.
    + rewrite after_complete_timers by done. destruct (decide (b' = b)) as [->|Hn].
      * rewrite after_complete_bot. simpl. split; [|done].
        intros Ht. apply (wf_timers w Hwf) in Ht. congruence.
      * rewrite after_complete_bots by done. apply (wf_timers w Hwf).
  - intros h' Hh'. rewrite after_complete_timerAlloc.
    destruct (decide (h' = h)) as [->|Hn]; [by rewrite after_complete_timer in Hh'|].
    rewrite after_complete_timers in Hh' by done. by apply (wf_timer_alloc w Hwf).
  - intros r' Hr'. rewrite after_complete_number. by apply (wf_order_ids w Hwf).
  - apply (wf_next_order w Hwf).
  - intros b' Hb'. rewrite after_complete_botId. by apply (wf_bot_ids w Hwf).
  - apply (wf_next_bot w Hwf).
Qed.

Lemma mono_after_complete : mono w w1.
Proof.
  unfold mono. split_and!; [done | done | done |].
  intros h' _ Hn. destruct (decide (h' = h)) as [->|Hne];
    [apply after_complete_timer | by rewrite after_complete_timers].
Qed.
End AfterComplete.

(** ** The assignment pass *)

Lemma Assigned_nil w : Assigned [] w w.
Proof.
  constructor; try done.
  - intros b r H. by apply elem_of_nil in H.
  - intros b r H. by apply elem_of_nil in H.
  - simpl. by rewrite app_nil_r.
Qed.

Section AssignStep.
Variables (b : bref) (r : oref) (q' : list oref) (w : World).
Hypothesis Hwf : WF w.
Hypothesis Hq : OrderQueue.orders (orderQueue w) = r :: q'.
Hypothesis Hb : b ∈ bots w.
Hypothesis Hidle : Bot.status (botHeap w b) = BOT_STATUS.IDLE.

(* the world at the end of one turn of the loop *)
Local Abbreviation w1 :=
  (set_logged (fun l => l ++ [picked_up w (b, r)]) (after_bind b r w)).

Lemma Assigned_cons bs w' :
  b ∉ bs.*1 -> r ∉ bs.*2 ->
  length bs <= length q' ->
  Assigned bs w1 w' -> Assigned ((b, r) :: bs) w w'.
Proof.
  intros Hbf Hrf Hlen [].
  assert (Hpend : getPendingOrders w1 = q') by by apply after_bind_pending.
  constructor.
  - rewrite as_pending0, Hpend. unfold getPendingOrders, OrderQueue.getAll.
    by rewrite Hq.
  - intros b' r' Hin. apply elem_of_cons in Hin as [[= -> ->]|Hin]; [|by eauto].
    rewrite as_bots0 by done.
    change (botHeap w1 b) with (botHeap (after_bind b r w) b).
    by rewrite after_bind_bot.
  - intros b' r' Hin. apply elem_of_cons in Hin as [[= -> ->]|Hin].
    + rewrite as_orders0 by done. apply after_bind_order.
    + rewrite (as_order0 _ _ Hin).
      change (orderHeap w1 r') with (orderHeap (after_bind b r w) r').
      rewrite after_bind_orders; [done|]. intros ->. apply Hrf.
      apply list_elem_of_fmap. by exists (b', r).
  - intros b' Hb'. rewrite fmap_cons, not_elem_of_cons in Hb'.
    destruct Hb' as [Hne Hb']. rewrite as_bots0 by done.
    by apply after_bind_bots.
  - intros r' Hr'. rewrite fmap_cons, not_elem_of_cons in Hr'.
    destruct Hr' as [Hne Hr']. rewrite as_orders0 by done.
    by apply after_bind_orders.
  - intros b'. rewrite as_botId0. apply after_bind_botId.
  - intros r'. rewrite as_type0. apply after_bind_type.
  - intros r'. rewrite as_number0. apply after_bind_number.
  - intros h Hh. rewrite as_old_timers0 by (simpl; lia).
    apply after_bind_timers. lia.
  - by rewrite as_pool0.
  - by rewrite as_created0.
  - by rewrite as_completed0.
  - by rewrite as_orderAlloc0.
  - by rewrite as_botAlloc0.
  - by rewrite as_nextOrderNumber0.
  - by rewrite as_nextBotId0.
  - rewrite as_logged0.
    change (logged w1) with (logged w ++ [picked_up w (b, r)]).
    rewrite <- app_assoc. cbn [app List.map]. do 2 f_equal.
    apply map_ext. intros [b' r']. unfold picked_up. cbn [fst snd].
    f_equal; [apply (after_bind_botId b r w b') | apply (after_bind_type b r w r')
             | apply (after_bind_number b r w r')].
Qed.

(* the loop, unfolded once *)
Lemma assign_loop_cons logger rest :
  assign_loop logger (b :: rest) w
  = (log logger (picked_up w (b, r)) ;; assign_loop logger rest) (after_bind b r w).
Proof.
  match goal with |- _ = ?R => set (rhs := R) end.
  simpl. unfold bind at 1, get. unfold OrderQueue.isEmpty. rewrite Hq.
  pose proof (bind_eq b r q' w Hq Hidle) as He. unfold bind in He at 1 2.
  unfold bind at 1 2.
  destruct (queue_dequeue w) as [o w0|e w0]; [|discriminate].
  destruct (Bot_startProcessing b o w0) as [[] w2|e w2]; [|discriminate].
  injection He as -> ->. unfold bind at 1 2, get. subst rhs.
  rewrite after_bind_botId, after_bind_type, after_bind_number, after_bind_order.
  reflexivity.
Qed.
End AssignStep.

Lemma assign_loop_nil_queue logger idle w :
  OrderQueue.orders (orderQueue w) = [] ->
  assign_loop logger idle w = Ok tt w.
Proof.
  intros Hq. destruct idle; [done|]. simpl. unfold bind, get, OrderQueue.isEmpty.
  by rewrite Hq.
Qed.

Lemma assign_loop_post logger idle : forall w,
  WF w -> NoDup idle ->
  (forall b, b ∈ idle -> b ∈ bots w /\ Bot.status (botHeap w b) = BOT_STATUS.IDLE) ->
  post logger (assign_loop logger idle w)
    (fun _ w' => WF w' /\ mono w w' /\ Assigned (zip idle (getPendingOrders w)) w w')
    (fun w' => WF w' /\ mono w w').
Proof.
  induction idle as [|b rest IH]; intros w Hwf Hnd Hidle.
  { simpl. split_and!; [done | apply mono_refl | apply Assigned_nil]. }
  destruct (OrderQueue.orders (orderQueue w)) as [|r q'] eqn:Hq.
  { rewrite assign_loop_nil_queue by done. simpl.
    split_and!; [done | apply mono_refl |].
    unfold getPendingOrders, OrderQueue.getAll. rewrite Hq.
    replace (zip (b :: rest) []) with (@nil (bref * oref)) by done.
    apply Assigned_nil. }
  destruct (Hidle b) as [Hb Hbi]; [by left|].
  apply list.NoDup_cons in Hnd as [Hbr Hnd].
  rewrite (assign_loop_cons b r q' w Hq Hbi).
  pose proof (WF_after_bind b r q' w Hwf Hq Hb Hbi) as Hwf1.
  pose proof (mono_after_bind b r w) as Hm1.
  apply post_bind, post_log; [|split; [by apply WF_set_logged | done]].
  set (w1 := set_logged _ _).
  assert (Hwf1' : WF w1) by by apply WF_set_logged.
  eapply post_impl; [apply (IH w1 Hwf1' Hnd)| |].
  - intros b' Hb'. destruct (Hidle b') as [Hin Hst]; [by right|].
    split; [done|]. change (botHeap w1 b') with (botHeap (after_bind b r w) b').
    rewrite after_bind_bots; [done|]. by intros ->.
  - intros [] w' (Hwf' & Hm' & Has). split_and!; [done | |].
    + eapply mono_trans; [apply (wf_pool_alloc w1 Hwf1') | exact Hm1 | exact Hm'].
    + change (getPendingOrders w1) with (getPendingOrders (after_bind b r w)) in Has.
      rewrite (after_bind_pending b r q' w Hq) in Has.
      unfold getPendingOrders at 1, OrderQueue.getAll. rewrite Hq.
      change (zip (b :: rest) (r :: q')) with ((b, r) :: zip rest q').
      apply (Assigned_cons b r q' w Hq); try done.
      * intros Hin. apply Hbr. apply list_elem_of_fmap in Hin as [[b1 r1] [-> Hin]].
        by apply elem_of_zip_l in Hin.
      * intros Hin. apply (after_bind_r_fresh r q' w Hwf Hq).
        apply list_elem_of_fmap in Hin as [[b1 r1] [-> Hin]].
        by apply elem_of_zip_r in Hin.
      * rewrite length_zip_with. lia.
  - intros w' [Hwf' Hm']. split; [done|].
    eapply mono_trans; [apply (wf_pool_alloc w1 Hwf1') | exact Hm1 | exact Hm'].
Qed.

Lemma zip_covers {B C} (l : list B) (k : list C) x :
  x ∈ l -> length l <= length k -> exists y, (x, y) ∈ zip l k.
Proof.
  revert k. induction l as [|a l IH]; intros k Hx Hlen; [by apply elem_of_nil in Hx|].
  destruct k as [|c k]; [simpl in Hlen; lia|].
  apply elem_of_cons in Hx as [->|Hx].
  - exists c. by left.
  - destruct (IH k Hx) as [y Hy]; [simpl in Hlen; lia|]. exists y. by right.
Qed.

Lemma idleBots_NoDup w : WF w -> NoDup (idleBots w).
Proof.
  intros Hwf. unfold idleBots. apply NoDup_ListNoDup, List.NoDup_filter.
  apply NoDup_ListNoDup. by apply WF_NoDup_bots.
Qed.

Lemma elem_of_idleBots w b :
  b ∈ idleBots w <-> b ∈ bots w /\ Bot.status (botHeap w b) = BOT_STATUS.IDLE.
Proof.
  unfold idleBots. rewrite elem_of_filter_bool. unfold isIdle_at, Bot.isIdle.
  destruct (Bot.status (botHeap w b)); intuition congruence.
Qed.

Lemma isEmpty_true {A} (q : OrderQueue.t A) :
  OrderQueue.isEmpty q = true <-> OrderQueue.orders q = [].
Proof. unfold OrderQueue.isEmpty. by destruct (OrderQueue.orders q). Qed.

Lemma length_zero_iff_nil' {A} (l : list A) : (length l =? 0) = true <-> l = [].
Proof. destruct l; simpl; split; done. Qed.

(* the bindings leave no idle bot or no pending order *)
Lemma Assigned_Saturated w w' :
  WF w -> Assigned (bindings w) w w' -> Saturated w'.
Proof.
  intros Hwf Has. unfold Saturated.
  destruct (decide (length (idleBots w) <= length (getPendingOrders w))) as [Hle|Hgt].
  - right. apply filter_nil_iff. intros b Hb. rewrite (as_pool _ _ _ Has) in Hb.
    unfold isIdle_at, Bot.isIdle.
    destruct (Bot.status (botHeap w b)) eqn:Es.
    + assert (Hi : b ∈ idleBots w) by by apply elem_of_idleBots.
      destruct (zip_covers _ _ b Hi Hle) as [r Hr].
      by destruct (as_bot _ _ _ Has b r Hr) as [-> _].
    + rewrite (as_bots _ _ _ Has), Es; [done|].
      intros Hin. apply list_elem_of_fmap in Hin as [[b1 r1] [-> Hin]].
      apply elem_of_zip_l, elem_of_idleBots in Hin as [_ Hin]. simpl in *. congruence.
  - left. rewrite (as_pending _ _ _ Has). apply drop_ge.
    unfold bindings. rewrite length_zip_with. lia.
Qed.

Lemma assign_post logger w :
  WF w ->
  post logger (_assignOrdersToIdleBots logger w)
    (fun _ w' => WF w' /\ mono w w' /\ Assigned (bindings w) w w' /\ Saturated w')
    (fun w' => WF w' /\ mono w w').
Proof.
  intros Hwf. unfold _assignOrdersToIdleBots, bind, get.
  fold (idleBots w).
  destruct ((length (idleBots w) =? 0) || OrderQueue.isEmpty (orderQueue w)) eqn:E.
  - simpl. assert (Hb : bindings w = []).
    { unfold bindings. apply orb_true_iff in E as [E|E].
      - apply length_zero_iff_nil' in E. by rewrite E.
      - apply isEmpty_true in E. unfold getPendingOrders, OrderQueue.getAll.
        rewrite E. by destruct (idleBots w). }
    assert (Has : Assigned (bindings w) w w) by (rewrite Hb; apply Assigned_nil).
    split_and!; [done | apply mono_refl | done | by apply (Assigned_Saturated w)].
  - eapply post_impl; [apply assign_loop_post; [done | by apply idleBots_NoDup |] | |].
    + intros b Hb. by apply elem_of_idleBots.
    + intros [] w' (Hwf' & Hm & Has). split_and!; try done.
      by apply (Assigned_Saturated w).
    + done.
Qed.

(** ** The public operations *)

Section Operations.
Variable logger : list Msg -> Msg -> bool.

(** *** _createOrder *)

Lemma createOrder_unfold ty w :
  _createOrder logger ty w
  = (log logger (MsgCreated ty (nextOrderNumber w) ORDER_STATUS.PENDING) ;;
     _assignOrdersToIdleBots logger ;;
     ret (orderAlloc w)) (after_create ty w).
Proof.
  transitivity
    ((w0 <- get ;;
      log logger (MsgCreated ty (Order.orderNumber (orderHeap w0 (orderAlloc w)))
                    (Order.status (orderHeap w0 (orderAlloc w)))) ;;
      _assignOrdersToIdleBots logger ;;
      ret (orderAlloc w)) (after_create ty w)); [reflexivity|].
  unfold bind at 1, get. by rewrite (after_create_order ty w).
Qed.

Lemma createOrder_post ty w :
  WF w ->
  post logger (_createOrder logger ty w)
    (fun r w' =>
       let w1 := set_logged
                   (fun l => l ++ [MsgCreated ty (nextOrderNumber w) ORDER_STATUS.PENDING])
                   (after_create ty w) in
       r = orderAlloc w /\ WF w' /\ mono w w' /\ Saturated w'
       /\ Assigned (bindings w1) w1 w')
    (fun w' => WF w' /\ mono w w').
Proof.
  intros Hwf. rewrite createOrder_unfold.
  pose proof (WF_after_create ty w Hwf) as Hwf1.
  pose proof (mono_after_create ty w) as Hm1.
  apply post_bind, post_log; [|split; [by apply WF_set_logged | done]].
  set (w1 := set_logged _ _).
  assert (Hwf1' : WF w1) by by apply WF_set_logged.
  apply post_bind. eapply post_impl; [apply (assign_post logger w1 Hwf1')| |].
  - intros [] w' (Hwf' & Hm' & Has & Hsat). simpl.
    split_and!; try done.
    all: eapply mono_trans; [apply (wf_pool_alloc w1 Hwf1') | exact Hm1 | exact Hm'].
  - intros w' [Hwf' Hm']. split; [done|].
    eapply mono_trans; [apply (wf_pool_alloc w1 Hwf1') | exact Hm1 | exact Hm'].
Qed.

(** *** addBot *)

Lemma addBot_unfold w :
  addBot logger w
  = (log logger (MsgBotCreated (nextBotId w)) ;;
     _assignOrdersToIdleBots logger ;;
     ret (botAlloc w)) (after_addBot w).
Proof.
  transitivity
    ((w0 <- get ;;
      log logger (MsgBotCreated (Bot.botId (botHeap w0 (botAlloc w)))) ;;
      _assignOrdersToIdleBots logger ;;
      ret (botAlloc w)) (after_addBot w)); [reflexivity|].
  unfold bind at 1, get. by rewrite (after_addBot_bot w).
Qed.

Lemma addBot_post w :
  WF w ->
  post logger (addBot logger w)
    (fun b w' =>
       let w1 := set_logged (fun l => l ++ [MsgBotCreated (nextBotId w)])
                   (after_addBot w) in
       b = botAlloc w /\ WF w' /\ mono w w' /\ Saturated w'
       /\ Assigned (bindings w1) w1 w')
    (fun w' => WF w' /\ mono w w').
Proof.
  intros Hwf. rewrite addBot_unfold.
  pose proof (WF_after_addBot w Hwf) as Hwf1.
  pose proof (mono_after_addBot w) as Hm1.
  apply post_bind, post_log; [|split; [by apply WF_set_logged | done]].
  set (w1 := set_logged _ _).
  assert (Hwf1' : WF w1) by by apply WF_set_logged.
  apply post_bind. eapply post_impl; [apply (assign_post logger w1 Hwf1')| |].
  - intros [] w' (Hwf' & Hm' & Has & Hsat). simpl.
    split_and!; try done.
    all: eapply mono_trans; [apply (wf_pool_alloc w1 Hwf1') | exact Hm1 | exact Hm'].
  - intros w' [Hwf' Hm']. split; [done|].
    eapply mono_trans; [apply (wf_pool_alloc w1 Hwf1') | exact Hm1 | exact Hm'].
Qed.

(** *** removeBot *)

Lemma removeBot_empty w : bots w = [] -> removeBot logger w = Ok None w.
Proof. intros H. unfold removeBot, bind, get. by rewrite H. Qed.

Lemma removeBot_idle b init w :
  bots w = init ++ [b] ->
  Bot.processingTimeout (botHeap w b) = None ->
  Bot.currentOrder (botHeap w b) = None ->
  removeBot logger w
  = (log logger (MsgDestroyedIdle (Bot.botId (botHeap w b))) ;; ret (Some b))
      (set_bots (@removelast bref) w).
Proof.
  intros Hp Ht Hc. unfold removeBot, bind at 1, get. rewrite Hp, last_snoc.
  unfold bind at 1 2, modify.
  by rewrite (stop_idle_eq b (set_bots (@removelast bref) w) Ht Hc).
Qed.

Lemma removeBot_processing b init r h w :
  bots w = init ++ [b] ->
  Bot.processingTimeout (botHeap w b) = Some h ->
  Bot.currentOrder (botHeap w b) = Some r ->
  removeBot logger w
  = (log logger (MsgDestroyedProcessing (Bot.botId (botHeap w b))
                   (Order.orderNumber (orderHeap w r))) ;;
     _assignOrdersToIdleBots logger ;;
     ret (Some b)) (after_preempt b r h w).
Proof.
  intros Hp Ht Hc.
  transitivity
    ((w0 <- get ;;
      log logger (MsgDestroyedProcessing (Bot.botId (botHeap w0 b))
                    (Order.orderNumber (orderHeap w0 r))) ;;
      _assignOrdersToIdleBots logger ;;
      ret (Some b)) (after_preempt b r h w)).
  - unfold removeBot, bind at 1, get. rewrite Hp, last_snoc.
    unfold bind at 1 2, modify.
    by rewrite (stop_eq b r h (set_bots (@removelast bref) w) Ht Hc).
  - unfold bind at 1, get.
    by rewrite (after_preempt_botId b r h w), (after_preempt_number b r h w).
Qed.

Lemma pool_cases w :
  bots w = [] \/ exists init b, bots w = init ++ [b].
Proof.
  destruct (bots w) as [|x l] using rev_ind; [by left | right; eauto].
Qed.

Lemma Saturated_after_pop b init w :
  WF w -> Saturated w -> bots w = init ++ [b] ->
  Bot.status (botHeap w b) = BOT_STATUS.IDLE ->
  getPendingOrders w = [].
Proof.
  intros Hwf [Hs|Hs] Hp Hi; [done|]. exfalso.
  assert (Hin : b ∈ idleBots w).
  { apply elem_of_idleBots. split; [|done]. rewrite Hp. apply elem_of_app.
    right. by left. }
  rewrite Hs in Hin. by apply elem_of_nil in Hin.
Qed.

Lemma removeBot_post w :
  WF w ->
  post logger (removeBot logger w)
    (fun _ w' => WF w' /\ mono w w' /\ (Saturated w -> Saturated w'))
    (fun w' => WF w' /\ mono w w').
Proof.
  intros Hwf. destruct (pool_cases w) as [He|(init & b & Hp)].
  { rewrite removeBot_empty by done. simpl. split_and!; [done | apply mono_refl | done]. }
  destruct (bot_consistent_cases _ (wf_bot w Hwf b))
    as [(Hst & Hco & Hto)|(Hst & r & h & Hco & Hto)].
  - rewrite (removeBot_idle b init w Hp Hto Hco).
    pose proof (WF_after_pop b init w Hwf Hp Hst) as Hwf1.
    pose proof (mono_after_pop b init w Hp) as Hm1.
    apply post_bind, post_log; [|split; [by apply WF_set_logged | done]].
    simpl. split_and!; [by apply WF_set_logged | done |].
    intros Hsat. left. apply (Saturated_after_pop b init w Hwf Hsat Hp Hst).
  - rewrite (removeBot_processing b init r h w Hp Hto Hco).
    pose proof (WF_after_preempt b init r h w Hwf Hp Hto Hco) as Hwf1.
    pose proof (mono_after_preempt b init r h w Hp) as Hm1.
    apply post_bind, post_log; [|split; [by apply WF_set_logged | done]].
    set (w1 := set_logged _ _).
    assert (Hwf1' : WF w1) by by apply WF_set_logged.
    apply post_bind. eapply post_impl; [apply (assign_post logger w1 Hwf1')| |].
    + intros [] w' (Hwf' & Hm' & Has & Hsat'). simpl.
      split_and!; try done.
      all: eapply mono_trans; [apply (wf_pool_alloc w1 Hwf1') | exact Hm1 | exact Hm'].
    + intros w' [Hwf' Hm']. split; [done|].
      eapply mono_trans; [apply (wf_pool_alloc w1 Hwf1') | exact Hm1 | exact Hm'].
Qed.

(** *** A timer fires *)

Lemma timerFires_none h w : timers w h = None -> timerFires logger h w = Ok tt w.
Proof. intros H. unfold timerFires, bind, get. by rewrite H. Qed.

Lemma timerFires_unfold h b r w :
  WF w -> timers w h = Some b ->
  Bot.currentOrder (botHeap w b) = Some r ->
  timerFires logger h w
  = (log logger
       (MsgCompleted (Bot.botId (botHeap w b)) (Order.type (orderHeap w r))
          (Order.orderNumber (orderHeap w r)) ORDER_STATUS.COMPLETE) ;;
     _assignOrdersToIdleBots logger ;;
     w1 <- get ;;
     (if OrderQueue.isEmpty (orderQueue w1) && isIdle_at w1 b
      then log logger (MsgNowIdle (Bot.botId (botHeap w1 b)))
      else ret tt)) (after_complete b r h w).
Proof.
  intros Hwf Hh Hc. destruct (WF_timer w Hwf h b Hh) as (_ & _ & Ht & _).
  rewrite (complete_eq logger b r h w Hh Ht Hc). unfold bind at 1, get.
  by rewrite (after_complete_botId b r h w), (after_complete_type b r h w),
    (after_complete_number b r h w), (after_complete_order b r h w).
Qed.

Lemma timerFires_post h w :
  WF w ->
  post logger (timerFires logger h w)
    (fun _ w' => WF w' /\ mono w w' /\ (Saturated w -> Saturated w'))
    (fun w' => WF w' /\ mono w w').
Proof.
  intros Hwf. destruct (timers w h) as [b|] eqn:Hh.
  2: { rewrite timerFires_none by done. simpl.
       split_and!; [done | apply mono_refl | done]. }
  destruct (WF_timer w Hwf h b Hh) as (_ & _ & _ & r & Hco).
  rewrite (timerFires_unfold h b r w Hwf Hh Hco).
  pose proof (WF_after_complete b r h w Hwf Hh Hco) as Hwf1.
  pose proof (mono_after_complete b r h w) as Hm1.
  apply post_bind, post_log; [|split; [by apply WF_set_logged | done]].
  set (w1 := set_logged _ _).
  assert (Hwf1' : WF w1) by by apply WF_set_logged.
  apply post_bind. eapply post_impl; [apply (assign_post logger w1 Hwf1')| |].
  - intros [] w' (Hwf' & Hm' & Has & Hsat').
    assert (Hm : mono w w').
    { eapply mono_trans; [apply (wf_pool_alloc w1 Hwf1') | exact Hm1 | exact Hm']. }
    unfold bind, get.
    destruct (OrderQueue.isEmpty (orderQueue w') && isIdle_at w' b).
    + apply post_log; (split_and!; [by apply WF_set_logged | done | done])
                      || (split; [by apply WF_set_logged | done]).
    + simpl. by split_and!.
  - intros w' [Hwf' Hm']. split; [done|].
    eapply mono_trans; [apply (wf_pool_alloc w1 Hwf1') | exact Hm1 | exact Hm'].
Qed.

(** *** Every completed operation keeps the world well-formed and saturated *)

Lemma run_event_post ev w :
  WF w ->
  post logger (run_event logger ev w)
    (fun _ w' => WF w' /\ mono w w' /\ (Saturated w -> Saturated w'))
    (fun w' => WF w' /\ mono w w').
Proof.
  intros Hwf. destruct ev; simpl.
  - apply post_bind. eapply post_impl; [by apply createOrder_post | |]; simpl.
    + intros r w' (_ & ? & ? & ? & _). by split_and!.
    + done.
  - apply post_bind. eapply post_impl; [by apply createOrder_post | |]; simpl.
    + intros r w' (_ & ? & ? & ? & _). by split_and!.
    + done.
  - apply post_bind. eapply post_impl; [by apply addBot_post | |]; simpl.
    + intros r w' (_ & ? & ? & ? & _). by split_and!.
    + done.
  - apply post_bind. eapply post_impl; [by apply removeBot_post | |]; simpl; done.
  - by apply timerFires_post.
Qed.

Lemma Saturated_new : Saturated new_OrderController.
Proof. by left. Qed.

Lemma steps_inv w w' :
  steps logger w w' -> WF w -> Saturated w ->
  WF w' /\ Saturated w' /\ mono w w'.
Proof.
  induction 1 as [w|w w1 ev w2 Hs IH [Hen Hrun]]; intros Hwf Hsat.
  - split_and!; [done | done | apply mono_refl].
  - destruct (IH Hwf Hsat) as (Hwf1 & Hsat1 & Hm1).
    pose proof (run_event_post ev w1 Hwf1) as Hp.
    rewrite Hrun in Hp. simpl in Hp. destruct Hp as (Hwf2 & Hm2 & Hsat2).
    split_and!; [done | by apply Hsat2 |].
    eapply mono_trans; [apply (wf_pool_alloc w1 Hwf1) | exact Hm1 | exact Hm2].
Qed.

Lemma reachable_WF w : reachable logger w -> WF w /\ Saturated w.
Proof.
  intros H. destruct (steps_inv _ _ H WF_new Saturated_new) as (? & ? & _). done.
Qed.

Lemma steps_trans w1 w2 w3 :
  steps logger w1 w2 -> steps logger w2 w3 -> steps logger w1 w3.
Proof.
  intros H12 H23. induction H23 as [|w wa ev wb _ IH Hst]; [done|].
  eapply steps_snoc; [by apply IH | exact Hst].
Qed.
End Operations.

Lemma exec_steps logger evs : forall w w',
  exec logger evs w = Some w' -> steps logger w w'.
Proof.
  induction evs as [|ev evs IH]; intros w w' H; simpl in H.
  - injection H as ->. constructor.
  - destruct (enabledb ev w) eqn:Hen; [|done].
    destruct (run_event logger ev w) as [[] w1|] eqn:Hrun; [|done].
    eapply steps_trans; [|by apply IH].
    eapply steps_snoc; [constructor|]. split; [|done].
    destruct ev; simpl in *; try done. by destruct (timers w h).
Qed.

Lemma exec_reachable logger evs w :
  exec logger evs new_OrderController = Some w -> reachable logger w.
Proof. apply exec_steps. Qed.

Lemma silent_quiet : quiet silent.
Proof. by intros h m. Qed.

(* a world left by an exception is still well-formed *)
Lemma run_events_WF logger evs : forall w,
  WF w -> WF (world_of (run_events logger evs w)).
Proof.
  induction evs as [|ev evs IH]; intros w Hwf; [done|].
  simpl. unfold bind. pose proof (run_event_post logger ev w Hwf) as Hp.
  destruct (run_event logger ev w) as [[] w1|e w1]; simpl in Hp.
  - destruct Hp as (? & _ & ?). by apply IH.
  - simpl. by destruct Hp as (_ & _ & ? & _).
Qed.

Lemma demo_world_reachable : reachable silent demo_world.
Proof. apply (exec_reachable silent demo_events). vm_compute. reflexivity. Qed.

Lemma idle_first_world_reachable : reachable silent idle_first_world.
Proof. apply (exec_reachable silent idle_first_events). vm_compute. reflexivity. Qed.

(** ** The assignment pass, call by call *)

Lemma first_throw_quiet logger l ms : quiet logger -> first_throw logger l ms = None.
Proof.
  intros Hq. revert l. induction ms as [|m ms IH]; intros l; simpl; [done|].
  by rewrite Hq, IH.
Qed.

Lemma elem_of_take_in {B} n (l : list B) x : x ∈ take n l -> x ∈ l.
Proof.
  intros Hin. rewrite <- (take_drop n l). apply elem_of_app. by left.
Qed.

Lemma take_zip_fst {B C} n (l : list B) (k : list C) x :
  x ∈ (take n (zip l k)).*1 -> x ∈ l.
Proof.
  intros Hin. apply list_elem_of_fmap in Hin as [[b1 r1] [-> Hin]].
  apply elem_of_take_in in Hin. by apply elem_of_zip_l in Hin.
Qed.

Lemma take_zip_snd {B C} n (l : list B) (k : list C) y :
  y ∈ (take n (zip l k)).*2 -> y ∈ k.
Proof.
  intros Hin. apply list_elem_of_fmap in Hin as [[b1 r1] [-> Hin]].
  apply elem_of_take_in in Hin. by apply elem_of_zip_r in Hin.
Qed.

Lemma assign_loop_outcome logger idle : forall w,
  WF w -> NoDup idle ->
  (forall b, b ∈ idle -> b ∈ bots w /\ Bot.status (botHeap w b) = BOT_STATUS.IDLE) ->
  match first_throw logger (logged w)
          (map (picked_up w) (zip idle (getPendingOrders w))) with
  | None =>
      exists w', Assigned (zip idle (getPendingOrders w)) w w'
                 /\ assign_loop logger idle w = Ok tt w'
  | Some j =>
      exists w', Assigned (take (S j) (zip idle (getPendingOrders w))) w w'
                 /\ assign_loop logger idle w = Throw LoggerErr w'
  end.
Proof.
  induction idle as [|b rest IH]; intros w Hwf Hnd Hidle.
  { simpl. exists w. split; [apply Assigned_nil | done]. }
  destruct (OrderQueue.orders (orderQueue w)) as [|r q'] eqn:Hq.
  { assert (Hp : getPendingOrders w = []) by exact Hq. rewrite Hp.
    cbn [zip zip_with map first_throw]. exists w. split; [apply Assigned_nil | by apply assign_loop_nil_queue]. }
  assert (Hp : getPendingOrders w = r :: q') by exact Hq. rewrite Hp.
  destruct (Hidle b) as [Hb Hbi]; [by left|].
  apply list.NoDup_cons in Hnd as [Hbr Hnd].
  rewrite (assign_loop_cons b r q' w Hq Hbi).
  pose proof (WF_after_bind b r q' w Hwf Hq Hb Hbi) as Hwf1.
  pose proof (after_bind_r_fresh r q' w Hwf Hq) as Hrf.
  cbn [zip zip_with map first_throw].
  set (w1 := set_logged (fun l => l ++ [picked_up w (b, r)]) (after_bind b r w)).
  assert (Hstep : (log logger (picked_up w (b, r)) ;; assign_loop logger rest)
                    (after_bind b r w)
                  = if logger (logged w) (picked_up w (b, r))
                    then Throw LoggerErr w1 else assign_loop logger rest w1).
  { unfold bind, log.
    assert (Hlg : logged (after_bind b r w) = logged w) by reflexivity.
    rewrite Hlg. by destruct (logger _ _). }
  rewrite Hstep. clear Hstep.
  destruct (logger (logged w) (picked_up w (b, r))) eqn:Hl.
  { exists w1. split; [|reflexivity]. cbn [take].
    apply (Assigned_cons b r q' w Hq);
      [apply not_elem_of_nil | apply not_elem_of_nil | simpl; lia | apply Assigned_nil]. }
  assert (Hwf1' : WF w1) by by apply WF_set_logged.
  assert (Hidle' : forall b', b' ∈ rest ->
            b' ∈ bots w1 /\ Bot.status (botHeap w1 b') = BOT_STATUS.IDLE).
  { intros b' Hb'. destruct (Hidle b') as [Hin Hst]; [by right|].
    split; [done|]. transitivity (Bot.status (botHeap (after_bind b r w) b'));
      [reflexivity|].
    rewrite after_bind_bots; [done|]. by intros ->. }
  pose proof (IH w1 Hwf1' Hnd Hidle') as Hih.
  assert (Hpend : getPendingOrders w1 = q') by apply (after_bind_pending b r q' w Hq).
  assert (Hlog : logged w1 = logged w ++ [picked_up w (b, r)]) by reflexivity.
  assert (Hmap : map (picked_up w1) (zip rest q') = map (picked_up w) (zip rest q')).
  { apply map_ext. intros [b' r']. unfold picked_up. cbn [fst snd].
    f_equal; [apply (after_bind_botId b r w b') | apply (after_bind_type b r w r')
             | apply (after_bind_number b r w r')]. }
  rewrite Hpend, Hlog, Hmap in Hih.
  destruct (first_throw logger (logged w ++ [picked_up w (b, r)])
              (map (picked_up w) (zip rest q'))) as [j|]; cbn [option_map].
  - destruct Hih as (w' & Has & Hrun). exists w'. split; [|exact Hrun].
    change (take (S (S j)) ((b, r) :: zip rest q'))
      with ((b, r) :: take (S j) (zip rest q')).
    apply (Assigned_cons b r q' w Hq); [| | |exact Has].
    + intros Hin. by apply Hbr, (take_zip_fst (S j) rest q').
    + intros Hin. by apply Hrf, (take_zip_snd (S j) rest q').
    + rewrite length_take, length_zip_with. lia.
  - destruct Hih as (w' & Has & Hrun). exists w'. split; [|exact Hrun].
    apply (Assigned_cons b r q' w Hq); [| | |exact Has].
    + intros Hin. apply Hbr. apply list_elem_of_fmap in Hin as [[b1 r1] [-> Hin]].
      by apply elem_of_zip_l in Hin.
    + intros Hin. apply Hrf. apply list_elem_of_fmap in Hin as [[b1 r1] [-> Hin]].
      by apply elem_of_zip_r in Hin.
    + rewrite length_zip_with. lia.
Qed.

Lemma assign_outcome logger w :
  WF w ->
  match first_throw logger (logged w) (map (picked_up w) (bindings w)) with
  | None =>
      exists w', Assigned (bindings w) w w'
                 /\ _assignOrdersToIdleBots logger w = Ok tt w'
  | Some j =>
      exists w', Assigned (take (S j) (bindings w)) w w'
                 /\ _assignOrdersToIdleBots logger w = Throw LoggerErr w'
  end.
Proof.
  intros Hwf. unfold _assignOrdersToIdleBots, bind, get.
  fold (idleBots w).
  destruct ((length (idleBots w) =? 0) || OrderQueue.isEmpty (orderQueue w)) eqn:E.
  - assert (Hb : bindings w = []).
    { unfold bindings. apply orb_true_iff in E as [E|E].
      - apply length_zero_iff_nil' in E. by rewrite E.
      - apply isEmpty_true in E. unfold getPendingOrders, OrderQueue.getAll.
        rewrite E. by destruct (idleBots w). }
    rewrite Hb. simpl. exists w. split; [apply Assigned_nil | done].
  - apply (assign_loop_outcome logger (idleBots w) w Hwf (idleBots_NoDup w Hwf)).
    intros b Hb. by apply elem_of_idleBots.
Qed.

Lemma logs_then_assigns_intro {A} logger (m0 : Msg) (w0 : World) (k : M A) :
  WF w0 ->
  logs_then_assigns logger m0 w0 k
    ((log logger m0 ;; _assignOrdersToIdleBots logger ;; k) w0).
Proof.
  intros Hwf. unfold logs_then_assigns. cbn [first_throw].
  set (w1 := set_logged (fun l => l ++ [m0]) w0).
  assert (Hstep : (log logger m0 ;; _assignOrdersToIdleBots logger ;; k) w0
                  = if logger (logged w0) m0
                    then Throw LoggerErr w1
                    else (_assignOrdersToIdleBots logger ;; k) w1).
  { unfold bind at 1, log. by destruct (logger _ _). }
  rewrite Hstep. clear Hstep.
  destruct (logger (logged w0) m0) eqn:Hl.
  { reflexivity. }
  assert (Hwf1 : WF w1) by by apply WF_set_logged.
  pose proof (assign_outcome logger w1 Hwf1) as Ho.
  assert (Hlog : logged w1 = logged w0 ++ [m0]) by reflexivity.
  rewrite Hlog in Ho.
  destruct (first_throw logger (logged w0 ++ [m0])
              (map (picked_up w1) (bindings w1))) as [j|]; cbn [option_map].
  - destruct Ho as (w' & Has & Hrun). exists w'. split; [exact Has|].
    unfold bind. by rewrite Hrun.
  - destruct Ho as (w' & Has & Hrun). exists w'. split; [exact Has|].
    unfold bind. by rewrite Hrun.
Qed.

(** ** C4: status and location agree *)

(** C4. In every world reached by completed operations: an order created by
    the controller is PENDING iff it is in the pending queue, PROCESSING iff
    it is the current order of a bot of the pool, COMPLETE iff it is in the
    completed list; it is in exactly one of these places (the three lists
    together have no duplicates and contain every created order); and for
    every bot, status PROCESSING, a set current order and a set timer handle
    go together, the handle being that of a pending timer of this bot. *)
Theorem status_matches_location logger w :
  reachable logger w ->
  (forall r, r ∈ orders w ->
     (Order.status (orderHeap w r) = ORDER_STATUS.PENDING
        <-> r ∈ getPendingOrders w)
     /\ (Order.status (orderHeap w r) = ORDER_STATUS.PROCESSING
        <-> exists b, b ∈ bots w /\ Bot.currentOrder (botHeap w b) = Some r)
     /\ (Order.status (orderHeap w r) = ORDER_STATUS.COMPLETE
        <-> r ∈ completedOrders w))
  /\ NoDup (getPendingOrders w ++ heldOrders w ++ completedOrders w)
  /\ (forall r, r ∈ orders w
        <-> r ∈ getPendingOrders w ++ heldOrders w ++ completedOrders w)
  /\ (forall b,
        (Bot.status (botHeap w b) = BOT_STATUS.PROCESSING
           <-> is_Some (Bot.currentOrder (botHeap w b)))
        /\ (is_Some (Bot.currentOrder (botHeap w b))
           <-> is_Some (Bot.processingTimeout (botHeap w b))))
  /\ (forall b h,
        Bot.processingTimeout (botHeap w b) = Some h <-> timers w h = Some b).
Proof.
  intros Hr. destruct (reachable_WF logger w Hr) as [Hwf _].
  assert (Hplace : forall r, r ∈ orders w
            <-> r ∈ getPendingOrders w ++ heldOrders w ++ completedOrders w).
  { intros r. rewrite (wf_orders w Hwf), (WF_place_alloc w Hwf), elem_of_seq. lia. }
  split_and!.
  - intros r Hin. apply Hplace in Hin. rewrite !elem_of_app in Hin.
    rewrite <- (elem_of_held w r).
    pose proof (wf_pending w Hwf r) as Hp.
    pose proof (wf_held w Hwf r) as Hh.
    pose proof (wf_completed w Hwf r) as Hc.
    split_and!; split; auto; intros Hs;
      destruct Hin as [Hin|[Hin|Hin]]; try done;
      first [apply Hp in Hin | apply Hh in Hin | apply Hc in Hin]; congruence.
  - by apply WF_NoDup_places.
  - done.
  - apply (wf_bot w Hwf).
  - intros b h. symmetry. apply (wf_timers w Hwf).
Qed.

(** ** C10: identifiers *)

(** C10. In every world reached by completed operations (creations of
    either class, bot additions and removals, completions, in any order),
    the orders created so far carry, in creation order, the numbers
    STARTING_ORDER_NUMBER, STARTING_ORDER_NUMBER + 1, ... whatever their
    class, the bots created so far carry the ids STARTING_BOT_ID,
    STARTING_BOT_ID + 1, ..., and the two counters are independent: creating
    an order uses and advances only the order counter, adding a bot only the
    bot counter. *)
Theorem ids_strictly_increasing logger w :
  reachable logger w ->
  map (fun r => Order.orderNumber (orderHeap w r)) (orders w)
    = seq STARTING_ORDER_NUMBER (length (orders w))
  /\ nextOrderNumber w = STARTING_ORDER_NUMBER + length (orders w)
  /\ map (fun b => Bot.botId (botHeap w b)) (seq 0 (botAlloc w))
    = seq STARTING_BOT_ID (botAlloc w)
  /\ nextBotId w = STARTING_BOT_ID + botAlloc w
  /\ StronglySorted lt (map (fun b => Bot.botId (botHeap w b)) (bots w))
  /\ (forall ty r w', _createOrder logger ty w = Ok r w' ->
        Order.orderNumber (orderHeap w' r) = nextOrderNumber w
        /\ Order.type (orderHeap w' r) = ty
        /\ orders w' = orders w ++ [r]
        /\ nextOrderNumber w' = S (nextOrderNumber w)
        /\ nextBotId w' = nextBotId w)
  /\ (forall b w', addBot logger w = Ok b w' ->
        Bot.botId (botHeap w' b) = nextBotId w
        /\ bots w' = bots w ++ [b]
        /\ nextBotId w' = S (nextBotId w)
        /\ nextOrderNumber w' = nextOrderNumber w).
Proof.
  intros Hr. destruct (reachable_WF logger w Hr) as [Hwf _].
  assert (Hseq : forall (f : nat -> nat) s n,
            (forall i, i < n -> f i = s + i) -> map f (seq 0 n) = seq s n).
  { intros f s n. revert s f. induction n as [|n IH]; intros s f Hf; [done|].
    rewrite !seq_S, map_app, (IH s f) by (intros; apply Hf; lia).
    simpl. by rewrite Hf by lia. }
  split_and!.
  - rewrite (wf_orders w Hwf), length_seq. apply Hseq, (wf_order_ids w Hwf).
  - by rewrite (wf_next_order w Hwf), (wf_orders w Hwf), length_seq.
  - apply Hseq, (wf_bot_ids w Hwf).
  - apply (wf_next_bot w Hwf).
  - pose proof (wf_pool_sorted w Hwf) as Hs. pose proof (wf_pool_alloc w Hwf) as Ha.
    induction Hs as [|x l Hs IH Hx]; [constructor|]. simpl. constructor.
    + apply IH. intros b Hb. apply Ha. by right.
    + apply Forall_map. rewrite Forall_forall in Hx. apply Forall_forall.
      intros y Hy. rewrite !(wf_bot_ids w Hwf).
      * specialize (Hx y Hy). lia.
      * apply Ha. right. by apply list_elem_of_In.
      * apply Ha. by left.
  - intros ty r w' Hrun. pose proof (createOrder_post logger ty w Hwf) as Hp.
    rewrite Hrun in Hp. simpl in Hp. destruct Hp as (-> & _ & _ & _ & Has).
    rewrite (as_number _ _ _ Has), (as_type _ _ _ Has), (as_created _ _ _ Has),
      (as_nextOrderNumber _ _ _ Has), (as_nextBotId _ _ _ Has).
    split_and!; try done.
    + change (Order.orderNumber (orderHeap (after_create ty w) (orderAlloc w))
              = nextOrderNumber w).
      by rewrite (after_create_order ty w).
    + change (Order.type (orderHeap (after_create ty w) (orderAlloc w)) = ty).
      by rewrite (after_create_order ty w).
  - intros b w' Hrun. pose proof (addBot_post logger w Hwf) as Hp.
    rewrite Hrun in Hp. simpl in Hp. destruct Hp as (-> & _ & _ & _ & Has).
    rewrite (as_botId _ _ _ Has), (as_pool _ _ _ Has),
      (as_nextOrderNumber _ _ _ Has), (as_nextBotId _ _ _ Has).
    split_and!; try done.
    change (Bot.botId (botHeap (after_addBot w) (botAlloc w)) = nextBotId w).
    by rewrite (after_addBot_bot w).
Qed.

Lemma status_matches_location_witness :
  reachable silent demo_world
  /\ NoDup (getPendingOrders demo_world ++ heldOrders demo_world
              ++ completedOrders demo_world)
  /\ (Order.status (orderHeap demo_world 3) = ORDER_STATUS.PENDING
        <-> 3 ∈ getPendingOrders demo_world).
Proof.
  pose proof (status_matches_location silent demo_world demo_world_reachable)
    as (Hst & Hnd & _).
  split_and!; [exact demo_world_reachable | exact Hnd |].
  apply (Hst 3). vm_compute. do 3 right. left.
Defined.

Lemma ids_strictly_increasing_witness :
  reachable silent demo_world
  /\ map (fun r => Order.orderNumber (orderHeap demo_world r)) (orders demo_world)
     = [1001; 1002; 1003; 1004]
  /\ map (fun b => Bot.botId (botHeap demo_world b)) (bots demo_world) = [1; 2].
Proof.
  pose proof (ids_strictly_increasing silent demo_world demo_world_reachable)
    as (Ho & _).
  split_and!; [exact demo_world_reachable | | reflexivity].
  rewrite Ho. reflexivity.
Defined.

(** ** C8: startProcessing on a busy bot *)

(** C8. [startProcessing] throws exactly when the bot is not IDLE, that is
    when it is already PROCESSING; the error is thrown before anything is
    mutated (the world is unchanged), and on an IDLE bot the call returns
    normally, leaving the bot PROCESSING with the order and a pending
    timer. *)
Theorem startProcessing_throws_iff_busy (b : bref) (r : oref) (w : World) :
  ((exists e w', Bot_startProcessing b (Some r) w = Throw e w')
     <-> Bot.status (botHeap w b) <> BOT_STATUS.IDLE)
  /\ (Bot.status (botHeap w b) <> BOT_STATUS.IDLE
      <-> Bot.status (botHeap w b) = BOT_STATUS.PROCESSING)
  /\ (Bot.status (botHeap w b) <> BOT_STATUS.IDLE ->
      Bot_startProcessing b (Some r) w = Throw BotBusy w)
  /\ (Bot.status (botHeap w b) = BOT_STATUS.IDLE ->
      exists w', Bot_startProcessing b (Some r) w = Ok tt w'
        /\ Bot.status (botHeap w' b) = BOT_STATUS.PROCESSING
        /\ Bot.currentOrder (botHeap w' b) = Some r
        /\ Bot.processingTimeout (botHeap w' b) = Some (timerAlloc w)
        /\ timers w' (timerAlloc w) = Some b
        /\ Order.status (orderHeap w' r) = ORDER_STATUS.PROCESSING).
Proof.
  unfold Bot_startProcessing, bind, get.
  destruct (Bot.status (botHeap w b)) eqn:Es; simpl.
  - split_and!.
    + split; [by intros (e & w' & H) | done].
    + done.
    + done.
    + intros _. eexists. split; [reflexivity|]. simpl. by rewrite !upd_eq.
  - split_and!.
    + split; [done | intros _; by exists BotBusy, w].
    + done.
    + done.
    + done.
Qed.

Lemma startProcessing_throws_iff_busy_witness :
  Bot.status (botHeap demo_world 1) <> BOT_STATUS.IDLE
  /\ Bot_startProcessing 1 (Some 3) demo_world = Throw BotBusy demo_world.
Proof.
  assert (H : Bot.status (botHeap demo_world 1) <> BOT_STATUS.IDLE) by by vm_compute.
  split; [exact H|].
  by apply (startProcessing_throws_iff_busy 1 3 demo_world).
Defined.

(** ** C9: the empty cases *)

(** C9. [dequeue] on an empty queue, [removeBot] on an empty pool and
    [stopProcessing] on an IDLE bot (one that holds no order and no timer,
    as every IDLE bot of a well-formed world does) each return null,
    without an exception and leaving the queue, respectively the world,
    exactly as it was. *)
Theorem empty_cases_return_null :
  (forall {A} (isVIP : A -> bool) (q : OrderQueue.t A),
     OrderQueue.orders q = [] -> OrderQueue.dequeue isVIP q = (None, q))
  /\ (forall logger (w : World),
        bots w = [] -> removeBot logger w = Ok None w)
  /\ (forall (b : bref) (w : World),
        Bot.status (botHeap w b) = BOT_STATUS.IDLE ->
        bot_consistent (botHeap w b) ->
        Bot_stopProcessing b w = Ok None w)
  /\ (forall logger (b : bref) (w : World),
        reachable logger w ->
        Bot.status (botHeap w b) = BOT_STATUS.IDLE ->
        Bot_stopProcessing b w = Ok None w).
Proof.
  assert (Hstop : forall (b : bref) (w : World),
            Bot.status (botHeap w b) = BOT_STATUS.IDLE ->
            bot_consistent (botHeap w b) ->
            Bot_stopProcessing b w = Ok None w).
  { intros b w Hs Hc.
    destruct (bot_consistent_cases _ Hc) as [(_ & Hco & Hto)|[Hp _]]; [|congruence].
    by apply stop_idle_eq. }
  split_and!.
  - intros A isVIP q Hq. unfold OrderQueue.dequeue. by rewrite Hq.
  - intros logger w. apply removeBot_empty.
  - exact Hstop.
  - intros logger b w Hr Hs. apply Hstop; [done|].
    destruct (reachable_WF logger w Hr) as [Hwf _]. apply (wf_bot w Hwf).
Qed.

Lemma empty_cases_return_null_witness :
  OrderQueue.dequeue Order.isVIP OrderQueue.new = (None, OrderQueue.new)
  /\ removeBot silent new_OrderController = Ok None new_OrderController
  /\ Bot_stopProcessing 0 (world_of (addBot silent new_OrderController))
     = Ok None (world_of (addBot silent new_OrderController)).
Proof.
  destruct empty_cases_return_null as (Hd & Hr & Hs & _).
  split_and!.
  - by apply Hd.
  - by apply Hr.
  - apply Hs; [reflexivity|]. vm_compute. split; split; try done; by intros [? ?].
Defined.

(** ** C3: the assignment pass *)

Lemma Assigned_timer w w' b r :
  WF w -> WF w' -> Assigned (bindings w) w w' -> (b, r) ∈ bindings w ->
  exists h, Bot.processingTimeout (botHeap w' b) = Some h
            /\ timers w' h = Some b /\ timerAlloc w <= h.
Proof.
  intros Hwf Hwf' Has Hin.
  destruct (as_bot _ _ _ Has b r Hin) as [Hst Hco].
  destruct (WF_processing w' Hwf' b Hst) as (r' & h & _ & Hto & Hti & _).
  exists h. split_and!; [done | done |].
  destruct (decide (timerAlloc w <= h)) as [|Hlt]; [done|]. exfalso.
  rewrite (as_old_timers _ _ _ Has) in Hti by lia.
  destruct (WF_timer w Hwf h b Hti) as (_ & Hp & _).
  apply elem_of_zip_l, elem_of_idleBots in Hin as [_ Hi]. congruence.
Qed.

Lemma bindings_ext w1 w2 :
  idleBots w1 = idleBots w2 -> getPendingOrders w1 = getPendingOrders w2 ->
  bindings w1 = bindings w2.
Proof. unfold bindings. by intros -> ->. Qed.

(** C3. From a well-formed world the assignment pass pairs the idle bots of
    the pool, in pool order, with the queued orders, front first, as far as
    both last ([bindings]); when it returns, the bound orders have left the
    front of the queue, every bound bot is PROCESSING, holds its order and a
    fresh pending timer, every bound order is PROCESSING, one message per
    binding has been logged in that order, and nothing else has changed.
    The pass returns whenever the logger does.  The bindings depend only on
    the idle bots and on the queue: two passes from worlds that agree on
    these make the same bindings and leave the same queue. *)
Theorem assignment_pass logger (w : World) :
  WF w ->
  (forall w', _assignOrdersToIdleBots logger w = Ok tt w' ->
     Assigned (zip (idleBots w) (getPendingOrders w)) w w'
     /\ (forall b r, (b, r) ∈ zip (idleBots w) (getPendingOrders w) ->
           exists h, Bot.processingTimeout (botHeap w' b) = Some h
                     /\ timers w' h = Some b /\ timerAlloc w <= h))
  /\ (quiet logger -> exists w', _assignOrdersToIdleBots logger w = Ok tt w')
  /\ (forall w2 w' w2',
        WF w2 -> idleBots w2 = idleBots w ->
        getPendingOrders w2 = getPendingOrders w ->
        _assignOrdersToIdleBots logger w = Ok tt w' ->
        _assignOrdersToIdleBots logger w2 = Ok tt w2' ->
        getPendingOrders w2' = getPendingOrders w'
        /\ forall b r, (b, r) ∈ zip (idleBots w) (getPendingOrders w) ->
             Bot.currentOrder (botHeap w' b) = Some r
             /\ Bot.currentOrder (botHeap w2' b) = Some r).
Proof.
  intros Hwf. fold (bindings w).
  assert (Hrun : forall v w', WF v -> _assignOrdersToIdleBots logger v = Ok tt w' ->
            WF w' /\ Assigned (bindings v) v w').
  { intros v w' Hv Hr. pose proof (assign_post logger v Hv) as Hp.
    rewrite Hr in Hp. simpl in Hp. by destruct Hp as (? & _ & ? & _). }
  split_and!.
  - intros w' Hr. destruct (Hrun w w' Hwf Hr) as [Hwf' Has].
    split; [done|]. intros b r Hin. by apply (Assigned_timer w w' b r).
  - intros Hq. destruct (post_quiet logger _ _ _ Hq (assign_post logger w Hwf))
      as ([] & w' & Hr & _). eauto.
  - intros w2 w' w2' Hwf2 Hi Hp Hr Hr2.
    destruct (Hrun w w' Hwf Hr) as [_ Has].
    destruct (Hrun w2 w2' Hwf2 Hr2) as [_ Has2].
    rewrite (bindings_ext w2 w Hi Hp) in Has2. split.
    + by rewrite (as_pending _ _ _ Has), (as_pending _ _ _ Has2), Hp.
    + intros b r Hin. split.
      * by destruct (as_bot _ _ _ Has b r Hin).
      * by destruct (as_bot _ _ _ Has2 b r Hin).
Qed.

Lemma stalled_world_WF : WF stalled_world.
Proof. apply run_events_WF, WF_new. Qed.

Lemma assignment_pass_witness :
  WF stalled_world
  /\ zip (idleBots stalled_world) (getPendingOrders stalled_world) = [(0, 1)]
  /\ exists w', _assignOrdersToIdleBots silent stalled_world = Ok tt w'
                /\ getPendingOrders w' = [0]
                /\ Bot.currentOrder (botHeap w' 0) = Some 1.
Proof.
  assert (Hz : zip (idleBots stalled_world) (getPendingOrders stalled_world)
               = [(0, 1)]) by (vm_compute; reflexivity).
  assert (Hpend : getPendingOrders stalled_world = [1; 0])
    by (vm_compute; reflexivity).
  destruct (assignment_pass silent stalled_world stalled_world_WF)
    as (Hrun & Hq & _).
  split; [exact stalled_world_WF|]. split; [exact Hz|].
  destruct (Hq silent_quiet) as [w' Hw']. exists w'.
  destruct (Hrun w' Hw') as [Has _]. rewrite Hz in Has.
  split; [exact Hw'|]. split.
  - rewrite (as_pending _ _ _ Has), Hpend. reflexivity.
  - apply (as_bot _ _ _ Has 0 1). left.
Defined.

(** ** C6: completion *)

Lemma filter_singleton {B} `{EqDecision B} (f : B -> bool) (l : list B) (x : B) :
  NoDup l -> x ∈ l -> f x = true -> (forall y, y ∈ l -> y <> x -> f y = false) ->
  List.filter f l = [x].
Proof.
  intros Hnd Hin Hx Hother. induction l as [|a l IH]; [by apply elem_of_nil in Hin|].
  apply list.NoDup_cons in Hnd as [Ha Hnd]. simpl.
  destruct (decide (a = x)) as [->|Hne].
  - rewrite Hx. f_equal. apply filter_nil_iff. intros y Hy. apply Hother; [by right|].
    by intros ->.
  - rewrite (Hother a) by (done || by left).
    apply elem_of_cons in Hin as [->|Hin]; [done|].
    apply IH; try done. intros y Hy. apply Hother. by right.
Qed.

Section Completion.
Variable logger : list Msg -> Msg -> bool.
Variables (h : timer) (b : bref) (t : oref) (w : World).
Hypothesis Hwf : WF w.
Hypothesis Hh : timers w h = Some b.
Hypothesis Hco : Bot.currentOrder (botHeap w b) = Some t.

(* the world in which the completion handler starts its assignment pass *)
Local Abbreviation w1 :=
  (set_logged
     (fun l => l ++ [MsgCompleted (Bot.botId (botHeap w b))
                       (Order.type (orderHeap w t))
                       (Order.orderNumber (orderHeap w t)) ORDER_STATUS.COMPLETE])
     (after_complete b t h w)).

Lemma completion_WF1 : WF w1.
Proof. by apply WF_set_logged, WF_after_complete. Qed.

Lemma timerFires_Ok w' :
  timerFires logger h w = Ok tt w' ->
  exists w2, _assignOrdersToIdleBots logger w1 = Ok tt w2
    /\ (w' = w2
        \/ w' = set_logged (fun l => l ++ [MsgNowIdle (Bot.botId (botHeap w2 b))]) w2
           /\ isIdle_at w2 b = true /\ getPendingOrders w2 = []).
Proof.
  rewrite (timerFires_unfold logger h b t w Hwf Hh Hco).
  unfold bind at 1, log at 1. destruct (logger _ _); [done|].
  unfold bind at 1.
  destruct (_assignOrdersToIdleBots logger _) as [[] w2|] eqn:Ha; [|done].
  unfold bind, get. intros Hr. exists w2. split; [reflexivity|].
  destruct (OrderQueue.isEmpty (orderQueue w2)) eqn:Hq; simpl in Hr.
  - destruct (isIdle_at w2 b) eqn:Hi.
    + unfold log in Hr. destruct (logger _ _); [done|]. injection Hr as <-.
      right. split_and!; [done | done |]. by apply isEmpty_true in Hq.
    + injection Hr as <-. by left.
  - injection Hr as <-. by left.
Qed.

Lemma completion_idleBots : idleBots w = [] -> idleBots w1 = [b].
Proof.
  intros Hi. unfold idleBots. destruct (WF_timer w Hwf h b Hh) as (Hb & _).
  apply filter_singleton; [by apply (WF_NoDup_bots w) | done | |].
  - unfold isIdle_at. change (botHeap w1 b) with (botHeap (after_complete b t h w) b).
    by rewrite after_complete_bot.
  - intros b' Hb' Hne. unfold isIdle_at.
    change (botHeap w1 b') with (botHeap (after_complete b t h w) b').
    rewrite after_complete_bots by done.
    apply (proj1 (filter_nil_iff _ _) Hi b' Hb').
Qed.

Lemma completion_t_not_pending : t ∉ getPendingOrders w.
Proof.
  intros Hin. apply (WF_pending_not_held w Hwf t Hin).
  by apply (after_complete_r_held b t h w Hwf Hh Hco).
Qed.
(* the idle bots once [b] is idle again: those before it in the pool,
   [b], those after it *)
Lemma completion_idleBots_split l1 l2 :
  bots w = l1 ++ b :: l2 ->
  idleBots w1
  = List.filter (isIdle_at w) l1 ++ b :: List.filter (isIdle_at w) l2
  /\ idleBots w = List.filter (isIdle_at w) l1 ++ List.filter (isIdle_at w) l2.
Proof.
  intros Hp. pose proof (WF_NoDup_bots w Hwf) as Hnd. rewrite Hp in Hnd.
  apply list.NoDup_app in Hnd as (_ & Hd1 & Hnd).
  apply list.NoDup_cons in Hnd as [Hd2 _].
  assert (Hb1 : isIdle_at w1 b = true).
  { unfold isIdle_at.
    assert (He : botHeap w1 b = botHeap (after_complete b t h w) b) by reflexivity.
    by rewrite He, after_complete_bot. }
  assert (Hb0 : isIdle_at w b = false).
  { unfold isIdle_at, Bot.isIdle.
    destruct (WF_timer w Hwf h b Hh) as (_ & Hst & _). by rewrite Hst. }
  assert (Hext : forall x, x <> b -> isIdle_at w1 x = isIdle_at w x).
  { intros x Hne. unfold isIdle_at.
    assert (He : botHeap w1 x = botHeap (after_complete b t h w) x) by reflexivity.
    by rewrite He, after_complete_bots. }
  assert (Hpool : bots w1 = bots w) by reflexivity.
  unfold idleBots. rewrite Hpool, Hp, !filter_app. cbn [List.filter].
  rewrite Hb1, Hb0. split; [|done]. f_equal; [|f_equal].
  - apply filter_ext_elem. intros x Hx. apply Hext. intros ->.
    apply (Hd1 b Hx). by left.
  - apply filter_ext_elem. intros x Hx. apply Hext. intros ->. by apply Hd2.
Qed.
End Completion.

Lemma drop_min_length {B} n (l : list B) : drop (n `min` length l) l = drop n l.
Proof.
  destruct (decide (n <= length l)) as [Hle|Hgt].
  - by rewrite Nat.min_l.
  - rewrite Nat.min_r by lia. rewrite drop_all. symmetry. apply drop_ge. lia.
Qed.

(** The claim as the specification words it fails where another bot is
    idle next to a pending order, which is what a logger's exception during
    [createNormalOrder] leaves behind: bot 1 is idle, order 1003 is pending
    and bot 2 is processing order 1002.  When the timer of bot 2 fires, the
    handler returns normally, order 1002 is COMPLETE, but the pending order
    goes to bot 1, which comes first in the pool, and bot 2 stays IDLE. *)
Lemma completion_idle_peer_counterexample :
  WF abandoned_world
  /\ timers abandoned_world 1 = Some 1
  /\ Bot.currentOrder (botHeap abandoned_world 1) = Some 1
  /\ getPendingOrders abandoned_world = [2]
  /\ idleBots abandoned_world = [0]
  /\ exists w', timerFires fussy 1 abandoned_world = Ok tt w'
       /\ Order.status (orderHeap w' 1) = ORDER_STATUS.COMPLETE
       /\ Bot.status (botHeap w' 1) = BOT_STATUS.IDLE
       /\ Bot.currentOrder (botHeap w' 1) = None
       /\ Bot.currentOrder (botHeap w' 0) = Some 2
       /\ ~ (Bot.status (botHeap w' 1) = BOT_STATUS.PROCESSING
             /\ Bot.currentOrder (botHeap w' 1) = Some 2).
Proof.
  split; [exact (run_events_WF fussy abandoned_events new_OrderController WF_new)|].
  split; [vm_compute; reflexivity|].
  split; [vm_compute; reflexivity|].
  split; [vm_compute; reflexivity|].
  split; [vm_compute; reflexivity|].
  exists (world_of (timerFires fussy 1 abandoned_world)).
  split; [vm_compute; reflexivity|].
  split; [vm_compute; reflexivity|].
  split; [vm_compute; reflexivity|].
  split; [vm_compute; reflexivity|].
  split; [vm_compute; reflexivity|].
  intros [H _]. vm_compute in H. discriminate H.
Qed.

(** C6, as the code has it.  In a well-formed world (every world the
    operations leave is one, also after a logger's exception) let the
    pending timer [h] of bot [b], which holds order [t], fire, [b] standing
    in the pool after the bots [l1].  If the handler returns, [t] is COMPLETE
    and has been appended to the completed list, which is longer by exactly
    one, and an assignment pass has been run over the idle bots in pool
    order, [b] among them: the front pending order goes to the first idle
    bot of the pool; [b] picks up the pending order at position [k], where
    [k] is the number of idle bots before it in the pool, and stays IDLE if
    there is none; the pass takes one order per idle bot, [b] included, off
    the front of the queue.  In particular, if no other bot was idle and an
    order [o] was at the front of the queue, [b] is PROCESSING again and
    holds [o], which is PROCESSING, and the pending count is smaller by
    exactly one; this is the case in every world reached by completed
    operations in which an order is pending.  The handler returns whenever
    the logger does. *)
Theorem completion_reassigns logger (h : timer) (b : bref) (t : oref)
    (l1 l2 : list bref) (w : World) :
  WF w ->
  timers w h = Some b ->
  Bot.currentOrder (botHeap w b) = Some t ->
  bots w = l1 ++ b :: l2 ->
  (forall w', timerFires logger h w = Ok tt w' ->
     Order.status (orderHeap w' t) = ORDER_STATUS.COMPLETE
     /\ completedOrders w' = completedOrders w ++ [t]
     /\ length (completedOrders w') = S (length (completedOrders w))
     /\ getPendingOrders w' = drop (S (length (idleBots w))) (getPendingOrders w)
     /\ (forall b0 o,
           head (List.filter (isIdle_at w) l1 ++ [b]) = Some b0 ->
           head (getPendingOrders w) = Some o ->
           Bot.status (botHeap w' b0) = BOT_STATUS.PROCESSING
           /\ Bot.currentOrder (botHeap w' b0) = Some o
           /\ Order.status (orderHeap w' o) = ORDER_STATUS.PROCESSING)
     /\ (forall o,
           getPendingOrders w !! length (List.filter (isIdle_at w) l1) = Some o ->
           Bot.status (botHeap w' b) = BOT_STATUS.PROCESSING
           /\ Bot.currentOrder (botHeap w' b) = Some o
           /\ Order.status (orderHeap w' o) = ORDER_STATUS.PROCESSING)
     /\ (getPendingOrders w !! length (List.filter (isIdle_at w) l1) = None ->
           botHeap w' b
           = Bot.mk (Bot.botId (botHeap w b)) BOT_STATUS.IDLE None None)
     /\ (idleBots w = [] ->
         forall o rest, getPendingOrders w = o :: rest ->
           Bot.status (botHeap w' b) = BOT_STATUS.PROCESSING
           /\ Bot.currentOrder (botHeap w' b) = Some o
           /\ Order.status (orderHeap w' o) = ORDER_STATUS.PROCESSING
           /\ getPendingOrders w' = rest
           /\ pendingOrders w = S (pendingOrders w')))
  /\ (quiet logger -> exists w', timerFires logger h w = Ok tt w')
  /\ (reachable logger w -> getPendingOrders w <> [] -> idleBots w = []).
Proof.
  intros Hwf Hh Hco Hpool. split; [|split].
  2: { intros Hq.
       destruct (post_quiet logger _ _ _ Hq (timerFires_post logger h w Hwf))
         as ([] & w' & Hw' & _). eauto. }
  2: { intros Hr Hne. destruct (reachable_WF logger w Hr) as [_ [Hs|Hs]]; done. }
  intros w' Hrun.
  destruct (timerFires_Ok logger h b t w Hwf Hh Hco w' Hrun) as (w2 & Ha & Hw').
  set (w1 := set_logged _ (after_complete b t h w)) in Ha.
  assert (Hwf1 : WF w1) by by apply completion_WF1.
  pose proof (assign_post logger w1 Hwf1) as Hp. rewrite Ha in Hp. simpl in Hp.
  destruct Hp as (Hwf2 & _ & Has & _).
  destruct (completion_idleBots_split h b t w Hwf Hh l1 l2 Hpool) as [Hi1 Hi0].
  assert (Hi1' : idleBots w1
                 = List.filter (isIdle_at w) l1 ++ b :: List.filter (isIdle_at w) l2)
    by exact Hi1.
  clear Hi1.
  set (I1 := List.filter (isIdle_at w) l1) in *.
  set (I2 := List.filter (isIdle_at w) l2) in *.
  set (P := getPendingOrders w) in *.
  assert (Hpe1 : getPendingOrders w1 = P) by reflexivity.
  assert (Hbs : bindings w1 = zip (I1 ++ b :: I2) P).
  { unfold bindings. by rewrite Hi1', Hpe1. }
  assert (Hnd : NoDup (I1 ++ b :: I2)).
  { rewrite <- Hi1'. by apply idleBots_NoDup. }
  assert (Hlk : (I1 ++ b :: I2) !! length I1 = Some b).
  { by rewrite list_lookup_middle. }
  assert (Htc : Order.status (orderHeap w1 t) = ORDER_STATUS.COMPLETE).
  { assert (He : orderHeap w1 t = orderHeap (after_complete b t h w) t) by reflexivity.
    by rewrite He, after_complete_order. }
  assert (Ht2 : Order.status (orderHeap w2 t) = ORDER_STATUS.COMPLETE).
  { rewrite (as_orders _ _ _ Has); [done|].
    intros Hin. apply list_elem_of_fmap in Hin as [[b1 r1] [-> Hin]].
    apply elem_of_zip_r in Hin. apply (wf_pending w1 Hwf1) in Hin. simpl in *.
    congruence. }
  assert (Hc2 : completedOrders w2 = completedOrders w ++ [t]).
  { rewrite (as_completed _ _ _ Has). apply (after_complete_completed b t h w). }
  assert (Hproj : orderHeap w' = orderHeap w2 /\ botHeap w' = botHeap w2
                  /\ completedOrders w' = completedOrders w2
                  /\ getPendingOrders w' = getPendingOrders w2).
  { destruct Hw' as [->|[-> _]]; done. }
  destruct Hproj as (Ho & Hb & Hc & Hpe).
  rewrite Ho, Hb, Hc, Hpe.
  assert (Hbound : forall b0 o i, (I1 ++ b :: I2) !! i = Some b0 -> P !! i = Some o ->
            Bot.status (botHeap w2 b0) = BOT_STATUS.PROCESSING
            /\ Bot.currentOrder (botHeap w2 b0) = Some o
            /\ Order.status (orderHeap w2 o) = ORDER_STATUS.PROCESSING).
  { intros b0 o i Hb0 Ho0.
    assert (Hin : (b0, o) ∈ bindings w1).
    { rewrite Hbs. apply (list_elem_of_lookup_2 _ i).
      rewrite lookup_zip_with, Hb0. simpl. by rewrite Ho0. }
    destruct (as_bot _ _ _ Has b0 o Hin) as [Hs0 Hc0].
    split_and!; [done | done |]. by rewrite (as_order _ _ _ Has b0 o Hin). }
  assert (Hdrop : getPendingOrders w2 = drop (S (length (idleBots w))) P).
  { rewrite (as_pending _ _ _ Has), Hpe1, Hbs, length_zip_with, Hi0.
    rewrite drop_min_length. f_equal. rewrite !length_app. simpl. lia. }
  assert (Hk0 : idleBots w = [] -> I1 = []).
  { rewrite Hi0. intros He. by apply app_eq_nil in He as [? _]. }
  split_and!.
  - exact Ht2.
  - exact Hc2.
  - rewrite Hc2, length_app. simpl. lia.
  - exact Hdrop.
  - intros b0 o Hb0 Ho0. apply (Hbound b0 o 0).
    + destruct I1 as [|x I1']; simpl in *; done.
    + by rewrite <- head_lookup.
  - intros o Ho0. by apply (Hbound b o (length I1)).
  - intros Hnone.
    assert (Hout : b ∉ (bindings w1).*1).
    { intros Hin. apply list_elem_of_fmap in Hin as [[b1 r1] [Heq Hin]].
      simpl in Heq. subst b1.
      rewrite Hbs in Hin. apply list_elem_of_lookup_1 in Hin as [i Hi].
      rewrite lookup_zip_with in Hi.
      destruct ((I1 ++ b :: I2) !! i) as [x|] eqn:Hx; [|done]. simpl in Hi.
      destruct (P !! i) as [y|] eqn:Hy; [|done]. simpl in Hi.
      injection Hi as -> ->.
      assert (i = length I1) as -> by by apply (NoDup_lookup _ _ _ b Hnd Hx Hlk).
      congruence. }
    rewrite (as_bots _ _ _ Has b Hout). apply (after_complete_bot b t h w).
  - intros Hi o rest Hq. rewrite (Hk0 Hi) in Hbound, Hlk.
    destruct (Hbound b o 0) as (H1 & H2 & H3); [done | by rewrite Hq |].
    assert (Hrest : getPendingOrders w2 = rest).
    { rewrite Hdrop, Hi, Hq. reflexivity. }
    split_and!; [done | done | done | done |].
    change (length P = S (length (getPendingOrders w'))).
    by rewrite Hpe, Hrest, Hq.
Qed.

Lemma completion_reassigns_witness :
  WF abandoned_world
  /\ timers abandoned_world 1 = Some 1
  /\ Bot.currentOrder (botHeap abandoned_world 1) = Some 1
  /\ bots abandoned_world = [0] ++ 1 :: []
  /\ getPendingOrders abandoned_world = [2]
  /\ exists w', timerFires fussy 1 abandoned_world = Ok tt w'
       /\ Order.status (orderHeap w' 1) = ORDER_STATUS.COMPLETE
       /\ Bot.currentOrder (botHeap w' 0) = Some 2
       /\ botHeap w' 1 = Bot.mk 2 BOT_STATUS.IDLE None None
       /\ getPendingOrders w' = [].
Proof.
  assert (Hwf : WF abandoned_world)
    by exact (run_events_WF fussy abandoned_events new_OrderController WF_new).
  assert (Ht : timers abandoned_world 1 = Some 1) by (vm_compute; reflexivity).
  assert (Hc : Bot.currentOrder (botHeap abandoned_world 1) = Some 1)
    by (vm_compute; reflexivity).
  assert (Hb : bots abandoned_world = [0] ++ 1 :: []) by (vm_compute; reflexivity).
  assert (Hp : getPendingOrders abandoned_world = [2]) by (vm_compute; reflexivity).
  assert (Hrun : timerFires fussy 1 abandoned_world
                 = Ok tt (world_of (timerFires fussy 1 abandoned_world)))
    by (vm_compute; reflexivity).
  destruct (completion_reassigns fussy 1 1 1 [0] [] abandoned_world Hwf Ht Hc Hb)
    as (Hok & _ & _).
  destruct (Hok _ Hrun) as (Hs & _ & _ & Hdrop & Hfront & _ & Hidle & _).
  split; [exact Hwf|]. split; [exact Ht|]. split; [exact Hc|].
  split; [exact Hb|]. split; [exact Hp|].
  exists (world_of (timerFires fussy 1 abandoned_world)).
  split; [exact Hrun|]. split; [exact Hs|].
  assert (Hh0 : head (List.filter (isIdle_at abandoned_world) [0] ++ [1]) = Some 0)
    by (vm_compute; reflexivity).
  assert (Hh1 : head (getPendingOrders abandoned_world) = Some 2)
    by (vm_compute; reflexivity).
  assert (Hn : getPendingOrders abandoned_world
                 !! length (List.filter (isIdle_at abandoned_world) [0]) = None)
    by (vm_compute; reflexivity).
  destruct (Hfront 0 2 Hh0 Hh1) as (_ & Hcur & _).
  split; [exact Hcur|]. split.
  - rewrite (Hidle Hn). vm_compute. reflexivity.
  - rewrite Hdrop. vm_compute. reflexivity.
Defined.

(** ** C2: removing a processing bot *)

Section Preemption.
Variable logger : list Msg -> Msg -> bool.
Variables (b : bref) (init : list bref) (t : oref) (h : timer) (w : World).
Hypothesis Hwf : WF w.
Hypothesis Hpool : bots w = init ++ [b].
Hypothesis Hto : Bot.processingTimeout (botHeap w b) = Some h.
Hypothesis Hco : Bot.currentOrder (botHeap w b) = Some t.

(* the world in which removeBot starts its assignment pass *)
Local Abbreviation w1 :=
  (set_logged
     (fun l => l ++ [MsgDestroyedProcessing (Bot.botId (botHeap w b))
                       (Order.orderNumber (orderHeap w t))])
     (after_preempt b t h w)).

Lemma preempt_WF1 : WF w1.
Proof. by apply WF_set_logged, (WF_after_preempt b init). Qed.

Lemma removeBot_Ok res w' :
  removeBot logger w = Ok res w' ->
  res = Some b /\ _assignOrdersToIdleBots logger w1 = Ok tt w'.
Proof.
  rewrite (removeBot_processing logger b init t h w Hpool Hto Hco).
  unfold bind at 1, log at 1. destruct (logger _ _); [done|].
  unfold bind at 1.
  destruct (_assignOrdersToIdleBots logger _) as [[] w2|]; [|done].
  unfold ret. by intros [= <- <-].
Qed.




End Preemption.




(** ** C5: the logger's exceptions *)

(** The claim as the specification words it fails: with one idle bot and a
    logger that throws on the creation message, [createNormalOrder] lets the
    exception out, and the operation is left half done: the order is
    created and queued, but the assignment pass that a normal return runs
    is skipped, so the order stays pending next to an idle bot. *)
Lemma logger_exception_counterexample :
  (exists w', createNormalOrder picky one_bot_world = Throw LoggerErr w'
     /\ getPendingOrders w' = [0] /\ idleBots w' = [0])
  /\ (exists w', createNormalOrder silent one_bot_world = Ok 0 w'
        /\ getPendingOrders w' = [] /\ idleBots w' = [])
  /\ ~ (exists r w', createNormalOrder picky one_bot_world = Ok r w').
Proof.
  split; [|split].
  - exists (world_of (createNormalOrder picky one_bot_world)).
    split; [vm_compute; reflexivity|]. split; vm_compute; reflexivity.
  - exists (world_of (createNormalOrder silent one_bot_world)).
    split; [vm_compute; reflexivity|]. split; vm_compute; reflexivity.
  - intros (r & w' & H). vm_compute in H. discriminate H.
Qed.

Section LoggerThrows.
Variable logger : list Msg -> Msg -> bool.

Lemma log_throws m w :
  logger (logged w) m = true ->
  forall {A} (k : M A),
    (log logger m ;; k) w = Throw LoggerErr (set_logged (fun l => l ++ [m]) w).
Proof. intros H A k. unfold bind, log. by rewrite H. Qed.
End LoggerThrows.

(** C5, as the code has it.  The controller calls the logger without
    catching anything.  From a well-formed world, each operation (the four
    public ones, and a timer firing) either returns normally, or lets out
    the logger's own exception and no other; in both cases the world it
    leaves is well-formed, and it returns normally whenever the logger
    does.  Call by call, for every logger: [_createOrder], [addBot] and the
    [removeBot] of a processing bot make their mutation, tell the logger,
    and run the assignment pass, which tells the logger once per binding,
    after making it.  If none of these calls throws, the operation returns
    with all bindings made.  If the first call throws, the operation stops
    in the world of that call: the order is created and queued, the bot is
    added, the bot is removed and its order queued again, and no pass is
    run.  If the call for binding [j] is the first to throw, the operation
    stops there: the first [j] bindings are made and the others are not.
    The [removeBot] of an idle bot takes the bot out of the pool and tells
    the logger once; it returns the bot, or stops, in that same world.  On
    an empty pool [removeBot] makes no call.  A completion does the same as
    the first three, and then tells the logger that the bot is idle if it
    is and nothing is pending. *)
Theorem logger_exception_propagates logger (w : World) :
  WF w ->
  (forall ev,
     match run_event logger ev w with
     | Ok _ w' => WF w'
     | Throw e w' => e = LoggerErr /\ ~ quiet logger /\ WF w'
     end)
  /\ (quiet logger -> forall ev, exists w', run_event logger ev w = Ok tt w')
  /\ (forall ty,
        logs_then_assigns logger
          (MsgCreated ty (nextOrderNumber w) ORDER_STATUS.PENDING)
          (after_create ty w) (ret (orderAlloc w))
          (_createOrder logger ty w))
  /\ logs_then_assigns logger (MsgBotCreated (nextBotId w))
       (after_addBot w) (ret (botAlloc w))
       (addBot logger w)
  /\ (forall b init t h,
        bots w = init ++ [b] ->
        Bot.processingTimeout (botHeap w b) = Some h ->
        Bot.currentOrder (botHeap w b) = Some t ->
        logs_then_assigns logger
          (MsgDestroyedProcessing (Bot.botId (botHeap w b))
             (Order.orderNumber (orderHeap w t)))
          (after_preempt b t h w) (ret (Some b))
          (removeBot logger w))
  /\ (forall b init,
        bots w = init ++ [b] ->
        Bot.status (botHeap w b) = BOT_STATUS.IDLE ->
        let m := MsgDestroyedIdle (Bot.botId (botHeap w b)) in
        let w1 := set_logged (fun l => l ++ [m]) (set_bots (@removelast bref) w) in
        removeBot logger w
        = if logger (logged w) m then Throw LoggerErr w1 else Ok (Some b) w1)
  /\ (bots w = [] -> removeBot logger w = Ok None w)
  /\ (forall h b t,
        timers w h = Some b ->
        Bot.currentOrder (botHeap w b) = Some t ->
        logs_then_assigns logger
          (MsgCompleted (Bot.botId (botHeap w b)) (Order.type (orderHeap w t))
             (Order.orderNumber (orderHeap w t)) ORDER_STATUS.COMPLETE)
          (after_complete b t h w)
          (fun w2 =>
             (if OrderQueue.isEmpty (orderQueue w2) && isIdle_at w2 b
              then log logger (MsgNowIdle (Bot.botId (botHeap w2 b)))
              else ret tt) w2)
          (timerFires logger h w)).
Proof.
  intros Hwf. split_and!.
  - intros ev. pose proof (run_event_post logger ev w Hwf) as Hp.
    destruct (run_event logger ev w); simpl in Hp.
    + by destruct Hp as (? & _).
    + by destruct Hp as (? & ? & ? & _).
  - intros Hq ev.
    destruct (post_quiet logger _ _ _ Hq (run_event_post logger ev w Hwf))
      as ([] & w' & Hw' & _). eauto.
  - intros ty. rewrite createOrder_unfold.
    apply logs_then_assigns_intro. by apply WF_after_create.
  - rewrite addBot_unfold. apply logs_then_assigns_intro. by apply WF_after_addBot.
  - intros b init t h Hp Hto Hco.
    rewrite (removeBot_processing logger b init t h w Hp Hto Hco).
    apply logs_then_assigns_intro. by apply (WF_after_preempt b init).
  - intros b init Hp Hst m w1. destruct (WF_idle w Hwf b Hst) as [Hco Hto].
    rewrite (removeBot_idle logger b init w Hp Hto Hco).
    unfold bind, log, ret.
    assert (Hlg : logged (set_bots (@removelast bref) w) = logged w) by reflexivity.
    rewrite Hlg. by destruct (logger (logged w) _).
  - apply removeBot_empty.
  - intros h b t Hh Hco. rewrite (timerFires_unfold logger h b t w Hwf Hh Hco).
    apply (logs_then_assigns_intro logger _ (after_complete b t h w)).
    by apply WF_after_complete.
Qed.

Lemma logger_exception_propagates_witness :
  WF one_bot_world
  /\ exists w2,
       _createOrder touchy NORMAL one_bot_world = Throw LoggerErr w2
       /\ Bot.currentOrder (botHeap w2 0) = Some 0
       /\ getPendingOrders w2 = [].
Proof.
  assert (Hwf : WF one_bot_world).
  { unfold one_bot_world.
    pose proof (addBot_post silent new_OrderController WF_new) as Hp.
    destruct (addBot silent new_OrderController); simpl in Hp |- *.
    - by destruct Hp as (_ & ? & _).
    - by destruct Hp as (_ & _ & ? & _). }
  destruct (logger_exception_propagates touchy one_bot_world Hwf)
    as (_ & _ & Hc & _).
  split; [exact Hwf|].
  pose proof (Hc NORMAL) as H. unfold logs_then_assigns in H. cbv zeta in H.
  match type of H with
  | match first_throw ?lg ?l ?ms with _ => _ end =>
      assert (Hf : first_throw lg l ms = Some 1) by (vm_compute; reflexivity);
      rewrite Hf in H
  end.
  destruct H as (w2 & Has & Hrun). exists w2.
  match type of Has with
  | Assigned ?bs ?w1 _ =>
      assert (Hbs : bs = [(0, 0)]) by (vm_compute; reflexivity);
      assert (Hp1 : getPendingOrders w1 = [0]) by (vm_compute; reflexivity)
  end.
  rewrite Hbs in Has.
  destruct (as_bot _ _ _ Has 0 0) as [_ Hcur]; [by left|].
  split; [exact Hrun|]. split; [exact Hcur|].
  rewrite (as_pending _ _ _ Has), Hp1. reflexivity.
Defined.

Lemma removeBot_Ok_pool_timer logger (b : bref) (init : list bref) (t : oref)
    (h : timer) (w w' : World) res :
  WF w ->
  bots w = init ++ [b] ->
  Bot.processingTimeout (botHeap w b) = Some h ->
  Bot.currentOrder (botHeap w b) = Some t ->
  removeBot logger w = Ok res w' ->
  bots w' = init /\ timers w' h = None.
Proof.
  intros Hwf Hpool Hto Hco Hrun.
  destruct (removeBot_Ok logger b init t h w Hpool Hto Hco res w' Hrun) as [_ Ha].
  set (w1 := set_logged _ (after_preempt b t h w)) in Ha.
  assert (Hwf1 : WF w1) by by apply (preempt_WF1 b init).
  pose proof (assign_post logger w1 Hwf1) as Hp. rewrite Ha in Hp. simpl in Hp.
  destruct Hp as (_ & _ & Has & _).
  assert (Hti : timers w h = Some b) by by apply (wf_timers w Hwf).
  split.
  - rewrite (as_pool _ _ _ Has). apply (after_preempt_pool b init t h w Hpool).
  - rewrite (as_old_timers _ _ _ Has).
    + apply (after_preempt_timer b t h w).
    + assert (Hta : timerAlloc w1 = timerAlloc w) by reflexivity. rewrite Hta.
      apply (wf_timer_alloc w Hwf). by rewrite Hti.
Qed.

(** ** C7: a cancelled timer never fires *)

(** C7. In a world reached by completed operations let [removeBot] remove
    the newest bot [b], which holds order [t] and the timer [h].  Then in
    every world reached from there by further completed operations the
    handle [h] is not pending, no pending timer belongs to [b], and [b]
    stays outside the pool, idle and holding nothing; so every timer that
    fires later belongs to another bot, and the completion handler is never
    run on behalf of [b]: the order preempted from [b] is not marked
    COMPLETE by [b]. *)
Theorem cancelled_timer_never_fires logger (b : bref) (init : list bref)
    (t : oref) (h : timer) (w w1 w2 : World) :
  reachable logger w ->
  bots w = init ++ [b] ->
  Bot.currentOrder (botHeap w b) = Some t ->
  Bot.processingTimeout (botHeap w b) = Some h ->
  removeBot logger w = Ok (Some b) w1 ->
  steps logger w1 w2 ->
  timers w2 h = None
  /\ (forall h', timers w2 h' <> Some b)
  /\ (b ∉ bots w2)
  /\ botHeap w2 b = Bot.mk (Bot.botId (botHeap w2 b)) BOT_STATUS.IDLE None None
  /\ (forall h' w3, step logger w2 (EvTimer h') w3 ->
        exists b', timers w2 h' = Some b' /\ b' <> b).
Proof.
  intros Hr Hpool Hco Hto Hrun Hsteps.
  destruct (reachable_WF logger w Hr) as [Hwf Hsat].
  assert (Hr1 : reachable logger w1).
  { apply (steps_snoc logger _ w EvRemoveBot w1 Hr). split; [exact I|].
    simpl. unfold bind. by rewrite Hrun. }
  destruct (reachable_WF logger w1 Hr1) as [Hwf1 Hsat1].
  destruct (removeBot_Ok_pool_timer logger b init t h w w1 (Some b)
              Hwf Hpool Hto Hco Hrun) as [Hb1 Ht1].
  destruct (steps_inv logger w1 w2 Hsteps Hwf1 Hsat1) as (Hwf2 & _ & Hm).
  destruct Hm as (_ & Hmb & Hta & Hmt).
  assert (Hbw : b ∈ bots w).
  { rewrite Hpool. apply elem_of_app. right. by left. }
  assert (Hti : timers w h = Some b) by by apply (wf_timers w Hwf).
  destruct (steps_inv logger w w1) as (_ & _ & Hm01); [|done|done|].
  { apply (steps_snoc logger w w EvRemoveBot w1 (steps_refl logger w)).
    split; [exact I|]. simpl. unfold bind. by rewrite Hrun. }
  destruct Hm01 as (Hba & _ & Hta01 & _).
  assert (Hout : b ∉ bots w2).
  { apply Hmb.
    - apply (wf_pool_alloc w Hwf) in Hbw. lia.
    - rewrite Hb1. by apply (after_preempt_b_fresh b init w Hwf Hpool). }
  pose proof (wf_retired w2 Hwf2 b Hout) as Hidle.
  destruct (WF_idle w2 Hwf2 b Hidle) as [Hc2 Ht2].
  assert (Hnone : forall h', timers w2 h' <> Some b).
  { intros h' Hh'. apply (wf_timers w2 Hwf2) in Hh'. congruence. }
  split_and!; try done.
  - apply Hmt; [|exact Ht1].
    assert (h < timerAlloc w); [|lia].
    apply (wf_timer_alloc w Hwf). by rewrite Hti.
  - destruct (botHeap w2 b) as [id st co to]. simpl in *. by subst.
  - intros h' w3 [Hen _]. simpl in Hen.
    destruct (timers w2 h') as [b'|] eqn:Hh'; [|done].
    exists b'. split; [done|]. intros ->. by apply (Hnone h').
Qed.

Lemma cancelled_timer_never_fires_witness :
  reachable silent demo_world
  /\ exists w1 w2,
       removeBot silent demo_world = Ok (Some 1) w1
       /\ steps silent w1 w2
       /\ timers w2 1 = None
       /\ (1 ∉ bots w2).
Proof.
  assert (Hp : bots demo_world = [0] ++ [1]) by (vm_compute; reflexivity).
  assert (Hc : Bot.currentOrder (botHeap demo_world 1) = Some 1)
    by (vm_compute; reflexivity).
  assert (Ht : Bot.processingTimeout (botHeap demo_world 1) = Some 1)
    by (vm_compute; reflexivity).
  split; [exact demo_world_reachable|].
  set (w1 := world_of (removeBot silent demo_world)).
  set (w2 := world_of (run_events silent [EvAddBot; EvTimer 2] w1)).
  assert (Hrun : removeBot silent demo_world = Ok (Some 1) w1)
    by (vm_compute; reflexivity).
  assert (Hsteps : steps silent w1 w2).
  { apply (exec_steps silent [EvAddBot; EvTimer 2]). vm_compute. reflexivity. }
  exists w1, w2.
  destruct (cancelled_timer_never_fires silent 1 [0] 1 1 demo_world w1 w2
              demo_world_reachable Hp Hc Ht Hrun Hsteps) as (Hn & _ & Hout & _).
  split; [exact Hrun|]. split; [exact Hsteps|]. split; [exact Hn | exact Hout].
Defined.

(** * Further properties of the code *)

(** ** OrderQueue, whatever its counter *)

Lemma splice_insert_split {A} (start : Z) (x : A) (l : list A) :
  exists n, OrderQueue.splice_insert start x l = take n l ++ x :: drop n l.
Proof. unfold OrderQueue.splice_insert. eauto. Qed.

(** X1. Whatever state the queue is in, also with a cached counter that is
    wrong, negative or larger than the array: [enqueue] adds exactly the one
    order and keeps the orders already queued in their relative order;
    [dequeue] returns null on an empty array and otherwise removes exactly
    the first order; [size] counts them and [isEmpty] says whether the size
    is 0. *)
Theorem queue_never_loses_orders {A} (isVIP : A -> bool) (q : OrderQueue.t A) :
  (forall x,
     OrderQueue.getAll (OrderQueue.enqueue isVIP x q) ≡ₚ x :: OrderQueue.getAll q
     /\ OrderQueue.getAll q `sublist_of` OrderQueue.getAll (OrderQueue.enqueue isVIP x q)
     /\ OrderQueue.size (OrderQueue.enqueue isVIP x q) = S (OrderQueue.size q))
  /\ match OrderQueue.getAll q with
     | [] => OrderQueue.dequeue isVIP q = (None, q)
     | y :: l =>
         fst (OrderQueue.dequeue isVIP q) = Some y
         /\ OrderQueue.getAll (snd (OrderQueue.dequeue isVIP q)) = l
         /\ OrderQueue.size (snd (OrderQueue.dequeue isVIP q))
            = pred (OrderQueue.size q)
     end
  /\ (OrderQueue.isEmpty q = true <-> OrderQueue.size q = 0)
  /\ OrderQueue.size q = length (OrderQueue.getAll q)
  /\ OrderQueue.getAll (OrderQueue.clear q) = [].
Proof.
  unfold OrderQueue.getAll, OrderQueue.size. split_and!.
  - intros x.
    assert (Hin : exists n, OrderQueue.orders (OrderQueue.enqueue isVIP x q)
                = take n (OrderQueue.orders q) ++ x :: drop n (OrderQueue.orders q)).
    { unfold OrderQueue.enqueue. destruct (isVIP x); simpl.
      - apply splice_insert_split.
      - exists (length (OrderQueue.orders q)).
        by rewrite firstn_all, drop_all. }
    destruct Hin as [n ->]. split_and!.
    + rewrite <- Permutation_middle. by rewrite take_drop.
    + rewrite <- (take_drop n (OrderQueue.orders q)) at 1.
      apply sublist_app; [done|]. by apply sublist_cons.
    + rewrite length_app. simpl.
      rewrite <- (take_drop n (OrderQueue.orders q)) at 3. rewrite length_app. lia.
  - unfold OrderQueue.dequeue. by destruct (OrderQueue.orders q).
  - unfold OrderQueue.isEmpty. by destruct (OrderQueue.orders q).
  - done.
  - done.
Qed.

(** ** OrderQueue, driven from a fresh queue *)

Lemma dequeue_n_ok {A} (isVIP : A -> bool) (q : OrderQueue.t A) :
  queue_ok isVIP q ->
  dequeue_n isVIP (OrderQueue.size q) q = (OrderQueue.getAll q, OrderQueue.new).
Proof.
  unfold OrderQueue.size, OrderQueue.getAll.
  destruct q as [l n]. simpl. revert n.
  induction l as [|x l IH]; intros n Hok.
  - destruct Hok as [Hc _]. simpl in *. by rewrite Hc.
  - pose proof (queue_ok_dequeue isVIP _ Hok) as Hok'.
    simpl in *. unfold OrderQueue.dequeue in *. simpl in *.
    by rewrite (IH _ Hok').
Qed.

(** X2. After any sequence of enqueue, dequeue and clear calls on a fresh
    queue, the cached VIP counter is the number of queued VIP orders;
    calling [dequeue] once per queued order hands the orders out in the
    order of the snapshot and leaves a queue equal to a fresh one: the array
    is empty and the counter is back at 0.  One more [dequeue] returns null
    and changes nothing. *)
Theorem queue_drains_to_fresh {A} (isVIP : A -> bool) (cs : list (QueueCall A)) :
  let q := queue_run isVIP cs OrderQueue.new in
  dequeue_n isVIP (OrderQueue.size q) q = (OrderQueue.getAll q, OrderQueue.new)
  /\ dequeue_n isVIP (S (OrderQueue.size q)) q = (OrderQueue.getAll q, OrderQueue.new)
  /\ OrderQueue.vipOrderCount q
     = Z.of_nat (length (List.filter isVIP (OrderQueue.getAll q))).
Proof.
  intros q. pose proof (queue_ok_run isVIP cs) as Hok. fold q in Hok.
  split_and!.
  - by apply dequeue_n_ok.
  - pose proof (dequeue_n_ok isVIP q Hok) as Hd.
    clear Hok. unfold OrderQueue.size, OrderQueue.getAll in *.
    destruct q as [l n]. simpl in *. revert n Hd.
    induction l as [|x l IH]; intros n Hd.
    + simpl in *. unfold OrderQueue.dequeue. simpl. done.
    + simpl in Hd |- *. unfold OrderQueue.dequeue in *. simpl in *.
      destruct (dequeue_n isVIP (length l) _) as [l1 q1] eqn:E1.
      injection Hd as -> ->.
      by rewrite (IH _ E1).
  - apply Hok.
Qed.

(** X3. After any sequence of calls on a fresh queue, [dequeue] returns null
    exactly when nothing is queued, and it hands out a normal order only
    when no VIP order is queued: the order it returns is the first VIP order
    of the snapshot if there is one, and the first normal order otherwise. *)
Theorem dequeue_serves_VIP_first {A} (isVIP : A -> bool) (cs : list (QueueCall A)) :
  let q := queue_run isVIP cs OrderQueue.new in
  (fst (OrderQueue.dequeue isVIP q) = None <-> OrderQueue.getAll q = [])
  /\ (forall x, fst (OrderQueue.dequeue isVIP q) = Some x ->
        isVIP x = false -> List.filter isVIP (OrderQueue.getAll q) = [])
  /\ fst (OrderQueue.dequeue isVIP q)
     = match List.filter isVIP (OrderQueue.getAll q) with
       | x :: _ => Some x
       | [] => head (List.filter (notVIP isVIP) (OrderQueue.getAll q))
       end.
Proof.
  intros q. pose proof (queue_ok_run isVIP cs) as Hok. fold q in Hok.
  destruct Hok as [_ Hp]. unfold OrderQueue.getAll, OrderQueue.dequeue.
  assert (Hhead : forall x l, OrderQueue.orders q = x :: l ->
            isVIP x = false -> List.filter isVIP (OrderQueue.orders q) = []).
  { intros x l Hq Hx. rewrite Hq in Hp |- *. simpl in *.
    assert (En : notVIP isVIP x = true) by (unfold notVIP; by rewrite Hx).
    rewrite Hx, En in *.
    destruct (List.filter isVIP l) as [|y l'] eqn:Ef; [done|].
    exfalso. simpl in Hp. injection Hp as <- _.
    assert (Hin : In x (List.filter isVIP l)) by (rewrite Ef; by left).
    apply filter_In in Hin as [_ Hin]. congruence. }
  split_and!.
  - by destruct (OrderQueue.orders q).
  - intros x Hx Hn. destruct (OrderQueue.orders q) as [|y l] eqn:Hq; [done|].
    simpl in Hx. injection Hx as ->. by apply (Hhead x l eq_refl).
  - destruct (OrderQueue.orders q) as [|y l] eqn:Hq; [done|]. simpl.
    destruct (isVIP y) eqn:Hy; [done|].
    pose proof (Hhead y l eq_refl Hy) as Hf. simpl in Hf.
    rewrite Hy in Hf. rewrite Hf.
    assert (En : notVIP isVIP y = true) by (unfold notVIP; by rewrite Hy).
    by rewrite En.
Qed.

(** ** class Bot on its own *)

(** X4. On an IDLE bot that holds nothing, [startProcessing(order)] followed
    by [stopProcessing()] returns that order and undoes the start: the bot
    object is what it was, the order is PENDING with its number and class
    unchanged, the timer that was started is no longer pending and no other
    timer, bot or order has been touched. *)
Theorem start_then_stop_restores (b : bref) (r : oref) (w : World) :
  Bot.status (botHeap w b) = BOT_STATUS.IDLE ->
  bot_consistent (botHeap w b) ->
  exists w1 w2,
    Bot_startProcessing b (Some r) w = Ok tt w1
    /\ Bot_stopProcessing b w1 = Ok (Some r) w2
    /\ botHeap w2 b = botHeap w b
    /\ (forall b', b' <> b -> botHeap w2 b' = botHeap w b')
    /\ orderHeap w2 r
       = Order.mk (Order.orderNumber (orderHeap w r)) (Order.type (orderHeap w r))
           ORDER_STATUS.PENDING
    /\ (forall r', r' <> r -> orderHeap w2 r' = orderHeap w r')
    /\ timers w2 (timerAlloc w) = None
    /\ (forall h, h <> timerAlloc w -> timers w2 h = timers w h).
Proof.
  intros Hs Hc.
  destruct (bot_consistent_cases _ Hc) as [(_ & Hco & Hto)|[Hp _]]; [|congruence].
  eexists. eexists. split.
  { unfold Bot_startProcessing, bind, get. rewrite Hs. reflexivity. }
  split.
  { unfold Bot_stopProcessing, bind, get. simpl. rewrite !upd_eq. simpl.
    rewrite !upd_eq. simpl. reflexivity. }
  simpl. split_and!.
  - rewrite !upd_eq. destruct (botHeap w b) as [id st co to]. simpl in *.
    by subst.
  - intros b' Hn. by rewrite !upd_ne.
  - by rewrite !upd_eq.
  - intros r' Hn. by rewrite !upd_ne.
  - by rewrite upd_eq.
  - intros h Hn. by rewrite !upd_ne.
Qed.

Lemma start_then_stop_restores_witness :
  Bot.status (botHeap one_bot_world 0) = BOT_STATUS.IDLE
  /\ bot_consistent (botHeap one_bot_world 0)
  /\ exists w1 w2,
       Bot_startProcessing 0 (Some 7) one_bot_world = Ok tt w1
       /\ Bot_stopProcessing 0 w1 = Ok (Some 7) w2
       /\ botHeap w2 0 = botHeap one_bot_world 0.
Proof.
  assert (Hs : Bot.status (botHeap one_bot_world 0) = BOT_STATUS.IDLE)
    by (vm_compute; reflexivity).
  assert (Hc : bot_consistent (botHeap one_bot_world 0)).
  { change (botHeap one_bot_world 0) with (Bot.mk 1 BOT_STATUS.IDLE None None).
    apply bot_consistent_idle. }
  split; [exact Hs|]. split; [exact Hc|].
  destruct (start_then_stop_restores 0 7 one_bot_world Hs Hc)
    as (w1 & w2 & H1 & H2 & H3 & _).
  exists w1, w2. split; [exact H1|]. split; [exact H2 | exact H3].
Defined.

(** X5. [completeOrder(onComplete)]: when the bot holds an order and a
    timer, the timer is cleared, the order is marked COMPLETE and the bot is
    IDLE and holds nothing before the callback is called, and the callback
    is called once, with that order, on that world (without a callback the
    method returns there).  When the bot holds no order and no timer, the
    callback is not called: the method returns normally whatever the
    callback is, and only sets the bot's status to IDLE. *)
Theorem completeOrder_calls_back_when_idle_again (b : bref) (w : World) :
  (forall r h,
     Bot.currentOrder (botHeap w b) = Some r ->
     Bot.processingTimeout (botHeap w b) = Some h ->
     exists w1,
       (forall k, Bot_completeOrder b (Some k) w = k r w1)
       /\ Bot_completeOrder b None w = Ok tt w1
       /\ botHeap w1 b = Bot.mk (Bot.botId (botHeap w b)) BOT_STATUS.IDLE None None
       /\ orderHeap w1 r = Order.complete (orderHeap w r)
       /\ timers w1 h = None
       /\ (forall b', b' <> b -> botHeap w1 b' = botHeap w b')
       /\ (forall r', r' <> r -> orderHeap w1 r' = orderHeap w r')
       /\ (forall h', h' <> h -> timers w1 h' = timers w h'))
  /\ (Bot.currentOrder (botHeap w b) = None ->
      Bot.processingTimeout (botHeap w b) = None ->
      exists w1,
        (forall onComplete, Bot_completeOrder b onComplete w = Ok tt w1)
        /\ botHeap w1 b = Bot.mk (Bot.botId (botHeap w b)) BOT_STATUS.IDLE None None
        /\ (forall b', b' <> b -> botHeap w1 b' = botHeap w b')
        /\ orderHeap w1 = orderHeap w /\ timers w1 = timers w).
Proof.
  split.
  - intros r h Hco Hto. eexists. split_and!.
    + intros k. unfold Bot_completeOrder, bind, get. rewrite Hto. simpl.
      rewrite upd_eq. simpl. rewrite Hco. reflexivity.
    + unfold Bot_completeOrder, bind, get. rewrite Hto. simpl.
      rewrite upd_eq. simpl. rewrite Hco. reflexivity.
    + simpl. by rewrite !upd_eq.
    + simpl. by rewrite !upd_eq.
    + simpl. by rewrite upd_eq.
    + intros b' Hn. simpl. by rewrite !upd_ne.
    + intros r' Hn. simpl. by rewrite !upd_ne.
    + intros h' Hn. simpl. by rewrite !upd_ne.
  - intros Hco Hto. eexists. split_and!.
    + intros k. unfold Bot_completeOrder, bind, get. rewrite Hto. simpl.
      rewrite Hco. reflexivity.
    + simpl. rewrite upd_eq. destruct (botHeap w b) as [id st co to].
      simpl in *. by subst.
    + intros b' Hn. simpl. by rewrite !upd_ne.
    + done.
    + done.
Qed.

Lemma completeOrder_calls_back_when_idle_again_witness :
  Bot.currentOrder (botHeap demo_world 1) = Some 1
  /\ Bot.processingTimeout (botHeap demo_world 1) = Some 1
  /\ exists w1,
       Bot_completeOrder 1 None demo_world = Ok tt w1
       /\ Order.status (orderHeap w1 1) = ORDER_STATUS.COMPLETE
       /\ Bot.status (botHeap w1 1) = BOT_STATUS.IDLE.
Proof.
  assert (Hc : Bot.currentOrder (botHeap demo_world 1) = Some 1)
    by (vm_compute; reflexivity).
  assert (Ht : Bot.processingTimeout (botHeap demo_world 1) = Some 1)
    by (vm_compute; reflexivity).
  split; [exact Hc|]. split; [exact Ht|].
  destruct (completeOrder_calls_back_when_idle_again 1 demo_world) as [Hrun _].
  destruct (Hrun 1 1 Hc Ht) as (w1 & _ & Hn & Hb & Ho & _).
  exists w1. split; [exact Hn|]. split.
  - rewrite Ho. reflexivity.
  - rewrite Hb. reflexivity.
Defined.

(** ** getStatus *)

Lemma filter_negb_length {B} (f : B -> bool) (l : list B) :
  length (List.filter f l) + length (List.filter (fun x => negb (f x)) l) = length l.
Proof.
  induction l as [|x l IH]; [done|]. simpl. destruct (f x); simpl; lia.
Qed.

Lemma omap_length_filter {B C} (f : B -> option C) (g : B -> bool) (l : list B) :
  (forall x, x ∈ l -> g x = true <-> is_Some (f x)) ->
  length (omap f l) = length (List.filter g l).
Proof.
  induction l as [|x l IH]; intros H; [done|].
  assert (IH' : length (omap f l) = length (List.filter g l)).
  { apply IH. intros y Hy. apply H. by right. }
  cbn. specialize (H x (list_elem_of_here x l)).
  destruct (f x) as [c|], (g x); simpl; try lia.
  - assert (Hf : false = true) by (apply H; eauto). discriminate.
  - assert (Hs : is_Some (@None C)) by by apply H. by destruct Hs.
Qed.

Lemma held_length w :
  WF w ->
  length (heldOrders w)
  = length (List.filter (fun bot => negb (isIdle_at w bot)) (bots w)).
Proof.
  intros Hwf. unfold heldOrders. apply omap_length_filter. intros b Hb.
  unfold isIdle_at, Bot.isIdle.
  destruct (wf_bot w Hwf b) as [[H1 H2] _].
  destruct (Bot.status (botHeap w b)) eqn:Es; simpl; split; try done.
  - intros Hs. apply H2 in Hs. discriminate.
  - intros _. by apply H1.
Qed.

(** X6. The counts returned by [getStatus] add up.  In every world the
    orders are VIP or normal and the bots idle or processing; and in every
    world reached by completed operations each order ever created is
    counted exactly once as pending, as being processed by a bot, or as
    completed. *)
Theorem getStatus_counts_add_up :
  (forall w,
     Status.totalOrders (getStatus w)
     = Status.vipOrders (getStatus w) + Status.normalOrders (getStatus w)
     /\ Status.activeBots (getStatus w)
        = Status.idleBots (getStatus w) + Status.processingBots (getStatus w)
     /\ Status.pendingOrders (getStatus w) = length (getPendingOrders w)
     /\ Status.completedOrders (getStatus w) = length (getCompletedOrders w)
     /\ Status.activeBots (getStatus w) = length (getBots w))
  /\ (forall logger w,
        reachable logger w ->
        Status.totalOrders (getStatus w)
        = Status.pendingOrders (getStatus w)
          + Status.processingBots (getStatus w)
          + Status.completedOrders (getStatus w)).
Proof.
  split.
  - intros w. unfold getStatus. simpl. split_and!; try done.
    + symmetry. apply filter_negb_length.
    + symmetry. apply filter_negb_length.
  - intros logger w Hr. destruct (reachable_WF logger w Hr) as [Hwf _].
    unfold getStatus. simpl. rewrite <- (held_length w Hwf).
    pose proof (Permutation_length (wf_places w Hwf)) as Hl.
    rewrite !length_app, length_seq in Hl.
    rewrite (wf_orders w Hwf), length_seq.
    unfold getPendingOrders, OrderQueue.getAll in Hl. unfold OrderQueue.size. lia.
Qed.

Lemma getStatus_counts_add_up_witness :
  reachable silent demo_world
  /\ getStatus demo_world = Status.mk 4 1 3 1 1 2 0 2
  /\ Status.totalOrders (getStatus demo_world)
     = Status.pendingOrders (getStatus demo_world)
       + Status.processingBots (getStatus demo_world)
       + Status.completedOrders (getStatus demo_world).
Proof.
  destruct getStatus_counts_add_up as [_ Hsum].
  split; [exact demo_world_reachable|]. split; [vm_compute; reflexivity|].
  exact (Hsum silent demo_world demo_world_reachable).
Defined.

(** ** Between completed operations *)

(** X7. The scheduler is work-conserving: in every world reached by
    completed operations there is never a pending order while a bot of the
    pool is idle.  In terms of [getStatus]: the pending count or the idle
    count is 0. *)
Theorem no_idle_bot_while_pending logger (w : World) :
  reachable logger w ->
  (getPendingOrders w = [] \/ idleBots w = [])
  /\ (Status.pendingOrders (getStatus w) = 0 \/ Status.idleBots (getStatus w) = 0)
  /\ (forall r b, r ∈ getPendingOrders w -> b ∈ getBots w ->
        Bot.status (botHeap w b) = BOT_STATUS.PROCESSING).
Proof.
  intros Hr. destruct (reachable_WF logger w Hr) as [Hwf Hsat].
  split_and!.
  - exact Hsat.
  - unfold getStatus. simpl. unfold OrderQueue.size.
    destruct Hsat as [Hs|Hs]; [left | right].
    + unfold getPendingOrders, OrderQueue.getAll in Hs. by rewrite Hs.
    + change (length (idleBots w) = 0). by rewrite Hs.
  - intros r b Hin Hb. destruct Hsat as [Hs|Hs].
    + rewrite Hs in Hin. by apply elem_of_nil in Hin.
    + destruct (Bot.status (botHeap w b)) eqn:Es; [|done].
      assert (Hi : b ∈ idleBots w) by by apply elem_of_idleBots.
      rewrite Hs in Hi. by apply elem_of_nil in Hi.
Qed.

Lemma no_idle_bot_while_pending_witness :
  reachable silent demo_world
  /\ getPendingOrders demo_world = [3]
  /\ idleBots demo_world = [].
Proof.
  destruct (no_idle_bot_while_pending silent demo_world demo_world_reachable)
    as ([H|H] & _).
  - exfalso. vm_compute in H. discriminate H.
  - split; [exact demo_world_reachable|]. split; [vm_compute; reflexivity | exact H].
Defined.

(** X8. In every world reached by completed operations, preemptions
    included, the pending snapshot lists every pending VIP order before
    every pending normal order, and the queue's cached counter is the number
    of pending VIP orders. *)
Theorem pending_VIP_before_normal logger (w : World) :
  reachable logger w ->
  getPendingOrders w
  = List.filter (isVIP_at w) (getPendingOrders w)
      ++ List.filter (notVIP (isVIP_at w)) (getPendingOrders w)
  /\ OrderQueue.vipOrderCount (orderQueue w)
     = Z.of_nat (length (List.filter (isVIP_at w) (getPendingOrders w)))
  /\ (forall i j r1 r2, i < j ->
        getPendingOrders w !! i = Some r1 -> getPendingOrders w !! j = Some r2 ->
        Order.type (orderHeap w r2) = VIP -> Order.type (orderHeap w r1) = VIP).
Proof.
  intros Hr. destruct (reachable_WF logger w Hr) as [Hwf _].
  destruct (wf_queue w Hwf) as [Hc Hp].
  split_and!; [exact Hp | exact Hc |].
  intros i j r1 r2 Hij H1 H2 Hv.
  set (vs := List.filter (isVIP_at w) (getPendingOrders w)).
  set (ns := List.filter (notVIP (isVIP_at w)) (getPendingOrders w)).
  assert (Hp' : getPendingOrders w = vs ++ ns) by exact Hp.
  rewrite Hp' in H1, H2.
  destruct (decide (i < length vs)) as [Hi|Hi].
  - rewrite lookup_app_l in H1 by done.
    apply list_elem_of_lookup_2, elem_of_filter_bool in H1 as [_ H1].
    unfold isVIP_at, Order.isVIP in H1. by destruct (Order.type (orderHeap w r1)).
  - rewrite lookup_app_r in H2 by lia.
    apply list_elem_of_lookup_2, elem_of_filter_bool in H2 as [_ H2].
    unfold notVIP, isVIP_at, Order.isVIP in H2. rewrite Hv in H2. discriminate.
Qed.

Lemma pending_VIP_before_normal_witness :
  reachable silent demo_world
  /\ OrderQueue.vipOrderCount (orderQueue demo_world) = 0%Z.
Proof.
  destruct (pending_VIP_before_normal silent demo_world demo_world_reachable)
    as (_ & Hc & _).
  split; [exact demo_world_reachable|]. rewrite Hc. vm_compute. reflexivity.
Defined.

(** ** What each operation gives its caller *)

Lemma zip_nil_r {B C} (l : list B) : zip l (@nil C) = [].
Proof. by destruct l. Qed.

Section CreateOutcome.
Variable logger : list Msg -> Msg -> bool.
Variables (ty : ORDER_TYPES) (w : World).
Hypothesis Hwf : WF w.

(* the world in which _createOrder starts its assignment pass *)
Local Abbreviation w1 :=
  (set_logged
     (fun l => l ++ [MsgCreated ty (nextOrderNumber w) ORDER_STATUS.PENDING])
     (after_create ty w)).

Lemma create_isVIP_new : isVIP_at w1 (orderAlloc w) = Order.isVIP (Order.new 0 ty).
Proof.
  unfold isVIP_at.
  change (orderHeap w1 (orderAlloc w)) with (orderHeap (after_create ty w) (orderAlloc w)).
  by rewrite after_create_order.
Qed.

Lemma create_pending :
  getPendingOrders w1
  = if Order.isVIP (Order.new 0 ty)
    then List.filter (isVIP_at w) (getPendingOrders w)
           ++ orderAlloc w :: List.filter (notVIP (isVIP_at w)) (getPendingOrders w)
    else getPendingOrders w ++ [orderAlloc w].
Proof.
  assert (Hext : forall x, x ∈ getPendingOrders w -> isVIP_at w1 x = isVIP_at w x).
  { intros x Hx. unfold isVIP_at.
    change (orderHeap w1 x) with (orderHeap (after_create ty w) x).
    rewrite after_create_orders; [done|].
    apply (WF_pending_alloc w Hwf) in Hx. lia. }
  transitivity (OrderQueue.orders
                  (OrderQueue.enqueue (isVIP_at w1) (orderAlloc w) (orderQueue w)));
    [reflexivity|].
  rewrite (enqueue_orders (isVIP_at w1) _ _ (after_create_queue_ok ty w Hwf)).
  rewrite create_isVIP_new. fold (getPendingOrders w).
  rewrite (filter_ext_elem (isVIP_at w1) (isVIP_at w)) by done.
  rewrite (filter_ext_elem (notVIP (isVIP_at w1)) (notVIP (isVIP_at w))); [done|].
  intros x Hx. unfold notVIP. by rewrite Hext.
Qed.
End CreateOutcome.

(** X9. What [_createOrder] (so [createNormalOrder] and [createVIPOrder])
    returns in a world reached by completed operations: a new order with the
    next order number and the requested class.  If no bot is idle the order
    is PENDING and sits in the queue where the priority rule puts it (a VIP
    order after the pending VIP orders, a normal order at the end), the
    pending count growing by one; if a bot is idle, nothing was pending, the
    first idle bot of the pool holds the order, which is PROCESSING, and the
    queue is still empty.  The call returns whenever the logger does. *)
Theorem createOrder_outcome logger (ty : ORDER_TYPES) (w : World) :
  reachable logger w ->
  (forall r w', _createOrder logger ty w = Ok r w' ->
     (r ∉ orders w)
     /\ orders w' = orders w ++ [r]
     /\ Order.orderNumber (orderHeap w' r) = nextOrderNumber w
     /\ Order.type (orderHeap w' r) = ty
     /\ (idleBots w = [] ->
           Order.status (orderHeap w' r) = ORDER_STATUS.PENDING
           /\ getPendingOrders w'
              = (if Order.isVIP (Order.new 0 ty)
                 then List.filter (isVIP_at w) (getPendingOrders w)
                        ++ r :: List.filter (notVIP (isVIP_at w)) (getPendingOrders w)
                 else getPendingOrders w ++ [r])
           /\ pendingOrders w' = S (pendingOrders w))
     /\ (forall b0 l, idleBots w = b0 :: l ->
           getPendingOrders w = []
           /\ Order.status (orderHeap w' r) = ORDER_STATUS.PROCESSING
           /\ Bot.status (botHeap w' b0) = BOT_STATUS.PROCESSING
           /\ Bot.currentOrder (botHeap w' b0) = Some r
           /\ getPendingOrders w' = []))
  /\ (quiet logger -> exists r w', _createOrder logger ty w = Ok r w').
Proof.
  intros Hr. destruct (reachable_WF logger w Hr) as [Hwf Hsat]. split.
  2: { intros Hq.
       destruct (post_quiet logger _ _ _ Hq (createOrder_post logger ty w Hwf))
         as (r & w' & Hw' & _). eauto. }
  intros r w' Hrun. pose proof (createOrder_post logger ty w Hwf) as Hp.
  rewrite Hrun in Hp. simpl in Hp. destruct Hp as (-> & Hwf' & _ & _ & Has).
  set (w1 := set_logged _ (after_create ty w)) in Has.
  assert (Hidle : idleBots w1 = idleBots w) by reflexivity.
  assert (Hpend : getPendingOrders w1
                  = if Order.isVIP (Order.new 0 ty)
                    then List.filter (isVIP_at w) (getPendingOrders w)
                           ++ orderAlloc w
                           :: List.filter (notVIP (isVIP_at w)) (getPendingOrders w)
                    else getPendingOrders w ++ [orderAlloc w])
    by apply (create_pending ty w Hwf).
  assert (Hnew : orderHeap w1 (orderAlloc w) = Order.new (nextOrderNumber w) ty)
    by apply (after_create_order ty w).
  split_and!.
  - rewrite (wf_orders w Hwf), elem_of_seq. lia.
  - by rewrite (as_created _ _ _ Has).
  - by rewrite (as_number _ _ _ Has), Hnew.
  - by rewrite (as_type _ _ _ Has), Hnew.
  - intros Hi. rewrite Hi in Hidle.
    assert (Hbs : bindings w1 = []) by (unfold bindings; by rewrite Hidle).
    rewrite Hbs in Has.
    assert (Hpe : getPendingOrders w' = getPendingOrders w1)
      by by rewrite (as_pending _ _ _ Has).
    split_and!.
    + rewrite (as_orders _ _ _ Has) by apply not_elem_of_nil. by rewrite Hnew.
    + by rewrite Hpe.
    + change (length (getPendingOrders w') = S (length (getPendingOrders w))).
      rewrite Hpe, Hpend. destruct (Order.isVIP (Order.new 0 ty)).
      * pose proof (filter_negb_length (isVIP_at w) (getPendingOrders w)) as Hl.
        change (notVIP (isVIP_at w)) with (fun x => negb (isVIP_at w x)).
        rewrite length_app. simpl. lia.
      * rewrite length_app. simpl. lia.
  - intros b0 l Hi. rewrite Hi in Hidle.
    assert (Hempty : getPendingOrders w = []).
    { destruct Hsat as [Hs|Hs]; [done | congruence]. }
    assert (Hq1 : getPendingOrders w1 = [orderAlloc w]).
    { rewrite Hpend, Hempty. by destruct (Order.isVIP (Order.new 0 ty)). }
    assert (Hbs : bindings w1 = [(b0, orderAlloc w)]).
    { unfold bindings. rewrite Hidle, Hq1. by destruct l. }
    rewrite Hbs in Has.
    destruct (as_bot _ _ _ Has b0 (orderAlloc w)) as [Hs0 Hc0]; [by left|].
    split_and!; try done.
    + by rewrite (as_order _ _ _ Has b0) by by left.
    + by rewrite (as_pending _ _ _ Has), Hq1.
Qed.

Lemma createOrder_outcome_witness :
  reachable silent demo_world
  /\ exists w', _createOrder silent VIP demo_world = Ok 4 w'
       /\ Order.orderNumber (orderHeap w' 4) = 1005
       /\ getPendingOrders w' = [4; 3].
Proof.
  assert (Hi : idleBots demo_world = []) by (vm_compute; reflexivity).
  destruct (createOrder_outcome silent VIP demo_world demo_world_reachable)
    as [Hrun Hq].
  split; [exact demo_world_reachable|].
  exists (world_of (_createOrder silent VIP demo_world)).
  assert (He : _createOrder silent VIP demo_world
               = Ok 4 (world_of (_createOrder silent VIP demo_world)))
    by (vm_compute; reflexivity).
  destruct (Hrun _ _ He) as (_ & _ & Hn & _ & Hidle & _).
  destruct (Hidle Hi) as (_ & Hpe & _).
  split; [exact He|]. split; [exact Hn|]. rewrite Hpe. vm_compute. reflexivity.
Defined.

Section AddBotOutcome.
Variable logger : list Msg -> Msg -> bool.
Variable w : World.
Hypothesis Hwf : WF w.

(* the world in which addBot starts its assignment pass *)
Local Abbreviation w1 :=
  (set_logged (fun l => l ++ [MsgBotCreated (nextBotId w)]) (after_addBot w)).

Lemma addBot_idleBots : idleBots w1 = idleBots w ++ [botAlloc w].
Proof.
  unfold idleBots.
  transitivity (List.filter (isIdle_at w1) (bots w ++ [botAlloc w])); [reflexivity|].
  rewrite filter_app. f_equal.
  - apply filter_ext_elem. intros x Hx. unfold isIdle_at.
    change (botHeap w1 x) with (botHeap (after_addBot w) x).
    by rewrite (after_addBot_pool w Hwf).
  - simpl. unfold isIdle_at.
    change (botHeap w1 (botAlloc w)) with (botHeap (after_addBot w) (botAlloc w)).
    by rewrite after_addBot_bot.
Qed.
End AddBotOutcome.

(** X10. What [addBot] returns in a world reached by completed operations:
    a new bot with the next bot id, appended to the pool.  If an order is
    pending, the new bot is PROCESSING the front order (the VIP order that
    has waited longest, if any) and that order has left the queue; if
    nothing is pending the bot is IDLE and holds nothing.  No other bot is
    touched.  The call returns whenever the logger does. *)
Theorem addBot_outcome logger (w : World) :
  reachable logger w ->
  (forall b w', addBot logger w = Ok b w' ->
     (b ∉ bots w)
     /\ bots w' = bots w ++ [b]
     /\ Bot.botId (botHeap w' b) = nextBotId w
     /\ (forall b', b' <> b -> botHeap w' b' = botHeap w b')
     /\ (getPendingOrders w = [] ->
           botHeap w' b = Bot.new (nextBotId w) /\ getPendingOrders w' = [])
     /\ (forall o rest, getPendingOrders w = o :: rest ->
           Bot.status (botHeap w' b) = BOT_STATUS.PROCESSING
           /\ Bot.currentOrder (botHeap w' b) = Some o
           /\ Order.status (orderHeap w' o) = ORDER_STATUS.PROCESSING
           /\ getPendingOrders w' = rest))
  /\ (quiet logger -> exists b w', addBot logger w = Ok b w').
Proof.
  intros Hr. destruct (reachable_WF logger w Hr) as [Hwf Hsat]. split.
  2: { intros Hq.
       destruct (post_quiet logger _ _ _ Hq (addBot_post logger w Hwf))
         as (b & w' & Hw' & _). eauto. }
  intros b w' Hrun. pose proof (addBot_post logger w Hwf) as Hp.
  rewrite Hrun in Hp. simpl in Hp. destruct Hp as (-> & Hwf' & _ & _ & Has).
  set (w1 := set_logged _ (after_addBot w)) in Has.
  assert (Hidle : idleBots w1 = idleBots w ++ [botAlloc w])
    by apply (addBot_idleBots w Hwf).
  assert (Hpend : getPendingOrders w1 = getPendingOrders w) by reflexivity.
  assert (Hnew : botHeap w1 (botAlloc w) = Bot.new (nextBotId w))
    by apply (after_addBot_bot w).
  assert (Hfresh : botAlloc w ∉ bots w).
  { intros Hin. apply (wf_pool_alloc w Hwf) in Hin. lia. }
  assert (Hsub : forall b', b' ∈ (bindings w1).*1 -> b' = botAlloc w \/ b' ∈ idleBots w).
  { intros b' Hin. apply list_elem_of_fmap in Hin as [[b1 r1] [-> Hin]].
    apply elem_of_zip_l in Hin. rewrite Hidle in Hin. simpl in *.
    apply elem_of_app in Hin as [Hin|Hin]; [by right|].
    apply list_elem_of_singleton in Hin. by left. }
  split_and!.
  - done.
  - by rewrite (as_pool _ _ _ Has).
  - by rewrite (as_botId _ _ _ Has), Hnew.
  - intros b' Hne.
    assert (Hb' : botHeap w1 b' = botHeap w b') by by apply (after_addBot_bots w).
    destruct (decide (b' ∈ (bindings w1).*1)) as [Hin|Hout].
    + destruct (Hsub b' Hin) as [->|Hi]; [done|]. exfalso.
      destruct Hsat as [Hs|Hs].
      * unfold bindings in Hin. rewrite Hpend, Hs, zip_nil_r in Hin.
        by apply elem_of_nil in Hin.
      * rewrite Hs in Hi. by apply elem_of_nil in Hi.
    + by rewrite (as_bots _ _ _ Has).
  - intros Hempty.
    assert (Hbs : bindings w1 = []).
    { unfold bindings. by rewrite Hpend, Hempty, zip_nil_r. }
    rewrite Hbs in Has. split.
    + by rewrite (as_bots _ _ _ Has) by apply not_elem_of_nil.
    + by rewrite (as_pending _ _ _ Has), Hpend, Hempty.
  - intros o rest Hq.
    assert (Hi : idleBots w = []).
    { destruct Hsat as [Hs|Hs]; [congruence | done]. }
    assert (Hbs : bindings w1 = [(botAlloc w, o)]).
    { unfold bindings. by rewrite Hidle, Hi, Hpend, Hq. }
    rewrite Hbs in Has.
    destruct (as_bot _ _ _ Has (botAlloc w) o) as [Hs0 Hc0]; [by left|].
    split_and!; try done.
    + by rewrite (as_order _ _ _ Has (botAlloc w)) by by left.
    + by rewrite (as_pending _ _ _ Has), Hpend, Hq.
Qed.

Lemma addBot_outcome_witness :
  reachable silent demo_world
  /\ getPendingOrders demo_world = [3]
  /\ exists w', addBot silent demo_world = Ok 2 w'
       /\ Bot.botId (botHeap w' 2) = 3
       /\ Bot.currentOrder (botHeap w' 2) = Some 3
       /\ getPendingOrders w' = [].
Proof.
  assert (Hp : getPendingOrders demo_world = [3]) by (vm_compute; reflexivity).
  destruct (addBot_outcome silent demo_world demo_world_reachable) as [Hrun _].
  split; [exact demo_world_reachable|]. split; [exact Hp|].
  exists (world_of (addBot silent demo_world)).
  assert (He : addBot silent demo_world = Ok 2 (world_of (addBot silent demo_world)))
    by (vm_compute; reflexivity).
  destruct (Hrun _ _ He) as (_ & _ & Hid & _ & _ & Hnext).
  destruct (Hnext 3 [] Hp) as (_ & Hc & _ & Hpe).
  split; [exact He|]. split; [exact Hid|]. split; [exact Hc | exact Hpe].
Defined.

(** ** A completion with nothing left to do *)

Section CompletionIdle.
Variable logger : list Msg -> Msg -> bool.
Variables (h : timer) (b : bref) (t : oref) (w : World).
Hypothesis Hwf : WF w.
Hypothesis Hh : timers w h = Some b.
Hypothesis Hco : Bot.currentOrder (botHeap w b) = Some t.
Hypothesis Hempty : getPendingOrders w = [].

(* the world in which the completion handler starts its assignment pass *)
Local Abbreviation w1 :=
  (set_logged
     (fun l => l ++ [MsgCompleted (Bot.botId (botHeap w b))
                       (Order.type (orderHeap w t))
                       (Order.orderNumber (orderHeap w t)) ORDER_STATUS.COMPLETE])
     (after_complete b t h w)).

Lemma idle_completion_bindings : bindings w1 = [].
Proof.
  unfold bindings.
  assert (Hp : getPendingOrders w1 = getPendingOrders w) by reflexivity.
  by rewrite Hp, Hempty, zip_nil_r.
Qed.

Lemma idle_completion_logged :
  logged w1
  = logged w ++ [MsgCompleted (Bot.botId (botHeap w b)) (Order.type (orderHeap w t))
                   (Order.orderNumber (orderHeap w t)) ORDER_STATUS.COMPLETE].
Proof. reflexivity. Qed.

Lemma idle_completion_pass w2 :
  _assignOrdersToIdleBots logger w1 = Ok tt w2 ->
  (forall x, botHeap w2 x = botHeap (after_complete b t h w) x)
  /\ (forall r, orderHeap w2 r = orderHeap (after_complete b t h w) r)
  /\ getPendingOrders w2 = []
  /\ completedOrders w2 = completedOrders w ++ [t]
  /\ logged w2 = logged w1.
Proof.
  intros Ha. pose proof (assign_post logger w1 (completion_WF1 h b t w Hwf Hh Hco)) as Hp.
  rewrite Ha in Hp. simpl in Hp. destruct Hp as (_ & _ & Has & _).
  rewrite idle_completion_bindings in Has. split_and!.
  - intros x. rewrite (as_bots _ _ _ Has) by apply not_elem_of_nil. reflexivity.
  - intros r. rewrite (as_orders _ _ _ Has) by apply not_elem_of_nil. reflexivity.
  - rewrite (as_pending _ _ _ Has). simpl.
    assert (Hp : getPendingOrders w1 = getPendingOrders w) by reflexivity.
    by rewrite Hp.
  - rewrite (as_completed _ _ _ Has). apply (after_complete_completed b t h w).
  - rewrite (as_logged _ _ _ Has). simpl. apply app_nil_r.
Qed.

Lemma timerFires_Ok_idle w' :
  timerFires logger h w = Ok tt w' ->
  exists w2, _assignOrdersToIdleBots logger w1 = Ok tt w2
    /\ w' = set_logged (fun l => l ++ [MsgNowIdle (Bot.botId (botHeap w2 b))]) w2.
Proof.
  rewrite (timerFires_unfold logger h b t w Hwf Hh Hco).
  unfold bind at 1, log at 1. destruct (logger _ _); [done|].
  unfold bind at 1.
  destruct (_assignOrdersToIdleBots logger _) as [[] w2|] eqn:Ha; [|done].
  destruct (idle_completion_pass w2 Ha) as (Hb2 & _ & Hp2 & _).
  assert (Hq2 : OrderQueue.isEmpty (orderQueue w2) = true) by by apply isEmpty_true.
  assert (Hi2 : isIdle_at w2 b = true).
  { unfold isIdle_at. by rewrite Hb2, after_complete_bot. }
  unfold bind, get. rewrite Hq2, Hi2. simpl.
  unfold log. destruct (logger _ _); [done|]. intros [= <-]. by exists w2.
Qed.
End CompletionIdle.

(** X11. In a world reached by completed operations, let the pending timer
    [h] of bot [b], which holds order [t], fire while nothing is pending.
    If the handler returns, [b] is IDLE and holds neither an order nor a
    timer, [t] is COMPLETE and the newest completed order, the queue is
    still empty, no other bot is touched, and exactly two messages were
    logged: the completion of [t] by [b], then that [b] is now idle.  The
    handler returns whenever the logger does. *)
Theorem completion_with_empty_queue logger (h : timer) (b : bref) (t : oref)
    (w : World) :
  reachable logger w ->
  timers w h = Some b ->
  Bot.currentOrder (botHeap w b) = Some t ->
  getPendingOrders w = [] ->
  (forall w', timerFires logger h w = Ok tt w' ->
     botHeap w' b = Bot.mk (Bot.botId (botHeap w b)) BOT_STATUS.IDLE None None
     /\ Order.status (orderHeap w' t) = ORDER_STATUS.COMPLETE
     /\ completedOrders w' = completedOrders w ++ [t]
     /\ getPendingOrders w' = []
     /\ (forall b', b' <> b -> botHeap w' b' = botHeap w b')
     /\ logged w'
        = logged w
            ++ [MsgCompleted (Bot.botId (botHeap w b)) (Order.type (orderHeap w t))
                  (Order.orderNumber (orderHeap w t)) ORDER_STATUS.COMPLETE;
                MsgNowIdle (Bot.botId (botHeap w b))])
  /\ (quiet logger -> exists w', timerFires logger h w = Ok tt w').
Proof.
  intros Hr Hh Hco Hempty. destruct (reachable_WF logger w Hr) as [Hwf Hsat]. split.
  2: { intros Hq.
       destruct (post_quiet logger _ _ _ Hq (timerFires_post logger h w Hwf))
         as ([] & w' & Hw' & _). eauto. }
  intros w' Hrun.
  destruct (timerFires_Ok_idle logger h b t w Hwf Hh Hco Hempty w' Hrun)
    as (w2 & Ha & ->).
  destruct (idle_completion_pass logger h b t w Hwf Hh Hco Hempty w2 Ha)
    as (Hb2 & Ho2 & Hp2 & Hc2 & Hl2).
  split_and!.
  - transitivity (botHeap w2 b); [reflexivity|].
    rewrite Hb2. apply after_complete_bot.
  - transitivity (Order.status (orderHeap w2 t)); [reflexivity|].
    by rewrite Ho2, after_complete_order.
  - exact Hc2.
  - exact Hp2.
  - intros b' Hne. transitivity (botHeap w2 b'); [reflexivity|].
    rewrite Hb2. by apply after_complete_bots.
  - transitivity (logged w2 ++ [MsgNowIdle (Bot.botId (botHeap w2 b))]);
      [reflexivity|].
    rewrite Hl2, Hb2, after_complete_bot, (idle_completion_logged h b t w).
    by rewrite <- app_assoc.
Qed.

Lemma busy_world_reachable : reachable silent busy_world.
Proof. apply (exec_reachable silent busy_events). vm_compute. reflexivity. Qed.

Lemma completion_with_empty_queue_witness :
  reachable silent busy_world
  /\ timers busy_world 0 = Some 0
  /\ Bot.currentOrder (botHeap busy_world 0) = Some 0
  /\ getPendingOrders busy_world = []
  /\ exists w', timerFires silent 0 busy_world = Ok tt w'
       /\ botHeap w' 0 = Bot.mk 1 BOT_STATUS.IDLE None None
       /\ completedOrders w' = [0].
Proof.
  assert (Ht : timers busy_world 0 = Some 0) by (vm_compute; reflexivity).
  assert (Hc : Bot.currentOrder (botHeap busy_world 0) = Some 0)
    by (vm_compute; reflexivity).
  assert (Hp : getPendingOrders busy_world = []) by (vm_compute; reflexivity).
  destruct (completion_with_empty_queue silent 0 0 0 busy_world
              busy_world_reachable Ht Hc Hp) as [Hrun _].
  split; [exact busy_world_reachable|]. split; [exact Ht|].
  split; [exact Hc|]. split; [exact Hp|].
  exists (world_of (timerFires silent 0 busy_world)).
  assert (He : timerFires silent 0 busy_world
               = Ok tt (world_of (timerFires silent 0 busy_world)))
    by (vm_compute; reflexivity).
  destruct (Hrun _ He) as (Hb & _ & Hco & _).
  split; [exact He|]. split.
  - rewrite Hb. vm_compute. reflexivity.
  - rewrite Hco. vm_compute. reflexivity.
Defined.

(** ** Removing an idle bot *)

(** X12. In a world reached by completed operations whose newest bot [b] is
    IDLE, nothing is pending, and [removeBot], if it returns, returns [b]
    and changes nothing but the pool, which loses its last element, and the
    log, which gains the one message that an idle bot was destroyed: no
    bot, order, queue entry, completed order or timer is touched.  The call
    returns whenever the logger does. *)
Theorem removeBot_idle_changes_pool_only logger (b : bref) (init : list bref)
    (w : World) :
  reachable logger w ->
  bots w = init ++ [b] ->
  Bot.status (botHeap w b) = BOT_STATUS.IDLE ->
  getPendingOrders w = []
  /\ (forall res w', removeBot logger w = Ok res w' ->
        res = Some b
        /\ bots w' = init
        /\ (forall b', botHeap w' b' = botHeap w b')
        /\ (forall r, orderHeap w' r = orderHeap w r)
        /\ getPendingOrders w' = []
        /\ completedOrders w' = completedOrders w
        /\ (forall h, timers w' h = timers w h)
        /\ logged w' = logged w ++ [MsgDestroyedIdle (Bot.botId (botHeap w b))])
  /\ (quiet logger -> exists w', removeBot logger w = Ok (Some b) w').
Proof.
  intros Hr Hp Hst. destruct (reachable_WF logger w Hr) as [Hwf Hsat].
  destruct (WF_idle w Hwf b Hst) as [Hco Hto].
  pose proof (Saturated_after_pop b init w Hwf Hsat Hp Hst) as Hempty.
  pose proof (removeBot_idle logger b init w Hp Hto Hco) as He.
  unfold bind, log, ret in He.
  split; [exact Hempty|]. split.
  - intros res w' Hrun. rewrite He in Hrun.
    destruct (logger _ _); [done|]. injection Hrun as <- <-.
    split_and!; try done.
    change (removelast (bots w) = init). by rewrite Hp, removelast_last.
  - intros Hq. rewrite He.
    destruct (logger _ _) eqn:Hl; [by rewrite Hq in Hl|]. eauto.
Qed.

Lemma one_bot_world_reachable : reachable silent one_bot_world.
Proof. apply (exec_reachable silent [EvAddBot]). vm_compute. reflexivity. Qed.

Lemma removeBot_idle_changes_pool_only_witness :
  reachable silent one_bot_world
  /\ bots one_bot_world = [] ++ [0]
  /\ Bot.status (botHeap one_bot_world 0) = BOT_STATUS.IDLE
  /\ exists w', removeBot silent one_bot_world = Ok (Some 0) w' /\ bots w' = [].
Proof.
  assert (Hp : bots one_bot_world = [] ++ [0]) by (vm_compute; reflexivity).
  assert (Hs : Bot.status (botHeap one_bot_world 0) = BOT_STATUS.IDLE)
    by (vm_compute; reflexivity).
  destruct (removeBot_idle_changes_pool_only silent 0 [] one_bot_world
              one_bot_world_reachable Hp Hs) as (_ & Hrun & _).
  split; [exact one_bot_world_reachable|]. split; [exact Hp|]. split; [exact Hs|].
  exists (world_of (removeBot silent one_bot_world)).
  assert (He : removeBot silent one_bot_world
               = Ok (Some 0) (world_of (removeBot silent one_bot_world)))
    by (vm_compute; reflexivity).
  destruct (Hrun _ _ He) as (_ & Hb & _).
  split; [exact He | exact Hb].
Defined.

(** ** What the past fixes *)

Lemma history_refl w : history w w.
Proof. unfold history. split_and!; try reflexivity; by intros. Qed.

Lemma history_trans w1 w2 w3 : history w1 w2 -> history w2 w3 -> history w1 w3.
Proof.
  intros (Ho & Hc & Ha & Hb & Hn & Hi) (Ho' & Hc' & Ha' & Hb' & Hn' & Hi').
  unfold history. split_and!.
  - by etrans.
  - by etrans.
  - lia.
  - lia.
  - intros r Hlt. destruct (Hn' r) as [-> ->]; [lia|]. by apply Hn.
  - intros b Hlt. rewrite Hi' by lia. by apply Hi.
Qed.

Lemma history_Assigned bs w1 w2 : Assigned bs w1 w2 -> history w1 w2.
Proof.
  intros Has. unfold history. split_and!.
  - by rewrite (as_created _ _ _ Has).
  - by rewrite (as_completed _ _ _ Has).
  - by rewrite (as_orderAlloc _ _ _ Has).
  - by rewrite (as_botAlloc _ _ _ Has).
  - intros r _. by rewrite (as_number _ _ _ Has), (as_type _ _ _ Has).
  - intros b _. by rewrite (as_botId _ _ _ Has).
Qed.

Lemma history_after_create ty w : history w (after_create ty w).
Proof.
  unfold history. split_and!.
  - by apply prefix_app_r.
  - reflexivity.
  - simpl. lia.
  - reflexivity.
  - intros r Hlt. rewrite after_create_orders by lia. done.
  - by intros.
Qed.

Lemma history_after_addBot w : history w (after_addBot w).
Proof.
  unfold history. split_and!.
  - reflexivity.
  - reflexivity.
  - reflexivity.
  - simpl. lia.
  - by intros.
  - intros b Hlt. rewrite after_addBot_bots by lia. done.
Qed.

Lemma history_after_preempt b r h w : history w (after_preempt b r h w).
Proof.
  unfold history. split_and!.
  - reflexivity.
  - by rewrite after_preempt_completed.
  - by rewrite after_preempt_orderAlloc.
  - reflexivity.
  - intros r' _. by rewrite after_preempt_number, after_preempt_type.
  - intros b' _. by rewrite after_preempt_botId.
Qed.

Lemma history_after_complete b r h w : history w (after_complete b r h w).
Proof.
  unfold history. split_and!.
  - reflexivity.
  - rewrite after_complete_completed. by apply prefix_app_r.
  - by rewrite after_complete_orderAlloc.
  - reflexivity.
  - intros r' _. by rewrite after_complete_number, after_complete_type.
  - intros b' _. by rewrite after_complete_botId.
Qed.

Lemma history_set_logged f w w' : history w w' -> history w (set_logged f w').
Proof. done. Qed.

Lemma bind_ret_Ok {A} (m : M A) w w' :
  (m ;; ret tt) w = Ok tt w' -> exists a, m w = Ok a w'.
Proof. unfold bind, ret. destruct (m w); [intros [= <-]; eauto | done]. Qed.

Lemma run_event_history logger ev w w' :
  WF w -> run_event logger ev w = Ok tt w' -> history w w'.
Proof.
  intros Hwf Hrun. destruct ev; simpl in Hrun.
  - apply bind_ret_Ok in Hrun as [r Hrun].
    pose proof (createOrder_post logger NORMAL w Hwf) as Hp.
    unfold createNormalOrder in Hrun. rewrite Hrun in Hp. simpl in Hp.
    destruct Hp as (_ & _ & _ & _ & Has).
    eapply history_trans; [|apply (history_Assigned _ _ _ Has)].
    apply history_set_logged, history_after_create.
  - apply bind_ret_Ok in Hrun as [r Hrun].
    pose proof (createOrder_post logger VIP w Hwf) as Hp.
    unfold createVIPOrder in Hrun. rewrite Hrun in Hp. simpl in Hp.
    destruct Hp as (_ & _ & _ & _ & Has).
    eapply history_trans; [|apply (history_Assigned _ _ _ Has)].
    apply history_set_logged, history_after_create.
  - apply bind_ret_Ok in Hrun as [b Hrun].
    pose proof (addBot_post logger w Hwf) as Hp.
    rewrite Hrun in Hp. simpl in Hp. destruct Hp as (_ & _ & _ & _ & Has).
    eapply history_trans; [|apply (history_Assigned _ _ _ Has)].
    apply history_set_logged, history_after_addBot.
  - apply bind_ret_Ok in Hrun as [res Hrun].
    destruct (pool_cases w) as [He|(init & b & Hp)].
    { rewrite removeBot_empty in Hrun by done. injection Hrun as _ <-.
      apply history_refl. }
    destruct (bot_consistent_cases _ (wf_bot w Hwf b))
      as [(Hst & Hco & Hto)|(Hst & r & h & Hco & Hto)].
    + rewrite (removeBot_idle logger b init w Hp Hto Hco) in Hrun.
      unfold bind, log, ret in Hrun. destruct (logger _ _); [done|].
      injection Hrun as _ <-. apply history_set_logged.
      unfold history. split_and!; try reflexivity; by intros.
    + destruct (removeBot_Ok logger b init r h w Hp Hto Hco res w' Hrun)
        as [_ Ha].
      set (w1 := set_logged _ (after_preempt b r h w)) in Ha.
      assert (Hwf1 : WF w1) by by apply (preempt_WF1 b init r h w).
      pose proof (assign_post logger w1 Hwf1) as Hq. rewrite Ha in Hq.
      simpl in Hq. destruct Hq as (_ & _ & Has & _).
      eapply history_trans; [|apply (history_Assigned _ _ _ Has)].
      apply history_set_logged, history_after_preempt.
  - destruct (timers w h) as [b|] eqn:Hh.
    2: { rewrite timerFires_none in Hrun by done. injection Hrun as <-.
         apply history_refl. }
    destruct (WF_timer w Hwf h b Hh) as (_ & _ & _ & r & Hco).
    destruct (timerFires_Ok logger h b r w Hwf Hh Hco w' Hrun) as (w2 & Ha & Hw').
    set (w1 := set_logged _ (after_complete b r h w)) in Ha.
    assert (Hwf1 : WF w1) by by apply completion_WF1.
    pose proof (assign_post logger w1 Hwf1) as Hq. rewrite Ha in Hq.
    simpl in Hq. destruct Hq as (_ & _ & Has & _).
    assert (H2 : history w w2).
    { eapply history_trans; [|apply (history_Assigned _ _ _ Has)].
      apply history_set_logged, history_after_complete. }
    destruct Hw' as [->|[-> _]]; [done | by apply history_set_logged].
Qed.

Lemma steps_history logger w w' :
  WF w -> Saturated w -> steps logger w w' -> history w w'.
Proof.
  intros Hwf Hsat Hs. induction Hs as [w|w w1 ev w2 Hs IH [_ Hrun]].
  - apply history_refl.
  - destruct (steps_inv logger _ _ Hs Hwf Hsat) as (Hwf1 & _ & _).
    eapply history_trans; [by apply IH|].
    by apply (run_event_history logger ev).
Qed.

(** X13. What completed operations never undo.  From a world [w] reached
    by completed operations, let any further completed operations lead to
    [w'].  The list of all orders and the list of completed orders of [w]
    are prefixes of those of [w']: orders are only ever appended, in
    creation and completion order.  Every order of [w] keeps its order
    number and its class, every completed order of [w] is still COMPLETE,
    and every bot of [w] keeps its id. *)
Theorem history_is_kept logger (w w' : World) :
  reachable logger w ->
  steps logger w w' ->
  orders w `prefix_of` orders w'
  /\ completedOrders w `prefix_of` completedOrders w'
  /\ (forall r, r ∈ orders w ->
        Order.orderNumber (orderHeap w' r) = Order.orderNumber (orderHeap w r)
        /\ Order.type (orderHeap w' r) = Order.type (orderHeap w r))
  /\ (forall r, r ∈ completedOrders w ->
        r ∈ completedOrders w'
        /\ Order.status (orderHeap w' r) = ORDER_STATUS.COMPLETE)
  /\ (forall b, b ∈ bots w ->
        Bot.botId (botHeap w' b) = Bot.botId (botHeap w b)).
Proof.
  intros Hr Hs. destruct (reachable_WF logger w Hr) as [Hwf Hsat].
  destruct (steps_inv logger _ _ Hs Hwf Hsat) as (Hwf' & _ & _).
  destruct (steps_history logger w w' Hwf Hsat Hs) as (Ho & Hc & _ & _ & Hn & Hi).
  split_and!; [done | done | | |].
  - intros r Hin. apply Hn. rewrite (wf_orders w Hwf), elem_of_seq in Hin. lia.
  - intros r Hin.
    assert (Hin' : r ∈ completedOrders w').
    { destruct Hc as [k ->]. apply elem_of_app. by left. }
    split; [done | by apply (wf_completed w' Hwf')].
  - intros b Hin. apply Hi. by apply (wf_pool_alloc w Hwf).
Qed.

Lemma later_world_steps : steps silent idle_first_world later_world.
Proof. apply (exec_steps silent later_events). vm_compute. reflexivity. Qed.

Lemma history_is_kept_witness :
  reachable silent idle_first_world
  /\ steps silent idle_first_world later_world
  /\ completedOrders idle_first_world = [0]
  /\ completedOrders later_world = [0; 1]
  /\ completedOrders idle_first_world `prefix_of` completedOrders later_world
  /\ orders idle_first_world `prefix_of` orders later_world.
Proof.
  destruct (history_is_kept silent idle_first_world later_world
              idle_first_world_reachable later_world_steps) as (Ho & Hc & _).
  split; [exact idle_first_world_reachable|]. split; [exact later_world_steps|].
  split; [vm_compute; reflexivity|]. split; [vm_compute; reflexivity|].
  split; [exact Hc | exact Ho].
Defined.
